(** * Curve creator: a shallow embedding of [src/classes/DrawingHelper.js]

    The drawing helper keeps curve groups (points joined by cubic Bezier
    segments), a reference image, an origin point and the drag state of the
    pointer tools.  This file embeds its data model and its methods as
    functions over an explicit world state and proves the properties the
    specification states about them.

    Conventions of the embedding.
    - JavaScript numbers are read as real numbers (exact arithmetic): the
      properties below are about geometry and control flow, not rounding.
      [<] and [>] are decided by [Rlt_dec].
    - [CurveGroup] instances are objects with identity: they live in a store
      ([heap]) and are named by their location.  [curveGroups] and
      [activeCurveGroup] hold locations, so the active group aliases an entry
      of the collection exactly as in the source.  [Point] and [Control]
      instances are never shared between containers and are kept as values.
    - The module-level variables [activeTool], [mousePos] and [ctx], the
      [setMessage] callback, the console, the main loop and the local storage
      entry are fields of the world state. *)

From Stdlib Require Import Reals Lra Lia ZArith NArith Bool String Ascii List.
From stdpp Require Import list strings.

(** ** Numbers *)

(** JavaScript [a < b] on numbers. *)
Definition js_lt (a b : R) : bool := if Rlt_dec a b then true else false.

(** JavaScript [a > b] on numbers. *)
Definition js_gt (a b : R) : bool := js_lt b a.

(** [Math.max(a, b)]. *)
Definition Math_max (a b : R) : R := if js_lt a b then b else a.

(** [Math.atan2(y, x)]: the angle of the vector [(x, y)], in (-PI, PI]. *)
Definition Math_atan2 (y x : R) : R :=
  if js_lt 0 x then atan (y / x)
  else if js_lt x 0 then
    (if js_lt y 0 then atan (y / x) - PI else atan (y / x) + PI)%R
  else if js_lt 0 y then (PI / 2)%R
  else if js_lt y 0 then (- (PI / 2))%R
  else 0%R.

(** ** Module-level constants *)

Inductive ToolTypes : Set :=
| TRANSFORM_REFERENCE
| ADD_POINTS
| DELETE_POINTS
| EDIT_POINTS
| EDIT_CONTROLS
| EDIT_ORIGIN_POINT.

(** The integer each tool is stored as. *)
Definition ToolTypes_code (t : ToolTypes) : Z :=
  match t with
  | TRANSFORM_REFERENCE => 0
  | ADD_POINTS => 1
  | DELETE_POINTS => 2
  | EDIT_POINTS => 3
  | EDIT_CONTROLS => 4
  | EDIT_ORIGIN_POINT => 54
  end.

Definition ToolTypes_eqb (a b : ToolTypes) : bool :=
  Z.eqb (ToolTypes_code a) (ToolTypes_code b).

Definition canvasWidth : R := 1024.
Definition canvasHeight : R := 768.
Definition markerSize : R := 32.
Definition originSize : R := 64.
Definition originSizeHalf : R := (originSize * 0.5)%R.

(** ** Geometric primitives *)

(** [Point] instances and the plain [{x, y}] objects ([mousePos],
    [originPos], [dragStart], [offset]). *)
Module Point.
Record t : Type := new { x : R; y : R }.

Definition distanceTo (this point : t) : R :=
  let a := (x this - x point)%R in
  let b := (y this - y point)%R in
  sqrt (a * a + b * b).
End Point.

Module Control.
(** The [points] array of a control always holds exactly two points. *)
Record t : Type := make { point1 : Point.t; point2 : Point.t }.

Definition new (x1 y1 x2 y2 : R) : t :=
  make (Point.new x1 y1) (Point.new x2 y2).

Definition points (c : t) : list Point.t := [point1 c; point2 c].

(** [control.points[j] = p] *)
Definition set_point (j : nat) (p : Point.t) (c : t) : t :=
  match j with
  | 0 => make p (point2 c)
  | 1 => make (point1 c) p
  | _ => c
  end.
End Control.

Module CurveGroup.
Record t : Type := make {
  points : list Point.t;
  controls : list Control.t;
  id : string
}.

Definition new (id : string) : t := make [] [] id.

Definition set_points (v : list Point.t) (g : t) : t :=
  make v (controls g) (id g).
Definition set_controls (v : list Control.t) (g : t) : t :=
  make (points g) v (id g).
End CurveGroup.

(** ** The reference image *)

(** The host's [Image] element: its source, its size once decoded (0
    before, and for a broken image), and whether its current request is
    broken: the host could not get or decode the source, or the source is
    empty.  [drawImage] throws an [InvalidStateError] for a broken image. *)
Record Image : Type := mkImage {
  src : string;
  width : R;
  height : R;
  broken : bool
}.

(** [image.src = d]: an empty source leaves the element broken; another
    source starts a load, whose outcome the host reports later by the load
    event or the error event. *)
Definition set_src (d : string) (i : Image) : Image :=
  if String.eqb d EmptyString then mkImage d 0 0 true
  else mkImage d (width i) (height i) false.

Module ReferenceImage.
Record t : Type := make {
  ready : bool;
  data : string;
  image : Image;
  offset : Point.t;
  scale : R;
  dragPosition : Point.t;
  moving : bool;
  scaling : bool;
  opacity : R;
  color : string
}.

Definition new : t :=
  make false EmptyString (mkImage EmptyString 0 0 false) (Point.new 0 0) 1
       (Point.new 0 0) false false 1 "#ff0099".

Definition set_ready v r :=
  make v (data r) (image r) (offset r) (scale r) (dragPosition r)
       (moving r) (scaling r) (opacity r) (color r).
Definition set_offset v r :=
  make (ready r) (data r) (image r) v (scale r) (dragPosition r)
       (moving r) (scaling r) (opacity r) (color r).
Definition set_scale v r :=
  make (ready r) (data r) (image r) (offset r) v (dragPosition r)
       (moving r) (scaling r) (opacity r) (color r).
Definition set_drag pos mv sc r :=
  make (ready r) (data r) (image r) (offset r) (scale r) pos
       mv sc (opacity r) (color r).
Definition set_opacity v r :=
  make (ready r) (data r) (image r) (offset r) (scale r) (dragPosition r)
       (moving r) (scaling r) v (color r).
Definition set_color v r :=
  make (ready r) (data r) (image r) (offset r) (scale r) (dragPosition r)
       (moving r) (scaling r) (opacity r) v.

(** The image element's [onload] callback, fired by the host once the
    payload is decoded. *)
Definition onload (w h : R) (r : t) : t :=
  make true (data r) (mkImage (src (image r)) w h false) (offset r) (scale r)
       (dragPosition r) (moving r) (scaling r) (opacity r) (color r).

(** The image element's error event, fired by the host when the payload
    cannot be fetched or decoded.  The class installs no handler for it:
    the element is broken and [ready] stays as it is. *)
Definition onerror (r : t) : t :=
  make (ready r) (data r) (mkImage (src (image r)) 0 0 true) (offset r)
       (scale r) (dragPosition r) (moving r) (scaling r) (opacity r) (color r).

Definition resetTransforms (r : t) : t :=
  set_scale 1 (set_offset (Point.new 0 0) r).

Definition setData (d : string) (r : t) : t :=
  make (ready r) d (set_src d (image r))
       (offset r) (scale r) (dragPosition r) (moving r) (scaling r)
       (opacity r) (color r).

Definition clearData (r : t) : t := set_ready false (setData EmptyString r).

Definition setOpacity := set_opacity.
Definition setColor := set_color.
Definition setScale := set_scale.
Definition setOffset (x y : R) := set_offset (Point.new x y).

(** [new Blob([data]).size]: the payload's size in bytes. *)
Definition blob_size (d : string) : Z := Z.of_nat (String.length d).

Definition getSaveData (r : t) : string :=
  let size := (IZR (blob_size (data r)) / 1000000)%R in
  if js_lt size 4000000 then data r else EmptyString.
End ReferenceImage.

(** ** The drawing helper *)

(** Locations of [CurveGroup] instances in the object store. *)
Definition loc : Set := nat.

(** The display properties of [DrawingHelper], with the range for clicking
    points and the output precision. *)
Record Display : Type := mkDisplay {
  lineWidth : R;
  pointSize : R;
  pointSizeHalf : R;
  activeOpacity : R;
  inactiveOpacity : R;
  mainColor : string;
  controlColor : string;
  originColor : string;
  pointRange : R;
  pointRangeHalf : R;
  outputPrecision : nat
}.

(** The drag variables of [DrawingHelper]; [None] is [null]. *)
Record Drag : Type := mkDrag {
  dragStart : option Point.t;
  dragPoint : option nat;
  dragControl : option (nat * nat);
  dragOrigin : bool
}.

Record DrawingHelper : Type := mkDrawingHelper {
  curveGroups : list loc;
  activeCurveGroup : option loc;
  originPos : Point.t;
  display : Display;
  drag : Drag;
  reference : ReferenceImage.t
}.

(** The calls and property writes the 2D drawing context receives. *)
Inductive CtxOp : Type :=
| clearRect (x y w h : R)
| set_globalAlpha (v : R)
| set_lineWidth (v : R)
| set_strokeStyle (v : string)
| set_fillStyle (v : string)
| drawImage (image : Image) (x y w h : R)
| strokeRect (x y w h : R)
| fillRect (x y w h : R)
| beginPath
| moveTo (x y : R)
| lineTo (x y : R)
| bezierCurveTo (x1 y1 x2 y2 x y : R)
| stroke.

(** A raw control of a saved state: [{x1, y1, x2, y2}]. *)
Record ControlData : Type := mkControlData { x1 : R; y1 : R; x2 : R; y2 : R }.

(** A raw curve group of a saved state. *)
Record GroupData : Type := mkGroupData {
  g_id : string;
  g_points : list Point.t;
  g_controls : list ControlData
}.

Record ReferenceData : Type := mkReferenceData {
  r_scale : R;
  r_offset : Point.t;
  r_opacity : R;
  r_color : string;
  r_data : string
}.

(** The object [saveState] writes and [loadState] reads.  A field that is
    [undefined] (and so dropped by [JSON.stringify]) is [None]. *)
Record State : Type := mkState {
  s_timestamp : option Z;
  s_originPos : option Point.t;
  s_curveGroups : option (list GroupData);
  s_activeGroupId : option string;
  s_reference : option ReferenceData;
  s_activeTool : option ToolTypes;
  s_lineWidth : option R;
  s_pointRange : option R;
  s_pointSize : option R;
  s_activeOpacity : option R;
  s_inactiveOpacity : option R;
  s_mainColor : option string;
  s_controlColor : option string;
  s_originColor : option string;
  s_outputPrecision : option nat
}.

(** The world: the object store, the helper instance, the module-level
    variables and what the host observes. *)
Record World : Type := mkWorld {
  heap : list CurveGroup.t;
  this : DrawingHelper;
  activeTool : ToolTypes;
  mousePos : Point.t;
  ctx : list CtxOp;
  mainLoopRunning : bool;
  messages : list string;
  console : list string;
  localStorage : option State;
  storageFull : bool
}.

Definition initialDisplay : Display :=
  mkDisplay 2 16 (16 * 0.5) 1 1 "#ff0099" "#ffffff" "#ffffff" 16 (16 * 0.5) 2.

Definition initialDrag : Drag := mkDrag None None None false.

Definition initialHelper : DrawingHelper :=
  mkDrawingHelper [] None (Point.new 0 0) initialDisplay initialDrag
                  ReferenceImage.new.

(** The state right after [init]: nothing drawn, the main loop started. *)
Definition initialWorld : World :=
  mkWorld [] initialHelper TRANSFORM_REFERENCE (Point.new 0 0) [] true [] []
          None false.

(** *** Field updates *)

Definition set_heap v w :=
  mkWorld v (this w) (activeTool w) (mousePos w) (ctx w) (mainLoopRunning w)
          (messages w) (console w) (localStorage w) (storageFull w).
Definition set_this v w :=
  mkWorld (heap w) v (activeTool w) (mousePos w) (ctx w) (mainLoopRunning w)
          (messages w) (console w) (localStorage w) (storageFull w).
Definition set_activeTool v w :=
  mkWorld (heap w) (this w) v (mousePos w) (ctx w) (mainLoopRunning w)
          (messages w) (console w) (localStorage w) (storageFull w).
Definition set_mousePos v w :=
  mkWorld (heap w) (this w) (activeTool w) v (ctx w) (mainLoopRunning w)
          (messages w) (console w) (localStorage w) (storageFull w).
Definition set_ctx v w :=
  mkWorld (heap w) (this w) (activeTool w) (mousePos w) v (mainLoopRunning w)
          (messages w) (console w) (localStorage w) (storageFull w).
Definition set_mainLoopRunning v w :=
  mkWorld (heap w) (this w) (activeTool w) (mousePos w) (ctx w) v
          (messages w) (console w) (localStorage w) (storageFull w).
Definition set_messages v w :=
  mkWorld (heap w) (this w) (activeTool w) (mousePos w) (ctx w)
          (mainLoopRunning w) v (console w) (localStorage w) (storageFull w).
Definition set_console v w :=
  mkWorld (heap w) (this w) (activeTool w) (mousePos w) (ctx w)
          (mainLoopRunning w) (messages w) v (localStorage w) (storageFull w).
Definition set_localStorage v w :=
  mkWorld (heap w) (this w) (activeTool w) (mousePos w) (ctx w)
          (mainLoopRunning w) (messages w) (console w) v (storageFull w).

Definition set_curveGroups v d :=
  mkDrawingHelper v (activeCurveGroup d) (originPos d) (display d) (drag d)
                  (reference d).
Definition set_activeCurveGroup v d :=
  mkDrawingHelper (curveGroups d) v (originPos d) (display d) (drag d)
                  (reference d).
Definition set_originPos v d :=
  mkDrawingHelper (curveGroups d) (activeCurveGroup d) v (display d) (drag d)
                  (reference d).
Definition set_display v d :=
  mkDrawingHelper (curveGroups d) (activeCurveGroup d) (originPos d) v (drag d)
                  (reference d).
Definition set_drag v d :=
  mkDrawingHelper (curveGroups d) (activeCurveGroup d) (originPos d)
                  (display d) v (reference d).
Definition set_reference v d :=
  mkDrawingHelper (curveGroups d) (activeCurveGroup d) (originPos d)
                  (display d) (drag d) v.

(** [this.f = v], for the fields of the helper. *)
Definition upd_this (f : DrawingHelper -> DrawingHelper) (w : World) : World :=
  set_this (f (this w)) w.

(** [this.setMessage(text)] *)
Definition setMessage (text : string) (w : World) : World :=
  set_messages (messages w ++ [text]) w.

(** [console.warn(text)] and [console.log(text)] *)
Definition console_log (text : string) (w : World) : World :=
  set_console (console w ++ [text]) w.

(** One call or property write on [ctx]. *)
Definition emit (op : CtxOp) (w : World) : World :=
  set_ctx (ctx w ++ [op]) w.

(** *** The object store *)

(** [new CurveGroup(...)]: the instance gets a fresh location. *)
Definition alloc (g : CurveGroup.t) (w : World) : loc * World :=
  (length (heap w), set_heap (heap w ++ [g]) w).

(** A write through a reference to the group at [l]. *)
Definition store (l : loc) (g : CurveGroup.t) (w : World) : World :=
  set_heap (<[l := g]> (heap w)) w.

(** [group.id === id] for the group at [l]. *)
Definition has_id (w : World) (id : string) (l : loc) : bool :=
  match heap w !! l with
  | Some g => String.eqb (CurveGroup.id g) id
  | None => false
  end.

(** *** Settings *)

Definition setActiveTool (value : ToolTypes) (w : World) : World :=
  set_activeTool value w.

(** The named properties [setProperty] is called with, each with its value. *)
Inductive Property : Type :=
| P_lineWidth (v : R)
| P_pointRange (v : R)
| P_pointSize (v : R)
| P_activeOpacity (v : R)
| P_inactiveOpacity (v : R)
| P_mainColor (v : string)
| P_controlColor (v : string)
| P_originColor (v : string)
| P_outputPrecision (v : nat).

(** [this[key] = value]: the named field and nothing else. *)
Definition setProperty_display (p : Property) (d : Display) : Display :=
  match p with
  | P_lineWidth v =>
      mkDisplay v (pointSize d) (pointSizeHalf d) (activeOpacity d)
        (inactiveOpacity d) (mainColor d) (controlColor d) (originColor d)
        (pointRange d) (pointRangeHalf d) (outputPrecision d)
  | P_pointRange v =>
      mkDisplay (lineWidth d) (pointSize d) (pointSizeHalf d) (activeOpacity d)
        (inactiveOpacity d) (mainColor d) (controlColor d) (originColor d)
        v (pointRangeHalf d) (outputPrecision d)
  | P_pointSize v =>
      mkDisplay (lineWidth d) v (pointSizeHalf d) (activeOpacity d)
        (inactiveOpacity d) (mainColor d) (controlColor d) (originColor d)
        (pointRange d) (pointRangeHalf d) (outputPrecision d)
  | P_activeOpacity v =>
      mkDisplay (lineWidth d) (pointSize d) (pointSizeHalf d) v
        (inactiveOpacity d) (mainColor d) (controlColor d) (originColor d)
        (pointRange d) (pointRangeHalf d) (outputPrecision d)
  | P_inactiveOpacity v =>
      mkDisplay (lineWidth d) (pointSize d) (pointSizeHalf d) (activeOpacity d)
        v (mainColor d) (controlColor d) (originColor d)
        (pointRange d) (pointRangeHalf d) (outputPrecision d)
  | P_mainColor v =>
      mkDisplay (lineWidth d) (pointSize d) (pointSizeHalf d) (activeOpacity d)
        (inactiveOpacity d) v (controlColor d) (originColor d)
        (pointRange d) (pointRangeHalf d) (outputPrecision d)
  | P_controlColor v =>
      mkDisplay (lineWidth d) (pointSize d) (pointSizeHalf d) (activeOpacity d)
        (inactiveOpacity d) (mainColor d) v (originColor d)
        (pointRange d) (pointRangeHalf d) (outputPrecision d)
  | P_originColor v =>
      mkDisplay (lineWidth d) (pointSize d) (pointSizeHalf d) (activeOpacity d)
        (inactiveOpacity d) (mainColor d) (controlColor d) v
        (pointRange d) (pointRangeHalf d) (outputPrecision d)
  | P_outputPrecision v =>
      mkDisplay (lineWidth d) (pointSize d) (pointSizeHalf d) (activeOpacity d)
        (inactiveOpacity d) (mainColor d) (controlColor d) (originColor d)
        (pointRange d) (pointRangeHalf d) v
  end.

Definition setProperty (p : Property) (w : World) : World :=
  upd_this (fun d => set_display (setProperty_display p (display d)) d) w.

Definition setPointRange (value : R) (w : World) : World :=
  upd_this (fun d =>
    let s := display d in
    set_display
      (mkDisplay (lineWidth s) (pointSize s) (pointSizeHalf s)
         (activeOpacity s) (inactiveOpacity s) (mainColor s) (controlColor s)
         (originColor s) value (value * 0.5) (outputPrecision s)) d) w.

Definition setPointSize (value : R) (w : World) : World :=
  upd_this (fun d =>
    let s := display d in
    set_display
      (mkDisplay (lineWidth s) value (value * 0.5)
         (activeOpacity s) (inactiveOpacity s) (mainColor s) (controlColor s)
         (originColor s) (pointRange s) (pointRangeHalf s)
         (outputPrecision s)) d) w.

Definition upd_reference (f : ReferenceImage.t -> ReferenceImage.t)
    (w : World) : World :=
  upd_this (fun d => set_reference (f (reference d)) d) w.

Definition resetReferenceTransforms := upd_reference ReferenceImage.resetTransforms.
Definition deleteReferenceData := upd_reference ReferenceImage.clearData.
Definition setReferenceData (data : string) :=
  upd_reference (ReferenceImage.setData data).
Definition setReferenceOpacity (value : R) :=
  upd_reference (ReferenceImage.setOpacity value).
Definition setReferenceColor (value : string) :=
  upd_reference (ReferenceImage.setColor value).

(** *** Curve groups *)

Definition setActiveGroupId (id : string) (w : World) : World :=
  match List.find (has_id w id) (curveGroups (this w)) with
  | Some foundGroup => upd_this (set_activeCurveGroup (Some foundGroup)) w
  | None => console_log ("Unable to find curve group; Id: " +:+ id) w
  end.

Definition createGroup (id : string) (w : World) : World :=
  let (newGroup, w1) := alloc (CurveGroup.new id) w in
  let w2 :=
    upd_this (fun d => set_curveGroups (curveGroups d ++ [newGroup]) d) w1 in
  upd_this (set_activeCurveGroup (Some newGroup)) w2.

(** [this.activeCurveGroup?.id === id] *)
Definition active_has_id (w : World) (id : string) : bool :=
  match activeCurveGroup (this w) with
  | Some l => has_id w id l
  | None => false
  end.

Definition deleteGroup (id : string) (w : World) : World :=
  let w1 :=
    upd_this (fun d =>
      set_curveGroups
        (List.filter (fun l => negb (has_id w id l)) (curveGroups d)) d) w in
  if active_has_id w1 id
  then upd_this (set_activeCurveGroup None) w1
  else w1.

(** The active group with its location; [None] when [activeCurveGroup] is
    [null].  (A location always names an entry of the store: locations come
    from [alloc] only and the store never shrinks.) *)
Definition active_group (w : World) : option (loc * CurveGroup.t) :=
  match activeCurveGroup (this w) with
  | Some l =>
      match heap w !! l with
      | Some g => Some (l, g)
      | None => None
      end
  | None => None
  end.

Definition syncLastPoint (w : World) : World :=
  match active_group w with
  | Some (l, g) =>
      let points := CurveGroup.points g in
      if (1 <? length points)%nat then
        match points !! 0, points !! (length points - 1) with
        | Some firstPoint, Some lastPoint =>
            let lastPoint' := Point.new (Point.x firstPoint) (Point.y firstPoint) in
            store l (CurveGroup.set_points
                       (<[length points - 1 := lastPoint']> points) g) w
        | _, _ => w
        end
      else w
  | None => w
  end.

Definition deleteLastPoint (w : World) : World :=
  match active_group w with
  | Some (l, g) =>
      if (0 <? length (CurveGroup.points g))%nat then
        let g1 := CurveGroup.set_points (removelast (CurveGroup.points g)) g in
        let g2 := CurveGroup.set_controls (removelast (CurveGroup.controls g1)) g1 in
        store l g2 w
      else w
  | None => w
  end.

(** *** Pointer input *)

Record MouseEvent : Type := mkMouseEvent { clientX : R; clientY : R }.

(** [rect] is what [canvas.getBoundingClientRect()] returns. *)
Definition handleMouseMove (rect : Point.t) (event : MouseEvent) (w : World) : World :=
  set_mousePos
    (Point.new (clientX event - Point.x rect) (clientY event - Point.y rect)) w.

(** [ReferenceImage.onMouseDown], with the module-level [activeTool] and
    [mousePos] it reads. *)
Definition reference_onMouseDown (tool : ToolTypes) (mouse : Point.t)
    (r : ReferenceImage.t) : ReferenceImage.t :=
  if negb (ReferenceImage.ready r) || negb (ToolTypes_eqb tool TRANSFORM_REFERENCE)
  then r
  else
    let x := Point.x (ReferenceImage.offset r) in
    let y := Point.y (ReferenceImage.offset r) in
    let scaledWidth := (width (ReferenceImage.image r) * ReferenceImage.scale r)%R in
    let scaledHeight := (height (ReferenceImage.image r) * ReferenceImage.scale r)%R in
    if js_gt (Point.x mouse) x && js_lt (Point.x mouse) (x + scaledWidth)
       && js_gt (Point.y mouse) y && js_lt (Point.y mouse) (y + scaledHeight)
    then
      if (js_lt (Point.x mouse) (x + markerSize)
          && js_lt (Point.y mouse) (y + markerSize))
         || (js_gt (Point.x mouse) (x + scaledWidth - markerSize)
             && js_gt (Point.y mouse) (y + scaledHeight - markerSize))
      then
        ReferenceImage.set_drag (Point.new (Point.x mouse) (Point.y mouse))
          (ReferenceImage.moving r) true r
      else
        ReferenceImage.set_drag (Point.new (Point.x mouse) (Point.y mouse))
          true (ReferenceImage.scaling r) r
    else r.

(** [ReferenceImage.onMouseUp] *)
Definition reference_onMouseUp (mouse : Point.t) (r : ReferenceImage.t)
    : ReferenceImage.t :=
  if negb (ReferenceImage.ready r) then r
  else if ReferenceImage.moving r || ReferenceImage.scaling r then
    let deltaX := (Point.x mouse - Point.x (ReferenceImage.dragPosition r))%R in
    let deltaY := (Point.y mouse - Point.y (ReferenceImage.dragPosition r))%R in
    let r1 :=
      if ReferenceImage.moving r then
        ReferenceImage.set_offset
          (Point.new (Point.x (ReferenceImage.offset r) + deltaX)
                     (Point.y (ReferenceImage.offset r) + deltaY)) r
      else if ReferenceImage.scaling r then
        ReferenceImage.set_scale
          (Math_max (ReferenceImage.scale r - deltaY * 0.01) 0.1) r
      else r in
    ReferenceImage.set_drag (ReferenceImage.dragPosition r1) false false r1
  else r.

(** The box test of the edit tools: the pointer lies strictly within
    [half] of the point on both axes. *)
Definition in_pick_range (mouseX mouseY : R) (p : Point.t) (half : R) : bool :=
  js_gt mouseX (Point.x p - half) && js_lt mouseX (Point.x p + half)
  && js_gt mouseY (Point.y p - half) && js_lt mouseY (Point.y p + half).

Definition upd_drag (f : Drag -> Drag) (w : World) : World :=
  upd_this (fun d => set_drag (f (drag d)) d) w.

(** [this.dragPoint = i; this.dragStart = { x: mouseX, y: mouseY }] *)
Definition start_dragPoint (i : nat) (mouseX mouseY : R) (d : Drag) : Drag :=
  mkDrag (Some (Point.new mouseX mouseY)) (Some i) (dragControl d) (dragOrigin d).

(** [this.dragControl = [i, j]; this.dragStart = { x: mouseX, y: mouseY }] *)
Definition start_dragControl (i j : nat) (mouseX mouseY : R) (d : Drag) : Drag :=
  mkDrag (Some (Point.new mouseX mouseY)) (dragPoint d) (Some (i, j)) (dragOrigin d).

(** [this.dragOrigin = true; this.dragStart = { x: mouseX, y: mouseY }] *)
Definition start_dragOrigin (mouseX mouseY : R) (d : Drag) : Drag :=
  mkDrag (Some (Point.new mouseX mouseY)) (dragPoint d) (dragControl d) true.

(** The [for] loop of the EDIT_POINTS case, from index [i] on: the first
    point in range is recorded and the loop stops. *)
Fixpoint search_points (i : nat) (points : list Point.t) (mouseX mouseY : R)
    (w : World) : World :=
  match points with
  | [] => w
  | p :: rest =>
      if in_pick_range mouseX mouseY p (pointRangeHalf (display (this w)))
      then upd_drag (start_dragPoint i mouseX mouseY) w
      else search_points (S i) rest mouseX mouseY w
  end.

(** The inner [for] loop of the EDIT_CONTROLS case over the two points of
    control [i], from index [j] on; its [break] leaves this loop only. *)
Fixpoint search_control_points (i j : nat) (points : list Point.t)
    (mouseX mouseY : R) (w : World) : World :=
  match points with
  | [] => w
  | p :: rest =>
      if in_pick_range mouseX mouseY p (pointRangeHalf (display (this w)))
      then upd_drag (start_dragControl i j mouseX mouseY) w
      else search_control_points i (S j) rest mouseX mouseY w
  end.

(** The outer [for] loop of the EDIT_CONTROLS case, from index [i] on. *)
Fixpoint search_controls (i : nat) (controls : list Control.t)
    (mouseX mouseY : R) (w : World) : World :=
  match controls with
  | [] => w
  | c :: rest =>
      search_controls (S i) rest mouseX mouseY
        (search_control_points i 0 (Control.points c) mouseX mouseY w)
  end.

(** The control the ADD_POINTS case creates for [points], the group's
    points with the new one already pushed; [None] for a first point. *)
Definition new_control (points : list Point.t) : option Control.t :=
  if (1 <? length points)%nat then
    match drop (length points - 2) points with
    | [point1; point2] =>
        let angle :=
          Math_atan2 (Point.y point2 - Point.y point1)
                     (Point.x point2 - Point.x point1) in
        let distance := Point.distanceTo point1 point2 in
        let x1 := (Point.x point1 + cos angle * distance * 0.2)%R in
        let y1 := (Point.y point1 + sin angle * distance * 0.2)%R in
        let x2 := (Point.x point1 + cos angle * distance * 0.8)%R in
        let y2 := (Point.y point1 + sin angle * distance * 0.8)%R in
        Some (Control.new x1 y1 x2 y2)
    | _ => None
    end
  else None.

(** [this.reference.onMouseDown()] *)
Definition call_reference_onMouseDown (w : World) : World :=
  upd_reference (reference_onMouseDown (activeTool w) (mousePos w)) w.

Definition handleMouseDown (w : World) : World :=
  let mouseX := Point.x (mousePos w) in
  let mouseY := Point.y (mousePos w) in
  match activeTool w with
  | ADD_POINTS =>
      match active_group w with
      | None =>
          setMessage
            "Cannot add point; Please create or select a curve group before adding points."
            w
      | Some (l, g) =>
          if js_lt mouseX 0 || js_gt mouseX canvasWidth
             || js_lt mouseY 0 || js_gt mouseY canvasHeight
          then w
          else
            let g1 :=
              CurveGroup.set_points
                (CurveGroup.points g ++ [Point.new mouseX mouseY]) g in
            let g2 :=
              match new_control (CurveGroup.points g1) with
              | Some c =>
                  CurveGroup.set_controls (CurveGroup.controls g1 ++ [c]) g1
              | None => g1
              end in
            call_reference_onMouseDown (store l g2 w)
      end
  | EDIT_POINTS =>
      match active_group w with
      | None => w
      | Some (l, g) =>
          call_reference_onMouseDown
            (search_points 0 (CurveGroup.points g) mouseX mouseY w)
      end
  | EDIT_CONTROLS =>
      match active_group w with
      | None => w
      | Some (l, g) =>
          call_reference_onMouseDown
            (search_controls 0 (CurveGroup.controls g) mouseX mouseY w)
      end
  | EDIT_ORIGIN_POINT =>
      let o := originPos (this w) in
      call_reference_onMouseDown
        (if js_gt mouseX (Point.x o - originSizeHalf)
            && js_lt mouseX (Point.x o + originSizeHalf)
            && js_gt mouseY (Point.y o - originSizeHalf)
            && js_lt mouseY (Point.y o + originSizeHalf)
         then upd_drag (start_dragOrigin mouseX mouseY) w
         else w)
  | TRANSFORM_REFERENCE | DELETE_POINTS => call_reference_onMouseDown w
  end.

(** [this.reference.onMouseUp()] *)
Definition call_reference_onMouseUp (w : World) : World :=
  upd_reference (reference_onMouseUp (mousePos w)) w.

(** [handleMouseUp]; [None] when the handler throws a [TypeError] (a drag
    variable that is [null] or an index that names nothing), which happens
    before any write. *)
Definition handleMouseUp (w : World) : option World :=
  let mouseX := Point.x (mousePos w) in
  let mouseY := Point.y (mousePos w) in
  let d := drag (this w) in
  match activeTool w with
  | EDIT_POINTS =>
      match active_group w, dragPoint d with
      | Some (l, g), Some i =>
          match dragStart d, CurveGroup.points g !! i with
          | Some start, Some point =>
              let deltaX := (mouseX - Point.x start)%R in
              let deltaY := (mouseY - Point.y start)%R in
              let point' :=
                Point.new (Point.x point + deltaX) (Point.y point + deltaY) in
              let w1 :=
                store l (CurveGroup.set_points
                           (<[i := point']> (CurveGroup.points g)) g) w in
              let w2 :=
                upd_drag (fun d => mkDrag None None (dragControl d) (dragOrigin d)) w1 in
              Some (call_reference_onMouseUp w2)
          | _, _ => None
          end
      | _, _ => Some w
      end
  | EDIT_CONTROLS =>
      match active_group w, dragControl d with
      | Some (l, g), Some (controlIndex, pointIndex) =>
          match dragStart d, CurveGroup.controls g !! controlIndex with
          | Some start, Some control =>
              match Control.points control !! pointIndex with
              | Some point =>
                  let deltaX := (mouseX - Point.x start)%R in
                  let deltaY := (mouseY - Point.y start)%R in
                  let point' :=
                    Point.new (Point.x point + deltaX) (Point.y point + deltaY) in
                  let control' := Control.set_point pointIndex point' control in
                  let w1 :=
                    store l (CurveGroup.set_controls
                               (<[controlIndex := control']> (CurveGroup.controls g))
                               g) w in
                  let w2 :=
                    upd_drag (fun d => mkDrag None (dragPoint d) None (dragOrigin d)) w1 in
                  Some (call_reference_onMouseUp w2)
              | None => None
              end
          | _, _ => None
          end
      | _, _ => Some w
      end
  | EDIT_ORIGIN_POINT =>
      if dragOrigin d then
        match dragStart d with
        | Some start =>
            let deltaX := (mouseX - Point.x start)%R in
            let deltaY := (mouseY - Point.y start)%R in
            let o := originPos (this w) in
            let w1 :=
              upd_this (set_originPos
                          (Point.new (Point.x o + deltaX) (Point.y o + deltaY))) w in
            let w2 :=
              upd_drag (fun d => mkDrag None (dragPoint d) (dragControl d) false) w1 in
            Some (call_reference_onMouseUp w2)
        | None => None
        end
      else Some (call_reference_onMouseUp w)
  | TRANSFORM_REFERENCE | ADD_POINTS | DELETE_POINTS =>
      Some (call_reference_onMouseUp w)
  end.

(** *** State persistence *)

(** The groups of the collection, in order, read through their locations. *)
Definition groups (w : World) : list CurveGroup.t :=
  omap (fun l => heap w !! l) (curveGroups (this w)).

(** [new CurveGroup(...)] for each element of an array, in order. *)
Fixpoint alloc_all (gs : list CurveGroup.t) (w : World) : list loc * World :=
  match gs with
  | [] => ([], w)
  | g :: rest =>
      let (l, w1) := alloc g w in
      let (ls, w2) := alloc_all rest w1 in
      (l :: ls, w2)
  end.

(** The instance [loadState] builds from a raw group. *)
Definition groupInstance (group : GroupData) : CurveGroup.t :=
  CurveGroup.make
    (map (fun p => Point.new (Point.x p) (Point.y p)) (g_points group))
    (map (fun c => Control.new (x1 c) (y1 c) (x2 c) (y2 c)) (g_controls group))
    (g_id group).

(** [if (state.f !== undefined) ...] *)
Definition when_defined {A : Type} (field : option A) (f : A -> World -> World)
    (w : World) : World :=
  match field with
  | Some v => f v w
  | None => w
  end.

Definition loadState (state : State) (w : World) : World :=
  (* origin position *)
  let w := when_defined (s_originPos state)
             (fun v => upd_this (set_originPos v)) w in
  (* curve groups *)
  let w := when_defined (s_curveGroups state)
             (fun gs w =>
                let (ls, w1) := alloc_all (map groupInstance gs) w in
                upd_this (set_curveGroups ls) w1) w in
  (* active group id *)
  let w := when_defined (s_activeGroupId state) setActiveGroupId w in
  (* reference *)
  let w := when_defined (s_reference state)
             (fun r =>
                upd_reference (fun ref =>
                  let ref := ReferenceImage.setScale (r_scale r) ref in
                  let ref := ReferenceImage.setOffset (Point.x (r_offset r))
                               (Point.y (r_offset r)) ref in
                  let ref := ReferenceImage.setOpacity (r_opacity r) ref in
                  let ref := ReferenceImage.setColor (r_color r) ref in
                  (* possible to save the image *)
                  if String.eqb (r_data r) EmptyString then ref
                  else ReferenceImage.setData (r_data r) ref)) w in
  (* active tool *)
  let w := when_defined (s_activeTool state) set_activeTool w in
  (* remaining keys *)
  let w := when_defined (s_lineWidth state) (fun v => setProperty (P_lineWidth v)) w in
  let w := when_defined (s_pointRange state) (fun v => setProperty (P_pointRange v)) w in
  let w := when_defined (s_pointSize state) (fun v => setProperty (P_pointSize v)) w in
  let w := when_defined (s_activeOpacity state) (fun v => setProperty (P_activeOpacity v)) w in
  let w := when_defined (s_inactiveOpacity state) (fun v => setProperty (P_inactiveOpacity v)) w in
  let w := when_defined (s_mainColor state) (fun v => setProperty (P_mainColor v)) w in
  let w := when_defined (s_controlColor state) (fun v => setProperty (P_controlColor v)) w in
  let w := when_defined (s_originColor state) (fun v => setProperty (P_originColor v)) w in
  when_defined (s_outputPrecision state) (fun v => setProperty (P_outputPrecision v)) w.

(** The raw form [saveState] gives a group. *)
Definition groupData (group : CurveGroup.t) : GroupData :=
  mkGroupData (CurveGroup.id group)
    (map (fun p => Point.new (Point.x p) (Point.y p)) (CurveGroup.points group))
    (map (fun c =>
            mkControlData (Point.x (Control.point1 c)) (Point.y (Control.point1 c))
                          (Point.x (Control.point2 c)) (Point.y (Control.point2 c)))
         (CurveGroup.controls group)).

(** The object [saveState] serializes; [now] is [Date.now()]. *)
Definition stateObject (now : Z) (w : World) : State :=
  let d := this w in
  let s := display d in
  let r := reference d in
  mkState
    (Some now)
    (Some (originPos d))
    (Some (map groupData (groups w)))
    (match active_group w with
     | Some (_, g) => Some (CurveGroup.id g)
     | None => None
     end)
    (Some (mkReferenceData (ReferenceImage.scale r) (ReferenceImage.offset r)
             (ReferenceImage.opacity r) (ReferenceImage.color r)
             (ReferenceImage.getSaveData r)))
    (Some (activeTool w))
    (Some (lineWidth s))
    (Some (pointRange s))
    (Some (pointSize s))
    (Some (activeOpacity s))
    (Some (inactiveOpacity s))
    (Some (mainColor s))
    (Some (controlColor s))
    (Some (originColor s))
    (Some (outputPrecision s)).

(** [saveState]: the value returned and the world after.  [setItem] throws
    when the host's store is full. *)
Definition saveState (now : Z) (w : World) : bool * World :=
  if storageFull w then
    (false,
     console_log "Failed to save the state; with error: QuotaExceededError"
       (setMessage "Failed to save the state; check the console for more info" w))
  else
    (true,
     setMessage "Successfully saved state"
       (set_localStorage (Some (stateObject now w)) w)).

(** A page reload followed by the application's start-up effect: a fresh
    helper and fresh module variables, the local storage kept, and the
    stored state, if any, handed to [loadState]. *)
Definition reload (w : World) : World :=
  let w0 := set_localStorage (localStorage w) initialWorld in
  match localStorage w0 with
  | Some state => loadState state w0
  | None => w0
  end.

(** *** The update pass *)

(** The exceptions the update pass can end with: a read through [null] or
    [undefined], and [drawImage] refusing a broken image. *)
Inductive Exception : Type :=
| TypeError
| InvalidStateError.

(** The name an exception is logged under; the host's message after the
    name is left out. *)
Definition Exception_name (error : Exception) : string :=
  match error with
  | TypeError => "TypeError"
  | InvalidStateError => "InvalidStateError"
  end.

(** How a block of statements ends: normally, or with an exception
    thrown; either way the writes made so far stay. *)
Inductive Completion : Type :=
| Normal (w : World)
| Thrown (error : Exception) (w : World).

Definition and_then (c : Completion) (k : World -> Completion) : Completion :=
  match c with
  | Normal w => k w
  | Thrown error w => Thrown error w
  end.

(** [for (let i = i0; i < l.length; i++) body(i, l[i])] *)
Fixpoint for_each {A : Type} (body : nat -> A -> World -> Completion)
    (i : nat) (l : list A) (w : World) : Completion :=
  match l with
  | [] => Normal w
  | a :: rest => and_then (body i a w) (for_each body (S i) rest)
  end.

Definition emit_all (ops : list CtxOp) (w : World) : World :=
  set_ctx (ctx w ++ ops) w.

(** [ReferenceImage.update]; it throws when [drawImage] is handed a
    broken image. *)
Definition reference_update (w : World) : Completion :=
  let r := reference (this w) in
  if negb (ReferenceImage.ready r) then Normal w
  else
    let deltaX := (Point.x (mousePos w) - Point.x (ReferenceImage.dragPosition r))%R in
    let deltaY := (Point.y (mousePos w) - Point.y (ReferenceImage.dragPosition r))%R in
    let scale :=
      if ReferenceImage.moving r then ReferenceImage.scale r
      else if ReferenceImage.scaling r
        then Math_max (ReferenceImage.scale r - deltaY * 0.01) 0.1
        else ReferenceImage.scale r in
    let x :=
      if ReferenceImage.moving r
      then (Point.x (ReferenceImage.offset r) + deltaX)%R
      else Point.x (ReferenceImage.offset r) in
    let y :=
      if ReferenceImage.moving r
      then (Point.y (ReferenceImage.offset r) + deltaY)%R
      else Point.y (ReferenceImage.offset r) in
    let scaledWidth := (width (ReferenceImage.image r) * scale)%R in
    let scaledHeight := (height (ReferenceImage.image r) * scale)%R in
    (* set opacity *)
    let w := emit (set_globalAlpha (ReferenceImage.opacity r)) w in
    (* draw the reference image *)
    if broken (ReferenceImage.image r) then Thrown InvalidStateError w
    else
    let w :=
      emit_all
        [drawImage (ReferenceImage.image r) x y scaledWidth scaledHeight;
         set_globalAlpha 1] w in
    if ToolTypes_eqb (activeTool w) TRANSFORM_REFERENCE then
      Normal
        (emit_all
           [set_strokeStyle (ReferenceImage.color r);
            set_lineWidth 4;
            strokeRect (x + 2) (y + 2) (scaledWidth - 4) (scaledHeight - 4);
            set_fillStyle (ReferenceImage.color r);
            fillRect x y markerSize markerSize;
            fillRect (x + scaledWidth - markerSize) (y + scaledHeight - markerSize)
                     markerSize markerSize] w)
    else Normal w.

(** [getEditControlPoints]; [None] when it reads [this.dragStart] while that
    is [null]. *)
Definition getEditControlPoints (w : World) (control : Control.t) (index : nat)
    : option ControlData :=
  let point1 := Control.point1 control in
  let point2 := Control.point2 control in
  match dragControl (drag (this w)) with
  | Some (controlIndex, pointIndex) =>
      if (controlIndex =? index)%nat then
        match dragStart (drag (this w)) with
        | Some start =>
            let deltaX := (Point.x (mousePos w) - Point.x start)%R in
            let deltaY := (Point.y (mousePos w) - Point.y start)%R in
            if (pointIndex =? 0)%nat then
              Some (mkControlData (Point.x point1 + deltaX) (Point.y point1 + deltaY)
                                  (Point.x point2) (Point.y point2))
            else
              Some (mkControlData (Point.x point1) (Point.y point1)
                                  (Point.x point2 + deltaX) (Point.y point2 + deltaY))
        | None => None
        end
      else
        Some (mkControlData (Point.x point1) (Point.y point1)
                            (Point.x point2) (Point.y point2))
  | None =>
      Some (mkControlData (Point.x point1) (Point.y point1)
                          (Point.x point2) (Point.y point2))
  end.

(** Where the update pass puts point [j] of the active group: its stored
    position, with the drag delta added while it is the point being dragged
    with the EDIT_POINTS tool.  [None] when [this.dragStart] is [null]. *)
Definition point_position (w : World) (j : nat) (p : Point.t) : option (R * R) :=
  if ToolTypes_eqb (activeTool w) EDIT_POINTS then
    match dragPoint (drag (this w)) with
    | Some k =>
        if (k =? j)%nat then
          match dragStart (drag (this w)) with
          | Some start =>
              let deltaX := (Point.x (mousePos w) - Point.x start)%R in
              let deltaY := (Point.y (mousePos w) - Point.y start)%R in
              Some ((Point.x p + deltaX)%R, (Point.y p + deltaY)%R)
          | None => None
          end
        else Some (Point.x p, Point.y p)
    | None => Some (Point.x p, Point.y p)
    end
  else Some (Point.x p, Point.y p).

(** The curve to point [(x, y)] through the stored control [j - 1]. *)
Definition curve_normally (controls : list Control.t) (j : nat) (x y : R)
    (w : World) : Completion :=
  match controls !! (j - 1) with
  | Some c =>
      Normal (emit (bezierCurveTo
                      (Point.x (Control.point1 c)) (Point.y (Control.point1 c))
                      (Point.x (Control.point2 c)) (Point.y (Control.point2 c))
                      x y) w)
  | None => Thrown TypeError w
  end.

(** The body of the loop over the points of a group. *)
Definition draw_point (active : bool) (controls : list Control.t)
    (j : nat) (p : Point.t) (w : World) : Completion :=
  let s := display (this w) in
  if active then
    let w := emit (set_globalAlpha (activeOpacity s)) w in
    match point_position w j p with
    | Some (x, y) =>
        let w :=
          if ToolTypes_eqb (activeTool w) ADD_POINTS
             || ToolTypes_eqb (activeTool w) EDIT_POINTS
          then emit (fillRect (x - pointSizeHalf s) (y - pointSizeHalf s)
                              (pointSize s) (pointSize s)) w
          else w in
        if (j =? 0)%nat then Normal (emit (moveTo x y) w)
        else if ToolTypes_eqb (activeTool w) EDIT_CONTROLS then
          match controls !! (j - 1) with
          | Some c =>
              match getEditControlPoints w c (j - 1) with
              | Some cp =>
                  Normal (emit (bezierCurveTo (x1 cp) (y1 cp) (x2 cp) (y2 cp) x y) w)
              | None => Thrown TypeError w
              end
          | None => Thrown TypeError w
          end
        else curve_normally controls j x y w
    | None => Thrown TypeError w
    end
  else
    let w := emit (set_globalAlpha (inactiveOpacity s)) w in
    if (j =? 0)%nat then Normal (emit (moveTo (Point.x p) (Point.y p)) w)
    else curve_normally controls j (Point.x p) (Point.y p) w.

(** The body of the loop over the controls of the active group. *)
Definition draw_control (j : nat) (c : Control.t) (w : World) : Completion :=
  let s := display (this w) in
  match getEditControlPoints w c j with
  | Some cp =>
      Normal
        (emit_all
           [strokeRect (x1 cp - pointSizeHalf s) (y1 cp - pointSizeHalf s)
                       (pointSize s) (pointSize s);
            strokeRect (x2 cp - pointSizeHalf s) (y2 cp - pointSizeHalf s)
                       (pointSize s) (pointSize s);
            beginPath;
            moveTo (x1 cp) (y1 cp);
            lineTo (x2 cp) (y2 cp);
            stroke] w)
  | None => Thrown TypeError w
  end.

(** The body of the loop over the curve groups. *)
Definition draw_group (i : nat) (group : CurveGroup.t) (w : World) : Completion :=
  let s := display (this w) in
  let points := CurveGroup.points group in
  let controls := CurveGroup.controls group in
  let active := active_has_id w (CurveGroup.id group) in
  if (length points =? 0)%nat then Normal w
  else
    let w :=
      emit_all
        [set_lineWidth (lineWidth s);
         set_strokeStyle "none";
         set_fillStyle (mainColor s);
         set_strokeStyle (mainColor s);
         beginPath] w in
    and_then (for_each (draw_point active controls) 0 points w) (fun w =>
    let w := emit stroke w in
    if active && ToolTypes_eqb (activeTool w) EDIT_CONTROLS then
      let w :=
        emit_all [set_fillStyle (controlColor s); set_strokeStyle (controlColor s)] w in
      for_each draw_control 0 controls w
    else Normal w).

(** Where the update pass puts the origin cross; [None] when
    [this.dragStart] is [null] during an origin drag. *)
Definition origin_position (w : World) : option (R * R) :=
  let o := originPos (this w) in
  if dragOrigin (drag (this w)) then
    match dragStart (drag (this w)) with
    | Some start =>
        let deltaX := (Point.x (mousePos w) - Point.x start)%R in
        let deltaY := (Point.y (mousePos w) - Point.y start)%R in
        Some ((Point.x o + deltaX)%R, (Point.y o + deltaY)%R)
    | None => None
    end
  else Some (Point.x o, Point.y o).

Definition draw_origin (w : World) : Completion :=
  if ToolTypes_eqb (activeTool w) EDIT_ORIGIN_POINT then
    let w :=
      emit_all
        [set_lineWidth 2;
         set_strokeStyle (originColor (display (this w)));
         set_fillStyle "none"] w in
    match origin_position w with
    | Some (x, y) =>
        Normal
          (emit_all
             [beginPath;
              moveTo x (y - originSizeHalf);
              lineTo x (y + originSizeHalf);
              moveTo (x - originSizeHalf) y;
              lineTo (x + originSizeHalf) y;
              stroke] w)
    | None => Thrown TypeError w
    end
  else Normal w.

(** The [try] block of [update]. *)
Definition update_body (w : World) : Completion :=
  let w := emit (clearRect 0 0 canvasWidth canvasHeight) w in
  (* update reference *)
  and_then (reference_update w) (fun w =>
  (* draw curve groups *)
  and_then (for_each draw_group 0 (groups w) w) (fun w =>
  (* reset opacity *)
  let w := emit (set_globalAlpha 1) w in
  (* draw the origin point *)
  draw_origin w)).

Definition update (w : World) : World :=
  match update_body w with
  | Normal w' => w'
  | Thrown error w' =>
      console_log ("MainLoop update failed; with error: " +:+ Exception_name error)
        (set_mainLoopRunning false w')
  end.

(** *** The SVG exporter *)

Definition quote : string := String "034"%char EmptyString.
Definition tab : string := String "009"%char EmptyString.
Definition newline : string := String "010"%char EmptyString.

(** [x.toFixed(digits)] of the host: [toFixed] formats for the digit counts
    from 0 to 100; above 100 the call throws a [RangeError], which is
    [None]. *)
Definition Number_toFixed (toFixed : R -> nat -> string) (x : R) (digits : nat)
    : option string :=
  if (digits <=? 100)%nat then Some (toFixed x digits) else None.

Section Exporter.

(** The host's decimal formatting of a number, for the digit counts it
    accepts. *)
Variable toFixed : R -> nat -> string.

(** [getSVGCoords]; [None] when [toFixed] throws. *)
Definition getSVGCoords (p : Point.t) (precision : nat) : option string :=
  y ← Number_toFixed toFixed (Point.y p) precision;
  x ← Number_toFixed toFixed (Point.x p) precision;
  Some (y +:+ " " +:+ x).

(** The [for] loop of [getSVGString] from index [i] on, [rest] being the
    points from [i]: the commands pushed, or [None] when the loop throws:
    [controls[i - 1]] is [undefined] and the read of its [points] throws,
    or [toFixed] throws. *)
Fixpoint curve_commands (controls : list Control.t) (precision : nat)
    (i : nat) (rest : list Point.t) : option (list string) :=
  match rest with
  | [] => Some []
  | p :: rest' =>
      c ← controls !! (i - 1);
      c1 ← getSVGCoords (Control.point1 c) precision;
      c2 ← getSVGCoords (Control.point2 c) precision;
      c3 ← getSVGCoords p precision;
      cmds ← curve_commands controls precision (S i) rest';
      Some (("C" +:+ c1 +:+ ", " +:+ c2 +:+ ", " +:+ c3) :: cmds)
  end.

(** The [map] callback of [getSVGString]: the path element of one group;
    [None] when it throws. *)
Definition path_element (precision : nat) (group : CurveGroup.t) : option string :=
  match CurveGroup.points group with
  | [] => None
  | p0 :: rest =>
      m ← getSVGCoords p0 precision;
      cmds ← curve_commands (CurveGroup.controls group) precision 1 rest;
      Some (tab +:+ "<path d=" +:+ quote
            +:+ String.concat " " (("M" +:+ m) :: cmds)
            +:+ quote +:+ " />")
  end.

Definition svg_open (stroke : string) : string :=
  "<svg xmlns=" +:+ quote +:+ "http://www.w3.org/2000/svg" +:+ quote
  +:+ " viewBox=" +:+ quote +:+ "0 0 1024 768" +:+ quote
  +:+ " fill=" +:+ quote +:+ "none" +:+ quote
  +:+ " stroke=" +:+ quote +:+ stroke +:+ quote +:+ ">".

(** [getSVGString]; [None] when it throws. *)
Definition getSVGString (w : World) : option string :=
  let s := display (this w) in
  match
    mapM (path_element (outputPrecision s))
         (List.filter (fun group => (1 <? length (CurveGroup.points group))%nat)
                      (groups w))
  with
  | Some paths =>
      Some (String.concat newline
              [svg_open (mainColor s); String.concat newline paths; "</svg>"])
  | None => None
  end.

(** *** The path data the specification describes *)

(** A coordinate pair, height first. *)
Definition pair_yx (precision : nat) (p : Point.t) : string :=
  toFixed (Point.y p) precision +:+ " " +:+ toFixed (Point.x p) precision.

(** One cubic-Bezier-to command: the two endpoints of the segment's control
    handle, then the point the segment ends at. *)
Definition bezier_to (precision : nat) (c : Control.t) (p : Point.t) : string :=
  "C" +:+ pair_yx precision (Control.point1 c) +:+ ", "
  +:+ pair_yx precision (Control.point2 c) +:+ ", " +:+ pair_yx precision p.

(** The [d] attribute for a first point and the points after it: an absolute
    move to the first point, then one command per later point, each with the
    control handle of its segment. *)
Definition path_data (precision : nat) (first : Point.t) (later : list Point.t)
    (controls : list Control.t) : string :=
  String.concat " "
    (("M" +:+ pair_yx precision first)
       :: zip_with (bezier_to precision) controls later).

(** The path elements of the document: one per group with more than one
    point, in the order of the collection. *)
Fixpoint path_elements (precision : nat) (gs : list CurveGroup.t) : list string :=
  match gs with
  | [] => []
  | g :: rest =>
      match CurveGroup.points g with
      | first :: (_ :: _) as later =>
          (tab +:+ "<path d=" +:+ quote
           +:+ path_data precision first later (CurveGroup.controls g)
           +:+ quote +:+ " />") :: path_elements precision rest
      | _ => path_elements precision rest
      end
  end.

End Exporter.

(** *** The JSON exporter *)

(** The values [getJSONString] hands to [JSON.stringify]: strings, arrays
    and objects with their members in order. *)
#[warnings="-register-all"]
Inductive JSON : Type :=
| JString (s : string)
| JArray (items : list JSON)
| JObject (members : list (string * JSON)).

Definition getPointDistance (point1 point2 : Point.t) : R :=
  let a := (Point.x point1 - Point.x point2)%R in
  let b := (Point.y point1 - Point.y point2)%R in
  sqrt (a * a + b * b).

(** The angle and the distance of [point] seen from [originPos], as the
    angle-distance format computes them before formatting. *)
Definition angle_distance (point originPos : Point.t) : R * R :=
  (Math_atan2 (Point.y point - Point.y originPos)
              (Point.x point - Point.x originPos),
   getPointDistance point originPos).

Section JSONExporter.

(** The host's decimal formatting for the digit counts it accepts, and
    [JSON.stringify(value, undefined, 2)]. *)
Variable toFixed : R -> nat -> string.
Variable JSON_stringify : JSON -> string.

(** [getJSONCoords]; [None] when [toFixed] throws. *)
Definition getJSONCoords (p originPos : Point.t) (precision : nat)
    : option (string * string) :=
  x ← Number_toFixed toFixed (Point.x p - Point.x originPos) precision;
  y ← Number_toFixed toFixed (Point.y p - Point.y originPos) precision;
  Some (x, y).

(** The array the coordinate format serializes; [None] when building it
    throws. *)
Definition coords_value (w : World) : option JSON :=
  let originPos := originPos (this w) in
  let precision := outputPrecision (display (this w)) in
  JArray <$>
    mapM (fun group =>
       points ←
         mapM (fun point =>
            '(x, y) ← getJSONCoords point originPos precision;
            Some (JObject [("x", JString x); ("y", JString y)]))
           (CurveGroup.points group);
       controls ←
         mapM (fun control =>
            '(x1, y1) ← getJSONCoords (Control.point1 control) originPos precision;
            '(x2, y2) ← getJSONCoords (Control.point2 control) originPos precision;
            Some (JObject [("x1", JString x1); ("y1", JString y1);
                           ("x2", JString x2); ("y2", JString y2)]))
           (CurveGroup.controls group);
       Some (JObject [("points", JArray points); ("controls", JArray controls)]))
      (groups w).

(** The array the angle-distance format serializes; [None] when building
    it throws. *)
Definition angledist_value (w : World) : option JSON :=
  let originPos := originPos (this w) in
  let precision := outputPrecision (display (this w)) in
  JArray <$>
    mapM (fun group =>
       points ←
         mapM (fun point =>
            let (angle, distance) := angle_distance point originPos in
            a ← Number_toFixed toFixed angle precision;
            d ← Number_toFixed toFixed distance precision;
            Some (JArray [JString a; JString d]))
           (CurveGroup.points group);
       controls ←
         mapM (fun control =>
            let (angle1, distance1) :=
              angle_distance (Control.point1 control) originPos in
            let (angle2, distance2) :=
              angle_distance (Control.point2 control) originPos in
            a1 ← Number_toFixed toFixed angle1 precision;
            d1 ← Number_toFixed toFixed distance1 precision;
            a2 ← Number_toFixed toFixed angle2 precision;
            d2 ← Number_toFixed toFixed distance2 precision;
            Some (JArray [JString a1; JString d1; JString a2; JString d2]))
           (CurveGroup.controls group);
       Some (JObject [("points", JArray points); ("controls", JArray controls)]))
      (groups w).

(** [getJSONString]: [None] when it throws, [Some None] when it returns
    [undefined], which it does for a format that is neither of the two, and
    [Some (Some s)] when it returns the string [s]. *)
Definition getJSONString (jsonFormat : string) (w : World)
    : option (option string) :=
  if String.eqb jsonFormat "coords" then
    value ← coords_value w; Some (Some (JSON_stringify value))
  else if String.eqb jsonFormat "angledist" then
    value ← angledist_value w; Some (Some (JSON_stringify value))
  else Some None.

End JSONExporter.

(** Every segment of the group has its control handle. *)
Definition has_controls (g : CurveGroup.t) : Prop :=
  length (CurveGroup.points g) - 1 <= length (CurveGroup.controls g).

(** The group has one control fewer than points, or neither. *)
Definition counts_match (g : CurveGroup.t) : Prop :=
  length (CurveGroup.controls g) = length (CurveGroup.points g) - 1.

(** Every group instance of the store has matching counts. *)
Definition counts_ok (w : World) : Prop := Forall counts_match (heap w).

(** ** Vocabulary of the properties *)

(** The commands that change the points of the active group. *)
Inductive Command : Type :=
| PointerDownAt (p : Point.t)
| DeleteLast.

Definition run_command (w : World) (c : Command) : World :=
  match c with
  | PointerDownAt p => handleMouseDown (set_mousePos p w)
  | DeleteLast => deleteLastPoint w
  end.

Definition run_commands (cs : list Command) (w : World) : World :=
  fold_left run_command cs w.

(** What happens between a pointer-down and the pointer-up that would end
    the drag: update passes and pointer moves. *)
Inductive FrameEvent : Type :=
| Tick
| PointerMove (rect : Point.t) (event : MouseEvent).

Definition run_frame_event (w : World) (e : FrameEvent) : World :=
  match e with
  | Tick => update w
  | PointerMove rect event => handleMouseMove rect event w
  end.

Definition run_frame_events (es : list FrameEvent) (w : World) : World :=
  fold_left run_frame_event es w.

(** The committed coordinates: every group's points and controls, and the
    origin point. *)
Definition committed (w : World) : list CurveGroup.t * Point.t :=
  (heap w, originPos (this w)).

(** The world a block of statements ends in. *)
Definition world_of (c : Completion) : World :=
  match c with
  | Normal w => w
  | Thrown _ w => w
  end.

(** Two worlds that differ at most in what the host sees: the drawing
    context, the main loop, the messages, the console and the storage. *)
Definition same_state (a b : World) : Prop :=
  heap a = heap b /\ this a = this b /\ activeTool a = activeTool b
  /\ mousePos a = mousePos b.

(** A stored position plus the live delta of a drag anchored at [anchor]. *)
Definition preview (p anchor mouse : Point.t) : R * R :=
  ((Point.x p + (Point.x mouse - Point.x anchor))%R,
   (Point.y p + (Point.y mouse - Point.y anchor))%R).

(** The pointer lies strictly inside the canvas. *)
Definition strictly_inside_canvas (p : Point.t) : Prop :=
  (0 < Point.x p < canvasWidth /\ 0 < Point.y p < canvasHeight)%R.

(** The pointer lies on the canvas, its border included. *)
Definition on_canvas (p : Point.t) : Prop :=
  (0 <= Point.x p <= canvasWidth /\ 0 <= Point.y p <= canvasHeight)%R.

(** The active-group reference is none or names a group of the collection. *)
Definition active_in_collection (w : World) : Prop :=
  match activeCurveGroup (this w) with
  | Some l => In l (curveGroups (this w))
  | None => True
  end.

(** The scan the specification describes for EDIT_CONTROLS: controls in
    index order from [i], the two endpoints of each in order; the first
    endpoint whose box contains the pointer. *)
Fixpoint first_endpoint_in_range (i : nat) (controls : list Control.t)
    (mouseX mouseY half : R) : option (nat * nat) :=
  match controls with
  | [] => None
  | c :: rest =>
      if in_pick_range mouseX mouseY (Control.point1 c) half then Some (i, 0)
      else if in_pick_range mouseX mouseY (Control.point2 c) half then Some (i, 1)
      else first_endpoint_in_range (S i) rest mouseX mouseY half
  end.

(** The point at fraction [t] of the way from [a] to [b]. *)
Definition along (a b : Point.t) (t : R) : Point.t :=
  Point.new (Point.x a + t * (Point.x b - Point.x a))
            (Point.y a + t * (Point.y b - Point.y a)).

(** A payload of [n] bytes. *)
Definition payload_of_size (n : N) : string :=
  N.iter n (String "A"%char) EmptyString.

(** *** Sample worlds *)

(** A helper whose collection is the groups at locations [0 .. n-1], the
    one at [0] being active. *)
Definition helper_with (n : nat) : DrawingHelper :=
  mkDrawingHelper (seq 0 n) (Some 0) (Point.new 0 0) initialDisplay initialDrag
                  ReferenceImage.new.

(** A world holding the groups [gs], the first one active, with the given
    tool and pointer position. *)
Definition world_with (gs : list CurveGroup.t) (tool : ToolTypes)
    (mouse : Point.t) : World :=
  mkWorld gs (helper_with (length gs)) tool mouse [] true [] [] None false.

(** A saved state that carries the curve groups [gs] and nothing else. *)
Definition groups_only (gs : list GroupData) : State :=
  mkState None None (Some gs) None None None None None None None None None
          None None None.

(** A group of three points whose two controls start close to each other. *)
Definition close_handles : CurveGroup.t :=
  CurveGroup.make
    [Point.new 0 0; Point.new 50 50; Point.new 300 300]
    [Control.new 0 0 100 100; Control.new 2 2 200 200]
    "a".

(** A group whose first two points lie close to each other. *)
Definition close_points : CurveGroup.t :=
  CurveGroup.make
    [Point.new 0 0; Point.new 2 2; Point.new 300 300]
    [Control.new 0 0 1 1; Control.new 60 60 240 240]
    "a".

(** One segment whose points and control endpoints have their x below 5
    and their y above. *)
Definition tall_segment : CurveGroup.t :=
  CurveGroup.make
    [Point.new 0 10; Point.new 1 20]
    [Control.new 2 30 3 40]
    "c".

(** A formatter that tells small numbers from large ones. *)
Definition lo_hi (x : R) (digits : nat) : string :=
  if js_lt x 5 then "lo" else "hi".

(** *** Vocabulary of the further properties *)

(** The pointer lies in the open box of half-size [half] around [p]. *)
Definition in_box (mouse p : Point.t) (half : R) : Prop :=
  (Point.x p - half < Point.x mouse < Point.x p + half
   /\ Point.y p - half < Point.y mouse < Point.y p + half)%R.

(** The drag variables name no drag. *)
Definition no_drag (d : Drag) : Prop :=
  dragPoint d = None /\ dragControl d = None /\ dragOrigin d = false.

(** A drag variable is set only together with the anchor. *)
Definition drag_anchored (d : Drag) : Prop :=
  no_drag d \/ is_Some (dragStart d).

(** [drawImage] accepts the image whenever the update pass hands it over:
    an image that is ready is not broken. *)
Definition reference_drawable (r : ReferenceImage.t) : Prop :=
  ReferenceImage.ready r = true -> broken (ReferenceImage.image r) = false.

(** Every location of the collection names an entry of the store. *)
Definition collection_in_store (w : World) : Prop :=
  Forall (fun l => l < length (heap w)) (curveGroups (this w)).

(** The operations of the helper: its methods, the listeners it installs
    and the image's load callback. *)
Inductive Operation : Type :=
| Op_createGroup (id : string)
| Op_deleteGroup (id : string)
| Op_setActiveGroupId (id : string)
| Op_setActiveTool (tool : ToolTypes)
| Op_setProperty (p : Property)
| Op_setPointRange (value : R)
| Op_setPointSize (value : R)
| Op_setReferenceData (data : string)
| Op_deleteReferenceData
| Op_resetReferenceTransforms
| Op_setReferenceOpacity (value : R)
| Op_setReferenceColor (value : string)
| Op_imageLoaded (width height : R)
| Op_imageFailed
| Op_mouseMove (rect : Point.t) (event : MouseEvent)
| Op_mouseDown
| Op_mouseUp
| Op_deleteLastPoint
| Op_syncLastPoint
| Op_update
| Op_saveState (now : Z)
| Op_loadStored
| Op_reload.

(** One operation; a handler that throws leaves the world as it was. *)
Definition perform (w : World) (op : Operation) : World :=
  match op with
  | Op_createGroup id => createGroup id w
  | Op_deleteGroup id => deleteGroup id w
  | Op_setActiveGroupId id => setActiveGroupId id w
  | Op_setActiveTool tool => setActiveTool tool w
  | Op_setProperty p => setProperty p w
  | Op_setPointRange value => setPointRange value w
  | Op_setPointSize value => setPointSize value w
  | Op_setReferenceData data => setReferenceData data w
  | Op_deleteReferenceData => deleteReferenceData w
  | Op_resetReferenceTransforms => resetReferenceTransforms w
  | Op_setReferenceOpacity value => setReferenceOpacity value w
  | Op_setReferenceColor value => setReferenceColor value w
  | Op_imageLoaded width height =>
      upd_reference (ReferenceImage.onload width height) w
  | Op_imageFailed => upd_reference ReferenceImage.onerror w
  | Op_mouseMove rect event => handleMouseMove rect event w
  | Op_mouseDown => handleMouseDown w
  | Op_mouseUp =>
      match handleMouseUp w with
      | Some w' => w'
      | None => w
      end
  | Op_deleteLastPoint => deleteLastPoint w
  | Op_syncLastPoint => syncLastPoint w
  | Op_update => update w
  | Op_saveState now => snd (saveState now w)
  | Op_loadStored =>
      match localStorage w with
      | Some state => loadState state w
      | None => w
      end
  | Op_reload => reload w
  end.

Definition perform_all (ops : list Operation) (w : World) : World :=
  fold_left perform ops w.


(** ** Properties *)

(** *** Comparisons *)

Lemma js_lt_true (a b : R) : (a < b)%R -> js_lt a b = true.
Proof. intros H. unfold js_lt. destruct (Rlt_dec a b); [reflexivity | contradiction]. Qed.

Lemma js_lt_false (a b : R) : (b <= a)%R -> js_lt a b = false.
Proof. intros H. unfold js_lt. destruct (Rlt_dec a b); [lra | reflexivity]. Qed.

Lemma js_lt_iff (a b : R) : js_lt a b = true <-> (a < b)%R.
Proof.
  unfold js_lt. destruct (Rlt_dec a b); split; intros; try easy.
Qed.

Lemma js_lt_iff_false (a b : R) : js_lt a b = false <-> (b <= a)%R.
Proof.
  unfold js_lt. destruct (Rlt_dec a b); split; intros; try easy; lra.
Qed.

(** Decides the comparisons of concrete numbers in the goal. *)
Ltac js_compare :=
  unfold js_gt;
  repeat match goal with
    | |- context [js_lt ?a ?b] =>
        first [ rewrite (js_lt_true a b) by lra
              | rewrite (js_lt_false a b) by lra ]
    end.

(** *** The object store *)

Lemma store_lookup (l : loc) (g g0 : CurveGroup.t) (w : World) :
  heap w !! l = Some g0 -> heap (store l g w) !! l = Some g.
Proof.
  intros H. unfold store. simpl.
  apply list_lookup_insert_eq. eapply lookup_lt_Some. exact H.
Qed.

Lemma active_group_Some (w : World) (l : loc) (g : CurveGroup.t) :
  activeCurveGroup (this w) = Some l -> heap w !! l = Some g ->
  active_group w = Some (l, g).
Proof. intros Ha Hg. unfold active_group. rewrite Ha, Hg. reflexivity. Qed.

Lemma active_group_inv (w : World) (l : loc) (g : CurveGroup.t) :
  active_group w = Some (l, g) ->
  activeCurveGroup (this w) = Some l /\ heap w !! l = Some g.
Proof.
  unfold active_group. destruct (activeCurveGroup (this w)) as [l'|]; [|discriminate].
  destruct (heap w !! l') as [g'|] eqn:E; [|discriminate].
  intros [= <- <-]. auto.
Qed.

(** *** Group creation *)

(** C10: [createGroup id] puts a new group with that id and no points or
    controls at the end of the collection, leaves the existing groups as
    they are, and makes the new group the active one whatever the active
    group was. *)
Theorem createGroup_appends_and_activates (id : string) (w : World) :
  let l := length (heap w) in
  let w' := createGroup id w in
  heap w' = heap w ++ [CurveGroup.new id]
  /\ heap w' !! l = Some (CurveGroup.make [] [] id)
  /\ curveGroups (this w') = curveGroups (this w) ++ [l]
  /\ activeCurveGroup (this w') = Some l.
Proof.
  simpl. repeat split.
  apply list_lookup_middle. reflexivity.
Qed.

(** *** Adding and deleting points *)

Lemma new_control_first (p : Point.t) : new_control [p] = None.
Proof. reflexivity. Qed.

Lemma new_control_last_two (pre : list Point.t) (point1 point2 : Point.t) :
  new_control (pre ++ [point1; point2]) =
  Some (let angle :=
          Math_atan2 (Point.y point2 - Point.y point1)
                     (Point.x point2 - Point.x point1) in
        let distance := Point.distanceTo point1 point2 in
        Control.new (Point.x point1 + cos angle * distance * 0.2)
                    (Point.y point1 + sin angle * distance * 0.2)
                    (Point.x point1 + cos angle * distance * 0.8)
                    (Point.y point1 + sin angle * distance * 0.8)).
Proof.
  unfold new_control. rewrite length_app. simpl length.
  replace (length pre + 2 - 2) with (length pre) by lia.
  rewrite drop_app_length.
  destruct (Nat.ltb_spec 1 (length pre + 2)) as [_|H]; [reflexivity | lia].
Qed.

(** The world after a pointer-down with the ADD_POINTS tool, a group being
    active. *)
Lemma handleMouseDown_ADD_POINTS (w : World) (l : loc) (g : CurveGroup.t) :
  activeTool w = ADD_POINTS -> active_group w = Some (l, g) ->
  handleMouseDown w =
  if js_lt (Point.x (mousePos w)) 0 || js_gt (Point.x (mousePos w)) canvasWidth
     || js_lt (Point.y (mousePos w)) 0 || js_gt (Point.y (mousePos w)) canvasHeight
  then w
  else
    let points' := CurveGroup.points g ++ [mousePos w] in
    call_reference_onMouseDown
      (store l (CurveGroup.make points'
                  (match new_control points' with
                   | Some c => CurveGroup.controls g ++ [c]
                   | None => CurveGroup.controls g
                   end)
                  (CurveGroup.id g)) w).
Proof.
  intros Ht Ha. unfold handleMouseDown. rewrite Ht, Ha.
  destruct (_ || _); [reflexivity|].
  destruct (mousePos w) as [mx my]. simpl.
  destruct (new_control _); reflexivity.
Qed.

(** The canvas test of the ADD_POINTS case rejects exactly the positions
    off the canvas; the border is accepted. *)
Lemma canvas_guard_false (p : Point.t) :
  on_canvas p <->
  js_lt (Point.x p) 0 || js_gt (Point.x p) canvasWidth
  || js_lt (Point.y p) 0 || js_gt (Point.y p) canvasHeight = false.
Proof.
  unfold on_canvas, js_gt.
  rewrite !orb_false_iff, !js_lt_iff_false. tauto.
Qed.

Lemma length_removelast {A : Type} (l : list A) :
  length (removelast l) = length l - 1.
Proof.
  destruct l as [|a l] using rev_ind; [reflexivity|].
  rewrite removelast_last, length_app. simpl. lia.
Qed.

(** One command keeps the tool, the active group, and the count of controls
    one below the count of points. *)
Lemma run_command_keeps_counts (l : loc) (w : World) (c : Command) :
  activeTool w = ADD_POINTS ->
  activeCurveGroup (this w) = Some l ->
  (exists g, heap w !! l = Some g
             /\ length (CurveGroup.controls g) = length (CurveGroup.points g) - 1) ->
  activeTool (run_command w c) = ADD_POINTS
  /\ activeCurveGroup (this (run_command w c)) = Some l
  /\ exists g, heap (run_command w c) !! l = Some g
               /\ length (CurveGroup.controls g) = length (CurveGroup.points g) - 1.
Proof.
  intros Ht Ha (g & Hg & Hlen). destruct c as [p|]; simpl.
  - rewrite (handleMouseDown_ADD_POINTS (set_mousePos p w) l g Ht
               (active_group_Some _ l g Ha Hg)).
    destruct (_ || _).
    + simpl. eauto.
    + cbv zeta. repeat split; [exact Ht | exact Ha |].
      eexists. split.
      * apply (store_lookup l _ g). exact Hg.
      * simpl. destruct (CurveGroup.points g) as [|q qs] using rev_ind.
        -- simpl. simpl in Hlen. exact Hlen.
        -- rewrite <- app_assoc. simpl app.
           rewrite new_control_last_two.
           rewrite !length_app in *. simpl in *. lia.
  - unfold deleteLastPoint. rewrite (active_group_Some w l g Ha Hg).
    destruct (Nat.ltb_spec 0 (length (CurveGroup.points g))).
    + repeat split; [exact Ht | exact Ha |].
      eexists. split.
      * apply (store_lookup l _ g). exact Hg.
      * simpl. rewrite !length_removelast. lia.
    + eauto.
Qed.

Lemma run_commands_keep_counts (l : loc) (cs : list Command) : forall w : World,
  activeTool w = ADD_POINTS ->
  activeCurveGroup (this w) = Some l ->
  (exists g, heap w !! l = Some g
             /\ length (CurveGroup.controls g) = length (CurveGroup.points g) - 1) ->
  exists g, heap (run_commands cs w) !! l = Some g
            /\ length (CurveGroup.controls g) = length (CurveGroup.points g) - 1.
Proof.
  induction cs as [|c cs IH]; intros w Ht Ha Hg; simpl.
  - exact Hg.
  - destruct (run_command_keeps_counts l w c Ht Ha Hg) as (Ht' & Ha' & Hg').
    apply IH; assumption.
Qed.

(** C1: starting from a freshly created group, which is then the active
    one, after any finite sequence of ADD_POINTS pointer-downs (wherever
    the pointer is) and delete-last-point commands the group has one
    control fewer than it has points when it has points, and no control
    when it has none. *)
Theorem controls_one_fewer_than_points (w : World) (id : string)
    (cs : list Command) :
  let l := length (heap w) in
  let w' := run_commands cs (setActiveTool ADD_POINTS (createGroup id w)) in
  exists g, heap w' !! l = Some g
    /\ (0 < length (CurveGroup.points g) ->
        length (CurveGroup.controls g) = length (CurveGroup.points g) - 1)
    /\ (length (CurveGroup.points g) = 0 -> length (CurveGroup.controls g) = 0).
Proof.
  intros l w'.
  destruct (run_commands_keep_counts l cs
              (setActiveTool ADD_POINTS (createGroup id w))) as (g & Hg & Hlen).
  - reflexivity.
  - reflexivity.
  - exists (CurveGroup.new id). split; [|reflexivity].
    simpl. apply list_lookup_middle. reflexivity.
  - exists g. split; [exact Hg|]. split; intros H; lia.
Qed.

(** *** Angle and distance *)

Section Polar.
Local Open Scope R_scope.

Lemma js_lt_cases (a b : R) :
  (js_lt a b = true /\ a < b) \/ (js_lt a b = false /\ b <= a).
Proof.
  destruct (js_lt a b) eqn:E.
  - left. split; [reflexivity|]. apply js_lt_iff. exact E.
  - right. split; [reflexivity|]. apply js_lt_iff_false. exact E.
Qed.

Lemma hypotenuse_factor_pos (t : R) : 0 < sqrt (1 + t²).
Proof. apply sqrt_lt_R0. unfold Rsqr. nra. Qed.

Lemma hypotenuse (dx dy : R) :
  dx <> 0 -> sqrt (dx * dx + dy * dy) = Rabs dx * sqrt (1 + (dy / dx)²).
Proof.
  intros H.
  replace (dx * dx + dy * dy) with (dx² * (1 + (dy / dx)²)).
  - rewrite sqrt_mult.
    + rewrite sqrt_Rsqr_abs. reflexivity.
    + apply Rle_0_sqr.
    + unfold Rsqr. nra.
  - unfold Rsqr. field. exact H.
Qed.

(** The angle and the distance of a vector give back its first
    coordinate... *)
Lemma polar_x (dx dy : R) :
  cos (Math_atan2 dy dx) * sqrt (dx * dx + dy * dy) = dx.
Proof.
  unfold Math_atan2.
  destruct (js_lt_cases 0 dx) as [[-> Hx]|[-> Hx]].
  - rewrite hypotenuse by lra. rewrite cos_atan, Rabs_right by lra.
    pose proof (hypotenuse_factor_pos (dy / dx)). field. lra.
  - destruct (js_lt_cases dx 0) as [[-> Hx']|[-> Hx']].
    + rewrite hypotenuse by lra. rewrite Rabs_left by lra.
      pose proof (hypotenuse_factor_pos (dy / dx)).
      destruct (js_lt dy 0).
      * rewrite cos_minus, cos_PI, sin_PI, cos_atan. field. lra.
      * rewrite neg_cos, cos_atan. field. lra.
    + assert (dx = 0) as -> by lra.
      destruct (js_lt_cases 0 dy) as [[-> Hy]|[-> Hy]].
      * rewrite cos_PI2. lra.
      * destruct (js_lt_cases dy 0) as [[-> Hy']|[-> Hy']].
        -- rewrite cos_neg, cos_PI2. lra.
        -- assert (dy = 0) as -> by lra.
           replace (0 * 0 + 0 * 0) with 0 by lra. rewrite sqrt_0. lra.
Qed.

(** ... and its second. *)
Lemma polar_y (dx dy : R) :
  sin (Math_atan2 dy dx) * sqrt (dx * dx + dy * dy) = dy.
Proof.
  unfold Math_atan2.
  destruct (js_lt_cases 0 dx) as [[-> Hx]|[-> Hx]].
  - rewrite hypotenuse by lra. rewrite sin_atan, Rabs_right by lra.
    pose proof (hypotenuse_factor_pos (dy / dx)). field. lra.
  - destruct (js_lt_cases dx 0) as [[-> Hx']|[-> Hx']].
    + rewrite hypotenuse by lra. rewrite Rabs_left by lra.
      pose proof (hypotenuse_factor_pos (dy / dx)).
      destruct (js_lt dy 0).
      * rewrite sin_minus, cos_PI, sin_PI, sin_atan. field. lra.
      * rewrite neg_sin, sin_atan. field. lra.
    + assert (dx = 0) as -> by lra.
      replace (0 * 0 + dy * dy) with (dy * dy) by lra.
      destruct (js_lt_cases 0 dy) as [[-> Hy]|[-> Hy]].
      * rewrite sin_PI2, sqrt_square by lra. lra.
      * destruct (js_lt_cases dy 0) as [[-> Hy']|[-> Hy']].
        -- rewrite sin_neg, sin_PI2.
           replace (dy * dy) with ((- dy) * (- dy)) by lra.
           rewrite sqrt_square by lra. lra.
        -- assert (dy = 0) as -> by lra.
           rewrite sin_0. lra.
Qed.

(** The control created between two points has its endpoints at 20% and
    80% of the way from the first to the second. *)
Lemma new_control_along (pre : list Point.t) (point1 point2 : Point.t) :
  new_control (pre ++ [point1; point2]) =
  Some (Control.make (along point1 point2 0.2) (along point1 point2 0.8)).
Proof.
  rewrite new_control_last_two. cbv zeta. unfold Control.new, along.
  unfold Point.distanceTo.
  set (dx := Point.x point2 - Point.x point1).
  set (dy := Point.y point2 - Point.y point1).
  replace ((Point.x point1 - Point.x point2) * (Point.x point1 - Point.x point2)
           + (Point.y point1 - Point.y point2) * (Point.y point1 - Point.y point2))
    with (dx * dx + dy * dy) by (unfold dx, dy; ring).
  pose proof (polar_x dx dy) as Hx. pose proof (polar_y dx dy) as Hy.
  set (c := cos (Math_atan2 dy dx)) in *.
  set (s := sin (Math_atan2 dy dx)) in *.
  set (d := sqrt (dx * dx + dy * dy)) in *.
  do 2 f_equal; f_equal; nra.
Qed.

End Polar.

(** *** Pointer-down with the ADD_POINTS tool *)

(** C6, as stated, fails on the border of the canvas: with a group active
    and the pointer at the corner (0, 0), which is not strictly inside the
    canvas, the pointer-down is not ignored: the point is added. *)
Lemma border_click_adds_point :
  let w := world_with [CurveGroup.new "a"] ADD_POINTS (Point.new 0 0) in
  active_group w = Some (0, CurveGroup.new "a")
  /\ ~ strictly_inside_canvas (mousePos w)
  /\ heap (handleMouseDown w) = [CurveGroup.make [Point.new 0 0] [] "a"]
  /\ handleMouseDown w <> w.
Proof.
  cbv zeta.
  assert (heap (handleMouseDown
                  (world_with [CurveGroup.new "a"] ADD_POINTS (Point.new 0 0)))
          = [CurveGroup.make [Point.new 0 0] [] "a"]) as H.
  { rewrite (handleMouseDown_ADD_POINTS _ 0 (CurveGroup.new "a"))
      by reflexivity.
    simpl. unfold canvasWidth, canvasHeight. js_compare. reflexivity. }
  repeat split.
  - unfold strictly_inside_canvas. simpl. lra.
  - exact H.
  - intros E. rewrite E in H. discriminate H.
Qed.

(** C6, amended: with the ADD_POINTS tool, a pointer-down without an active
    group reports a message and changes nothing else; with an active group
    and the pointer off the canvas (left of 0, right of 1024, above 0 or
    below 768) it changes nothing at all; with an active group and the
    pointer on the canvas, border included, the active group gets exactly
    one new point, at the pointer position and at the end, and no other
    group changes. *)
Theorem ADD_POINTS_pointer_down (w : World) :
  activeTool w = ADD_POINTS ->
  (activeCurveGroup (this w) = None ->
   handleMouseDown w =
   setMessage
     "Cannot add point; Please create or select a curve group before adding points."
     w)
  /\ (forall l g, active_group w = Some (l, g) -> ~ on_canvas (mousePos w) ->
      handleMouseDown w = w)
  /\ (forall l g, active_group w = Some (l, g) -> on_canvas (mousePos w) ->
      exists g',
        heap (handleMouseDown w) = <[l := g']> (heap w)
        /\ CurveGroup.points g' = CurveGroup.points g ++ [mousePos w]
        /\ CurveGroup.id g' = CurveGroup.id g
        /\ curveGroups (this (handleMouseDown w)) = curveGroups (this w)
        /\ activeCurveGroup (this (handleMouseDown w)) = Some l).
Proof.
  intros Ht. repeat split.
  - intros Ha. unfold handleMouseDown, active_group. rewrite Ht, Ha. reflexivity.
  - intros l g Ha Hout.
    rewrite (handleMouseDown_ADD_POINTS w l g Ht Ha).
    destruct (_ || _) eqn:E; [reflexivity|].
    exfalso. apply Hout. apply canvas_guard_false. exact E.
  - intros l g Ha Hin.
    rewrite (handleMouseDown_ADD_POINTS w l g Ht Ha).
    apply canvas_guard_false in Hin. rewrite Hin. cbv zeta.
    eexists. split; [reflexivity|]. simpl.
    apply active_group_inv in Ha. destruct Ha as [Ha _].
    repeat split. exact Ha.
Qed.

(** A click at (10, 20) with an empty group active: the group gets that
    point. *)
Lemma ADD_POINTS_pointer_down_example :
  let w := world_with [CurveGroup.new "a"] ADD_POINTS (Point.new 10 20) in
  exists g',
    heap (handleMouseDown w) = [g']
    /\ CurveGroup.points g' = [Point.new 10 20]
    /\ CurveGroup.id g' = "a"
    /\ activeCurveGroup (this (handleMouseDown w)) = Some 0.
Proof.
  cbv zeta.
  destruct (ADD_POINTS_pointer_down
              (world_with [CurveGroup.new "a"] ADD_POINTS (Point.new 10 20))
              eq_refl) as (_ & _ & H).
  destruct (H 0 (CurveGroup.new "a") eq_refl) as (g' & Hh & Hp & Hi & _ & Ha).
  - unfold on_canvas, canvasWidth, canvasHeight. simpl. lra.
  - exists g'. repeat split; assumption.
Defined.

(** C9: with the ADD_POINTS tool, when the point added is not the first
    of the group, exactly one control is created, and its two endpoints lie
    on the segment from the previous point to the new one, at 20% and at
    80% of the way. *)
Theorem new_point_gets_straight_handle (w : World) (l : loc)
    (g : CurveGroup.t) (prev : Point.t) :
  activeTool w = ADD_POINTS ->
  active_group w = Some (l, g) ->
  on_canvas (mousePos w) ->
  last (CurveGroup.points g) = Some prev ->
  exists g',
    heap (handleMouseDown w) !! l = Some g'
    /\ CurveGroup.points g' = CurveGroup.points g ++ [mousePos w]
    /\ CurveGroup.controls g' =
       CurveGroup.controls g
       ++ [Control.make (along prev (mousePos w) 0.2)
                        (along prev (mousePos w) 0.8)].
Proof.
  intros Ht Ha Hin Hlast.
  rewrite (handleMouseDown_ADD_POINTS w l g Ht Ha).
  apply canvas_guard_false in Hin. rewrite Hin. cbv zeta.
  apply active_group_inv in Ha. destruct Ha as [_ Hg].
  apply last_Some in Hlast. destruct Hlast as [pre Hpre].
  eexists. split.
  - apply (store_lookup l _ g). exact Hg.
  - simpl. split; [reflexivity|].
    rewrite Hpre, <- app_assoc. simpl app.
    rewrite new_control_along. reflexivity.
Qed.

(** The group [(0,0)] and a click at (100, 0): the new control runs from
    (20, 0) to (80, 0). *)
Lemma new_point_gets_straight_handle_example :
  let w := world_with [CurveGroup.make [Point.new 0 0] [] "a"] ADD_POINTS
                      (Point.new 100 0) in
  exists g',
    heap (handleMouseDown w) !! 0 = Some g'
    /\ CurveGroup.points g' = [Point.new 0 0; Point.new 100 0]
    /\ CurveGroup.controls g' = [Control.new 20 0 80 0].
Proof.
  cbv zeta.
  destruct (new_point_gets_straight_handle
              (world_with [CurveGroup.make [Point.new 0 0] [] "a"] ADD_POINTS
                          (Point.new 100 0))
              0 (CurveGroup.make [Point.new 0 0] [] "a") (Point.new 0 0))
    as (g' & Hg & Hp & Hc).
  - reflexivity.
  - reflexivity.
  - unfold on_canvas, canvasWidth, canvasHeight. simpl. lra.
  - reflexivity.
  - exists g'. split; [exact Hg|]. split; [exact Hp|].
    rewrite Hc. simpl. unfold Control.new, along. simpl.
    do 2 f_equal; f_equal; lra.
Defined.

(** *** Pointer-down with the EDIT_CONTROLS tool *)

(** C5 at a pointer position within range of an endpoint of two controls:
    the first endpoint in range, in the order of the scan, is endpoint 0 of
    control 0, and the pointer-down records endpoint 0 of control 1: the
    [break] leaves the loop over the two endpoints, not the loop over the
    controls, so a later control in range overwrites the target. *)
Theorem EDIT_CONTROLS_records_last_control_in_range :
  let w := world_with [close_handles] EDIT_CONTROLS (Point.new 1 1) in
  first_endpoint_in_range 0 (CurveGroup.controls close_handles) 1 1
    (pointRangeHalf (display (this w))) = Some (0, 0)
  /\ dragControl (drag (this (handleMouseDown w))) = Some (1, 0)
  /\ dragStart (drag (this (handleMouseDown w))) = Some (Point.new 1 1).
Proof.
  cbv zeta. split.
  - simpl. unfold in_pick_range. simpl. js_compare. reflexivity.
  - unfold handleMouseDown. simpl. unfold in_pick_range. simpl.
    js_compare. simpl. unfold in_pick_range. simpl. js_compare. simpl. auto.
Qed.

(** The loop of the EDIT_POINTS case, for comparison: with two points in
    range the first one is recorded. *)
Lemma EDIT_POINTS_records_first_point_in_range :
  let w := world_with [close_points] EDIT_POINTS (Point.new 1 1) in
  dragPoint (drag (this (handleMouseDown w))) = Some 0
  /\ dragStart (drag (this (handleMouseDown w))) = Some (Point.new 1 1).
Proof.
  cbv zeta. unfold handleMouseDown. simpl. unfold in_pick_range. simpl.
  js_compare. simpl. auto.
Qed.

(** *** The active-group reference *)

Lemma alloc_all_spec (gs : list CurveGroup.t) : forall w : World,
  alloc_all gs w =
  (seq (length (heap w)) (length gs), set_heap (heap w ++ gs) w).
Proof.
  induction gs as [|g gs IH]; intros w; simpl.
  - rewrite app_nil_r. destruct w; reflexivity.
  - rewrite IH. simpl. rewrite length_app. simpl.
    replace (length (heap w) + 1) with (S (length (heap w))) by lia.
    rewrite <- app_assoc. reflexivity.
Qed.

Lemma setActiveGroupId_active (id : string) (w : World) :
  curveGroups (this (setActiveGroupId id w)) = curveGroups (this w)
  /\ heap (setActiveGroupId id w) = heap w
  /\ ((exists l, activeCurveGroup (this (setActiveGroupId id w)) = Some l
                 /\ In l (curveGroups (this w)) /\ has_id w id l = true)
      \/ (activeCurveGroup (this (setActiveGroupId id w)) = activeCurveGroup (this w)
          /\ forall l, In l (curveGroups (this w)) -> has_id w id l = false)).
Proof.
  unfold setActiveGroupId.
  destruct (List.find (has_id w id) (curveGroups (this w))) as [l|] eqn:E; simpl.
  - apply find_some in E. repeat split. left. exists l. tauto.
  - repeat split. right. split; [reflexivity|].
    intros l Hl. exact (find_none _ _ E l Hl).
Qed.

Lemma setActiveGroupId_in_collection (id : string) (w : World) :
  active_in_collection w -> active_in_collection (setActiveGroupId id w).
Proof.
  intros H. unfold active_in_collection.
  destruct (setActiveGroupId_active id w) as (Hc & _ & [(l & Ha & Hl & _)|[Ha _]]);
    rewrite Ha, Hc; [exact Hl | exact H].
Qed.

Lemma deleteGroup_active (id : string) (w : World) :
  activeCurveGroup (this (deleteGroup id w)) =
  if active_has_id w id then None else activeCurveGroup (this w).
Proof.
  unfold deleteGroup.
  match goal with |- context [active_has_id ?w1 id] =>
    replace (active_has_id w1 id) with (active_has_id w id)
      by (unfold active_has_id; simpl;
          destruct (activeCurveGroup (this w)); reflexivity)
  end.
  destruct (active_has_id w id); reflexivity.
Qed.

Lemma deleteGroup_curveGroups (id : string) (w : World) :
  curveGroups (this (deleteGroup id w)) =
  List.filter (fun l => negb (has_id w id l)) (curveGroups (this w)).
Proof.
  unfold deleteGroup. destruct (active_has_id _ id); reflexivity.
Qed.

Lemma deleteGroup_in_collection (id : string) (w : World) :
  active_in_collection w -> active_in_collection (deleteGroup id w).
Proof.
  unfold active_in_collection.
  rewrite deleteGroup_active, deleteGroup_curveGroups.
  unfold active_has_id.
  destruct (activeCurveGroup (this w)) as [l|]; [|trivial].
  destruct (has_id w id l) eqn:E; [trivial|].
  intros H. apply filter_In. rewrite E. auto.
Qed.

(** A projection of the world that every setter of a loaded field keeps is
    kept by the whole conditional write. *)
Lemma when_defined_keeps {A B : Type} (proj : World -> B) (field : option A)
    (f : A -> World -> World) (w : World) :
  (forall v w', proj (f v w') = proj w') ->
  proj (when_defined field f w) = proj w.
Proof. intros H. destruct field; simpl; [apply H | reflexivity]. Qed.

(** An id carried by a loaded group is found among the new locations. *)
Lemma has_id_loaded (w : World) (gs : list GroupData) (aid : string) :
  In aid (map g_id gs) ->
  exists l, In l (seq (length (heap w)) (length (map groupInstance gs)))
            /\ has_id (set_heap (heap w ++ map groupInstance gs) w) aid l = true.
Proof.
  intros H. apply in_map_iff in H. destruct H as (gd & Hid & Hin).
  apply list_elem_of_In, list_elem_of_lookup in Hin. destruct Hin as [k Hk].
  exists (length (heap w) + k). split.
  - apply in_seq. rewrite length_map. apply lookup_lt_Some in Hk. lia.
  - unfold has_id. simpl.
    rewrite lookup_app_r by lia.
    replace (length (heap w) + k - length (heap w)) with k by lia.
    rewrite list_lookup_fmap, Hk. simpl. rewrite Hid. apply String.eqb_refl.
Qed.

(** The steps of [loadState] for the curve groups and the active group id. *)
Lemma load_groups_in_collection (state : State) (w : World) :
  active_in_collection w ->
  s_curveGroups state = None
  \/ activeCurveGroup (this w) = None
  \/ (exists gs aid, s_curveGroups state = Some gs
                     /\ s_activeGroupId state = Some aid
                     /\ In aid (map g_id gs)) ->
  active_in_collection
    (when_defined (s_activeGroupId state) setActiveGroupId
       (when_defined (s_curveGroups state)
          (fun gs w => let (ls, w1) := alloc_all (map groupInstance gs) w in
                       upd_this (set_curveGroups ls) w1) w)).
Proof.
  intros Hinv Hcase.
  destruct Hcase as [Hg | [Ha | (gs & aid & Hg & Hid & Hin)]].
  - rewrite Hg. simpl.
    destruct (s_activeGroupId state); simpl;
      [apply setActiveGroupId_in_collection|]; exact Hinv.
  - assert (active_in_collection
              (when_defined (s_curveGroups state)
                 (fun gs w => let (ls, w1) := alloc_all (map groupInstance gs) w in
                              upd_this (set_curveGroups ls) w1) w)) as H.
    { destruct (s_curveGroups state) as [gs|]; simpl; [|exact Hinv].
      rewrite alloc_all_spec. unfold active_in_collection. simpl.
      rewrite Ha. trivial. }
    destruct (s_activeGroupId state); simpl;
      [apply setActiveGroupId_in_collection|]; exact H.
  - rewrite Hg, Hid. simpl. rewrite alloc_all_spec.
    destruct (has_id_loaded w gs aid Hin) as (l & Hl & Hhas).
    match goal with |- active_in_collection (setActiveGroupId aid ?w1) =>
      destruct (setActiveGroupId_active aid w1) as (Hc & _ & [(l' & Ha & Hl' & _)|[_ Hnone]])
    end.
    + unfold active_in_collection. rewrite Ha, Hc. exact Hl'.
    + simpl in Hnone. specialize (Hnone l Hl).
      unfold has_id in Hnone, Hhas. simpl in Hnone, Hhas.
      rewrite Hhas in Hnone. discriminate.
Qed.

(** The steps of [loadState] after the one for the active group id leave
    the collection and the active group alone. *)
Lemma loadState_in_collection (state : State) (w : World) :
  active_in_collection w ->
  s_curveGroups state = None
  \/ activeCurveGroup (this w) = None
  \/ (exists gs aid, s_curveGroups state = Some gs
                     /\ s_activeGroupId state = Some aid
                     /\ In aid (map g_id gs)) ->
  active_in_collection (loadState state w).
Proof.
  intros Hinv Hcase.
  set (w1 := when_defined (s_originPos state)
               (fun v => upd_this (set_originPos v)) w).
  assert (active_in_collection w1 /\
          activeCurveGroup (this w1) = activeCurveGroup (this w)) as [Hinv1 Ha1].
  { unfold w1. destruct (s_originPos state); simpl; auto. }
  pose proof (load_groups_in_collection state w1 Hinv1) as H.
  rewrite Ha1 in H. specialize (H Hcase).
  set (proj := fun w : World => (curveGroups (this w), activeCurveGroup (this w))).
  assert (forall a b : World, proj a = proj b ->
            active_in_collection b -> active_in_collection a) as Hproj.
  { unfold proj, active_in_collection. intros a b [= -> ->]. auto. }
  refine (Hproj _ _ _ H).
  unfold loadState. fold w1.
  repeat (rewrite (when_defined_keeps proj) by reflexivity).
  reflexivity.
Qed.

(** A load whose state carries curve groups and no active group id, or an
    active group id that none of its groups has, leaves the active-group
    reference as it was. *)
Lemma loadState_keeps_reference (state : State) (gs : list GroupData) (w : World) :
  s_curveGroups state = Some gs ->
  s_activeGroupId state = None
  \/ (exists aid, s_activeGroupId state = Some aid /\ ~ In aid (map g_id gs)) ->
  activeCurveGroup (this (loadState state w)) = activeCurveGroup (this w).
Proof.
  intros Hgs Hcase. unfold loadState.
  repeat match goal with
    | |- context [activeCurveGroup (this (when_defined ?fld ?f ?x))] =>
        replace (activeCurveGroup (this (when_defined fld f x)))
          with (activeCurveGroup (this x)) by (destruct fld; reflexivity)
    end.
  rewrite Hgs. cbn [when_defined]. rewrite alloc_all_spec.
  match goal with |- context [when_defined (s_originPos state) ?f w] =>
    set (w1 := when_defined (s_originPos state) f w);
      assert (activeCurveGroup (this w1) = activeCurveGroup (this w)) as Ha1
        by (unfold w1; destruct (s_originPos state); reflexivity)
  end.
  clearbody w1.
  destruct Hcase as [Hnone | (aid & Haid & Hnot)].
  - rewrite Hnone. cbn [when_defined]. exact Ha1.
  - rewrite Haid. cbn [when_defined].
    match goal with |- context [setActiveGroupId aid ?w2] =>
      destruct (setActiveGroupId_active aid w2)
        as (_ & _ & [(l & _ & Hl & Hhas) | [Hkeep _]])
    end.
    + exfalso. apply Hnot.
      simpl in Hl. apply in_seq in Hl. rewrite length_map in Hl.
      unfold has_id in Hhas. simpl in Hhas.
      rewrite lookup_app_r in Hhas by lia.
      rewrite list_lookup_fmap in Hhas.
      destruct (gs !! (l - length (heap w1))) as [gd|] eqn:Hk; [|discriminate].
      simpl in Hhas. apply String.eqb_eq in Hhas. rewrite <- Hhas.
      apply in_map, list_elem_of_In, list_elem_of_lookup. eauto.
    + rewrite Hkeep. exact Ha1.
Qed.

(** C7, as stated, fails for a state load: loading a state that carries an
    empty list of groups and no active group id into a helper whose active
    group is in its collection empties the collection and leaves the
    reference on the old group. *)
Lemma load_leaves_reference_outside_collection :
  let w := createGroup "a" initialWorld in
  active_in_collection w
  /\ curveGroups (this (loadState (groups_only []) w)) = []
  /\ activeCurveGroup (this (loadState (groups_only []) w)) = Some 0
  /\ ~ active_in_collection (loadState (groups_only []) w).
Proof.
  cbv zeta. split; [|split; [|split]].
  - unfold active_in_collection. simpl. auto.
  - reflexivity.
  - reflexivity.
  - unfold active_in_collection. simpl. tauto.
Qed.

(** C7, amended: given an active-group reference that is none or names a
    group of the collection, it is so again after a group creation, an
    activation by id and a group deletion; deleting the group whose id
    the active group has sets the reference to none, deleting by another id
    leaves the reference unchanged.  After a state load it is so again when
    the state carries no curve groups, or the reference was none before, or
    the state's active group id is the id of one of its groups; otherwise
    (the state carries curve groups, and no active group id or one that
    none of its groups has) the load keeps the previous reference. *)
Theorem active_reference_in_collection (w : World) (id : string) :
  active_in_collection w ->
  active_in_collection (createGroup id w)
  /\ active_in_collection (setActiveGroupId id w)
  /\ active_in_collection (deleteGroup id w)
  /\ (active_has_id w id = true ->
      activeCurveGroup (this (deleteGroup id w)) = None)
  /\ (active_has_id w id = false ->
      activeCurveGroup (this (deleteGroup id w)) = activeCurveGroup (this w))
  /\ (forall state,
        s_curveGroups state = None
        \/ activeCurveGroup (this w) = None
        \/ (exists gs aid, s_curveGroups state = Some gs
                           /\ s_activeGroupId state = Some aid
                           /\ In aid (map g_id gs)) ->
        active_in_collection (loadState state w))
  /\ (forall state gs,
        s_curveGroups state = Some gs ->
        s_activeGroupId state = None
        \/ (exists aid, s_activeGroupId state = Some aid
                        /\ ~ In aid (map g_id gs)) ->
        activeCurveGroup (this (loadState state w)) = activeCurveGroup (this w)).
Proof.
  intros H. repeat split.
  - unfold active_in_collection. simpl. apply in_or_app. right. left. reflexivity.
  - apply setActiveGroupId_in_collection. exact H.
  - apply deleteGroup_in_collection. exact H.
  - intros E. rewrite deleteGroup_active, E. reflexivity.
  - intros E. rewrite deleteGroup_active, E. reflexivity.
  - intros state Hcase. apply loadState_in_collection; assumption.
  - intros state gs Hgs Hcase. exact (loadState_keeps_reference state gs w Hgs Hcase).
Qed.

Lemma active_reference_in_collection_example :
  let w := createGroup "a" initialWorld in
  let id : string := "a" in
  active_in_collection (createGroup id w)
  /\ active_in_collection (setActiveGroupId id w)
  /\ active_in_collection (deleteGroup id w)
  /\ (active_has_id w id = true ->
      activeCurveGroup (this (deleteGroup id w)) = None)
  /\ (active_has_id w id = false ->
      activeCurveGroup (this (deleteGroup id w)) = activeCurveGroup (this w))
  /\ (forall state,
        s_curveGroups state = None
        \/ activeCurveGroup (this w) = None
        \/ (exists gs aid, s_curveGroups state = Some gs
                           /\ s_activeGroupId state = Some aid
                           /\ In aid (map g_id gs)) ->
        active_in_collection (loadState state w))
  /\ (forall state gs,
        s_curveGroups state = Some gs ->
        s_activeGroupId state = None
        \/ (exists aid, s_activeGroupId state = Some aid
                        /\ ~ In aid (map g_id gs)) ->
        activeCurveGroup (this (loadState state w)) = activeCurveGroup (this w)).
Proof.
  cbv zeta.
  apply (active_reference_in_collection (createGroup "a" initialWorld) "a").
  unfold active_in_collection. simpl. left. reflexivity.
Defined.

(** *** The size cap of the saved image *)

Arguments payload_of_size : simpl never.

Lemma blob_size_payload (n : N) :
  ReferenceImage.blob_size (payload_of_size n) = Z.of_N n.
Proof.
  unfold ReferenceImage.blob_size, payload_of_size.
  induction n as [|n IH] using N.peano_ind.
  - reflexivity.
  - rewrite N.iter_succ. simpl String.length.
    rewrite Nat2Z.inj_succ, IH, N2Z.inj_succ. reflexivity.
Qed.

(** What the test of [getSaveData] compares: the size in millions of bytes
    against four million, so the payload is kept below 4 * 10^12 bytes. *)
Lemma getSaveData_kept (r : ReferenceImage.t) :
  (IZR (ReferenceImage.blob_size (ReferenceImage.data r)) < 4000000000000)%R ->
  ReferenceImage.getSaveData r = ReferenceImage.data r.
Proof.
  intros H. unfold ReferenceImage.getSaveData. cbv zeta.
  rewrite js_lt_true by lra. reflexivity.
Qed.

Lemma getSaveData_dropped (r : ReferenceImage.t) :
  (4000000000000 <= IZR (ReferenceImage.blob_size (ReferenceImage.data r)))%R ->
  ReferenceImage.getSaveData r = EmptyString.
Proof.
  intros H. unfold ReferenceImage.getSaveData. cbv zeta.
  rewrite js_lt_false by lra. reflexivity.
Qed.

(** C4 at a payload of exactly 4,000,000 bytes, which is not below the cap:
    [getSaveData] returns the payload, not the empty string, and the state
    [saveState] stores carries it. *)
Theorem payload_at_the_cap_is_saved (now : Z) :
  let w := setReferenceData (payload_of_size 4000000) initialWorld in
  ReferenceImage.blob_size (ReferenceImage.data (reference (this w))) = 4000000%Z
  /\ ReferenceImage.getSaveData (reference (this w)) = payload_of_size 4000000
  /\ payload_of_size 4000000 <> EmptyString
  /\ fst (saveState now w) = true
  /\ option_map r_data (localStorage (snd (saveState now w)) ≫= s_reference)
     = Some (payload_of_size 4000000).
Proof.
  cbv zeta.
  assert (ReferenceImage.getSaveData
            (reference (this (setReferenceData (payload_of_size 4000000) initialWorld)))
          = payload_of_size 4000000) as Hsave.
  { rewrite getSaveData_kept; [reflexivity|].
    change (ReferenceImage.data _) with (payload_of_size 4000000).
    rewrite blob_size_payload. simpl. lra. }
  split; [|split; [|split; [|split]]].
  - change (ReferenceImage.data _) with (payload_of_size 4000000).
    apply blob_size_payload.
  - exact Hsave.
  - unfold payload_of_size.
    change 4000000%N with (N.succ 3999999). rewrite N.iter_succ. discriminate.
  - reflexivity.
  - change (Some (ReferenceImage.getSaveData
                    (reference (this (setReferenceData (payload_of_size 4000000)
                                                       initialWorld))))
            = Some (payload_of_size 4000000)).
    rewrite Hsave. reflexivity.
Qed.

(** *** Saving and loading *)

(** C2 at a helper whose pick range was set to 32 with [setPointRange] (so
    its half is 16): after a save and a reload the pick range is 32 again,
    but its half is the initial 8, because [loadState] writes the range
    with [setProperty]; hit testing after the reload uses the half of the
    initial range.  The same holds for the point size. *)
Theorem reload_keeps_initial_halves (now : Z) :
  let w := setPointSize 24 (setPointRange 32 initialWorld) in
  let w' := reload (snd (saveState now w)) in
  pointRange (display (this w')) = pointRange (display (this w))
  /\ pointSize (display (this w')) = pointSize (display (this w))
  /\ pointRangeHalf (display (this w)) = (32 * 0.5)%R
  /\ pointRangeHalf (display (this w')) = (16 * 0.5)%R
  /\ pointRangeHalf (display (this w')) <> pointRangeHalf (display (this w))
  /\ pointSizeHalf (display (this w)) = (24 * 0.5)%R
  /\ pointSizeHalf (display (this w')) = (16 * 0.5)%R
  /\ pointSizeHalf (display (this w')) <> pointSizeHalf (display (this w)).
Proof.
  cbv zeta.
  split; [reflexivity|]. split; [reflexivity|]. split; [reflexivity|].
  split; [reflexivity|]. split; [simpl; lra|]. split; [reflexivity|].
  split; [reflexivity|]. simpl. lra.
Qed.

(** *** The update pass writes to the drawing context only *)

Lemma same_state_refl (w : World) : same_state w w.
Proof. unfold same_state. auto. Qed.

(** Closes a goal whose two worlds differ in host-side fields only. *)
Ltac same_state_now := unfold same_state; simpl; repeat split; reflexivity.

Lemma same_state_trans (a b c : World) :
  same_state a b -> same_state b c -> same_state a c.
Proof.
  unfold same_state. intros (-> & -> & -> & ->) (-> & -> & -> & ->). auto.
Qed.

Lemma emit_same_state (op : CtxOp) (w : World) : same_state (emit op w) w.
Proof. same_state_now. Qed.

Lemma emit_all_same_state (ops : list CtxOp) (w : World) :
  same_state (emit_all ops w) w.
Proof. same_state_now. Qed.

Lemma and_then_same_state (c : Completion) (k : World -> Completion) (w0 : World) :
  same_state (world_of c) w0 ->
  (forall w, same_state (world_of (k w)) w) ->
  same_state (world_of (and_then c k)) w0.
Proof.
  intros Hc Hk. destruct c as [w|w]; simpl in *.
  - eapply same_state_trans; [apply Hk | exact Hc].
  - exact Hc.
Qed.

Lemma for_each_same_state {A : Type} (body : nat -> A -> World -> Completion) :
  (forall i a w, same_state (world_of (body i a w)) w) ->
  forall l i w, same_state (world_of (for_each body i l w)) w.
Proof.
  intros Hbody. induction l as [|a l IH]; intros i w; simpl.
  - same_state_now.
  - apply and_then_same_state; [apply Hbody | apply IH].
Qed.


Lemma reference_update_same_state (w : World) :
  same_state (world_of (reference_update w)) w.
Proof.
  unfold reference_update.
  destruct (negb _); [same_state_now|].
  cbv zeta. destruct (broken _); [same_state_now|].
  destruct (ToolTypes_eqb _ _); same_state_now.
Qed.

Lemma curve_normally_same_state (controls : list Control.t) (j : nat)
    (x y : R) (w : World) :
  same_state (world_of (curve_normally controls j x y w)) w.
Proof.
  unfold curve_normally. destruct (controls !! (j - 1)); same_state_now.
Qed.

Lemma draw_point_same_state (active : bool) (controls : list Control.t)
    (j : nat) (p : Point.t) (w : World) :
  same_state (world_of (draw_point active controls j p w)) w.
Proof.
  unfold draw_point. cbv zeta. destruct active.
  - destruct (point_position _ j p) as [[x y]|]; [|same_state_now].
    destruct (j =? 0)%nat.
    + destruct (_ || _); same_state_now.
    + destruct (ToolTypes_eqb _ EDIT_CONTROLS).
      * destruct (controls !! (j - 1)) as [c|].
        -- destruct (getEditControlPoints _ c (j - 1));
             destruct (_ || _); same_state_now.
        -- destruct (_ || _); same_state_now.
      * eapply same_state_trans; [apply curve_normally_same_state|].
        destruct (_ || _); same_state_now.
  - destruct (j =? 0)%nat; [same_state_now|].
    eapply same_state_trans; [apply curve_normally_same_state|].
    same_state_now.
Qed.

Lemma draw_control_same_state (j : nat) (c : Control.t) (w : World) :
  same_state (world_of (draw_control j c w)) w.
Proof.
  unfold draw_control. cbv zeta.
  destruct (getEditControlPoints w c j); same_state_now.
Qed.

Lemma draw_group_same_state (i : nat) (group : CurveGroup.t) (w : World) :
  same_state (world_of (draw_group i group w)) w.
Proof.
  unfold draw_group. cbv zeta.
  destruct (_ =? 0)%nat; [same_state_now|].
  apply and_then_same_state.
  - eapply same_state_trans;
      [apply for_each_same_state; intros; apply draw_point_same_state|].
    apply emit_all_same_state.
  - intros w'. destruct (_ && _).
    + eapply same_state_trans;
        [apply for_each_same_state; intros; apply draw_control_same_state|].
      same_state_now.
    + same_state_now.
Qed.

Lemma draw_origin_same_state (w : World) :
  same_state (world_of (draw_origin w)) w.
Proof.
  unfold draw_origin. destruct (ToolTypes_eqb _ _); [|same_state_now].
  cbv zeta. destruct (origin_position _) as [[x y]|]; same_state_now.
Qed.

Lemma update_body_same_state (w : World) :
  same_state (world_of (update_body w)) w.
Proof.
  unfold update_body. cbv zeta.
  apply and_then_same_state.
  - eapply same_state_trans; [apply reference_update_same_state|].
    apply emit_same_state.
  - intros w1. apply and_then_same_state.
    + apply for_each_same_state; intros; apply draw_group_same_state.
    + intros w'. eapply same_state_trans; [apply draw_origin_same_state|].
      apply emit_same_state.
Qed.

(** An update pass leaves the store, the helper, the tool and the pointer
    position as they are, whether it completes or stops the main loop. *)
Lemma update_same_state (w : World) : same_state (update w) w.
Proof.
  unfold update. pose proof (update_body_same_state w) as H.
  destruct (update_body w) as [w'|w']; simpl in H.
  - exact H.
  - eapply same_state_trans; [same_state_now | exact H].
Qed.

Lemma run_frame_events_state (es : list FrameEvent) : forall w : World,
  heap (run_frame_events es w) = heap w
  /\ this (run_frame_events es w) = this w
  /\ activeTool (run_frame_events es w) = activeTool w.
Proof.
  induction es as [|e es IH]; intros w; simpl; [auto|].
  destruct (IH (run_frame_event w e)) as (-> & -> & ->).
  destruct e as [|rect event]; simpl.
  - destruct (update_same_state w) as (-> & -> & -> & _). auto.
  - auto.
Qed.

(** *** Dragging *)

Lemma search_points_result (mouseX mouseY : R) (points : list Point.t) :
  forall (i : nat) (w : World),
    search_points i points mouseX mouseY w = w
    \/ exists k, search_points i points mouseX mouseY w
                 = upd_drag (start_dragPoint k mouseX mouseY) w.
Proof.
  induction points as [|p rest IH]; intros i w; simpl; [auto|].
  destruct (in_pick_range _ _ _ _); [right; eauto | apply IH].
Qed.

Lemma search_control_points_result (mouseX mouseY : R) (i : nat)
    (points : list Point.t) :
  forall (j : nat) (w : World),
    search_control_points i j points mouseX mouseY w = w
    \/ exists k, search_control_points i j points mouseX mouseY w
                 = upd_drag (start_dragControl i k mouseX mouseY) w.
Proof.
  induction points as [|p rest IH]; intros j w; simpl; [auto|].
  destruct (in_pick_range _ _ _ _); [right; eauto | apply IH].
Qed.

Lemma search_controls_result (mouseX mouseY : R) (controls : list Control.t) :
  forall (i : nat) (w : World),
    search_controls i controls mouseX mouseY w = w
    \/ exists i' k, search_controls i controls mouseX mouseY w
                    = upd_drag (start_dragControl i' k mouseX mouseY) w.
Proof.
  induction controls as [|c rest IH]; intros i w; cbn [search_controls]; [auto|].
  destruct (search_control_points_result mouseX mouseY i (Control.points c) 0 w)
    as [-> | [k ->]]; [apply IH|].
  destruct (IH (S i) (upd_drag (start_dragControl i k mouseX mouseY) w))
    as [-> | (i' & k' & ->)]; right; eauto.
Qed.

(** A pointer-down with one of the three edit tools writes at most the drag
    variables (and the drag state of the reference image): it either
    leaves the drag variables as they are or anchors a drag at the pointer
    position. *)
Lemma handleMouseDown_edit_tools (w : World) :
  activeTool w = EDIT_POINTS \/ activeTool w = EDIT_CONTROLS
  \/ activeTool w = EDIT_ORIGIN_POINT ->
  committed (handleMouseDown w) = committed w
  /\ activeTool (handleMouseDown w) = activeTool w
  /\ mousePos (handleMouseDown w) = mousePos w
  /\ (drag (this (handleMouseDown w)) = drag (this w)
      \/ dragStart (drag (this (handleMouseDown w))) = Some (mousePos w)).
Proof.
  intros Htool. unfold handleMouseDown.
  destruct (mousePos w) as [mx my] eqn:Hm. simpl Point.x. simpl Point.y.
  destruct Htool as [Ht | [Ht | Ht]]; rewrite Ht.
  - destruct (active_group w) as [[l g]|]; [|rewrite Hm; auto].
    destruct (search_points_result mx my (CurveGroup.points g) 0 w)
      as [-> | [k ->]]; simpl; rewrite ?Hm; auto.
  - destruct (active_group w) as [[l g]|]; [|rewrite Hm; auto].
    destruct (search_controls_result mx my (CurveGroup.controls g) 0 w)
      as [-> | (i & k & ->)]; simpl; rewrite ?Hm; auto.
  - destruct (_ && _); simpl; rewrite ?Hm; auto.
Qed.

(** C3: a pointer-down with EDIT_POINTS, EDIT_CONTROLS or
    EDIT_ORIGIN_POINT and any number of update passes and pointer moves
    after it (no pointer-up) leave every group's points and controls and
    the origin point as they were; the drag variables stay as the
    pointer-down left them, and a drag it began is anchored at its pointer
    position.  During the drag the update pass places the dragged point,
    control endpoint or origin at its stored position plus the difference of
    the current pointer position and the anchor, and every other point and
    control at its stored position. *)
Theorem unreleased_drag_keeps_committed (w : World) (es : list FrameEvent) :
  activeTool w = EDIT_POINTS \/ activeTool w = EDIT_CONTROLS
  \/ activeTool w = EDIT_ORIGIN_POINT ->
  let w1 := handleMouseDown w in
  let w2 := run_frame_events es w1 in
  committed w2 = committed w
  /\ activeTool w2 = activeTool w
  /\ drag (this w2) = drag (this w1)
  /\ (drag (this w1) = drag (this w)
      \/ dragStart (drag (this w1)) = Some (mousePos w))
  /\ forall anchor, dragStart (drag (this w1)) = Some anchor ->
     (forall j, activeTool w = EDIT_POINTS ->
        dragPoint (drag (this w1)) = Some j ->
        (forall p, point_position w2 j p = Some (preview p anchor (mousePos w2)))
        /\ (forall k p, k <> j ->
              point_position w2 k p = Some (Point.x p, Point.y p)))
     /\ (forall i s, activeTool w = EDIT_CONTROLS ->
           dragControl (drag (this w1)) = Some (i, s) ->
           (forall c, getEditControlPoints w2 c i =
              if (s =? 0)%nat then
                Some (mkControlData
                        (fst (preview (Control.point1 c) anchor (mousePos w2)))
                        (snd (preview (Control.point1 c) anchor (mousePos w2)))
                        (Point.x (Control.point2 c)) (Point.y (Control.point2 c)))
              else
                Some (mkControlData
                        (Point.x (Control.point1 c)) (Point.y (Control.point1 c))
                        (fst (preview (Control.point2 c) anchor (mousePos w2)))
                        (snd (preview (Control.point2 c) anchor (mousePos w2)))))
           /\ (forall k c, k <> i ->
                 getEditControlPoints w2 c k =
                 Some (mkControlData
                         (Point.x (Control.point1 c)) (Point.y (Control.point1 c))
                         (Point.x (Control.point2 c)) (Point.y (Control.point2 c)))))
     /\ (activeTool w = EDIT_ORIGIN_POINT ->
         dragOrigin (drag (this w1)) = true ->
         origin_position w2
         = Some (preview (originPos (this w)) anchor (mousePos w2))).
Proof.
  intros Htool w1 w2.
  destruct (handleMouseDown_edit_tools w Htool) as (Hc & Ht & _ & Hd).
  destruct (run_frame_events_state es w1) as (Hheap & Hthis & Htool2).
  fold w2 in Hheap, Hthis, Htool2. fold w1 in Hc, Ht, Hd.
  assert (committed w2 = committed w) as Hc2.
  { rewrite <- Hc. unfold committed. rewrite Hheap, Hthis. reflexivity. }
  assert (originPos (this w2) = originPos (this w)) as Ho.
  { unfold committed in Hc2. congruence. }
  split; [exact Hc2|]. split; [congruence|]. split; [rewrite Hthis; reflexivity|].
  split; [exact Hd|].
  intros anchor Ha. rewrite <- Hthis in Ha.
  split; [|split].
  - intros j Hp Hj. rewrite <- Hthis in Hj.
    assert (activeTool w2 = EDIT_POINTS) as E by congruence.
    split.
    + intros p. unfold point_position. rewrite E, Hj, Ha, Nat.eqb_refl.
      reflexivity.
    + intros k p Hk. unfold point_position. rewrite E, Hj.
      destruct (Nat.eqb_spec j k); [congruence | reflexivity].
  - intros i s Hp Hi. rewrite <- Hthis in Hi. split.
    + intros c. unfold getEditControlPoints. rewrite Hi, Ha, Nat.eqb_refl.
      destruct (s =? 0)%nat; reflexivity.
    + intros k c Hk. unfold getEditControlPoints. rewrite Hi.
      destruct (Nat.eqb_spec i k); [congruence | reflexivity].
  - intros Hp Hdo. rewrite <- Hthis in Hdo.
    unfold origin_position. rewrite Hdo, Ha, Ho. reflexivity.
Qed.

Lemma unreleased_drag_example :
  let w := world_with [close_handles] EDIT_POINTS (Point.new 1 1) in
  let w2 :=
    run_frame_events [Tick; PointerMove (Point.new 0 0) (mkMouseEvent 5 7); Tick]
                     (handleMouseDown w) in
  committed w2 = committed w
  /\ dragPoint (drag (this w2)) = Some 0
  /\ point_position w2 0 (Point.new 0 0)
     = Some (preview (Point.new 0 0) (Point.new 1 1) (mousePos w2)).
Proof.
  cbv zeta.
  destruct (unreleased_drag_keeps_committed
              (world_with [close_handles] EDIT_POINTS (Point.new 1 1))
              [Tick; PointerMove (Point.new 0 0) (mkMouseEvent 5 7); Tick])
    as (Hc & _ & Hd & _ & Hprev).
  - left. reflexivity.
  - assert (drag (this (handleMouseDown
                          (world_with [close_handles] EDIT_POINTS (Point.new 1 1))))
            = mkDrag (Some (Point.new 1 1)) (Some 0) None false) as Hdown.
    { unfold handleMouseDown. simpl. unfold in_pick_range. simpl.
      js_compare. reflexivity. }
    split; [exact Hc|]. split.
    + rewrite Hd, Hdown. reflexivity.
    + destruct (Hprev (Point.new 1 1)) as (Hpoint & _).
      * rewrite Hdown. reflexivity.
      * apply (Hpoint 0); [reflexivity | rewrite Hdown; reflexivity].
Defined.

(** *** The SVG document *)

Section ExporterProperties.

Variable toFixed : R -> nat -> string.

Lemma Number_toFixed_accepts (x : R) (digits : nat) :
  digits <= 100 -> Number_toFixed toFixed x digits = Some (toFixed x digits).
Proof.
  intros H. unfold Number_toFixed.
  rewrite (proj2 (Nat.leb_le digits 100) H). reflexivity.
Qed.


Lemma getSVGCoords_accepts (p : Point.t) (precision : nat) :
  precision <= 100 ->
  getSVGCoords toFixed p precision = Some (pair_yx toFixed precision p).
Proof.
  intros H. unfold getSVGCoords.
  rewrite !Number_toFixed_accepts by exact H. reflexivity.
Qed.


(** With a control for every point of [rest] and a digit count [toFixed]
    accepts, the loop of [getSVGString] pushes one command per point, each
    with the control of its segment. *)
Lemma curve_commands_zip (precision : nat) (rest : list Point.t) :
  precision <= 100 ->
  forall pre cs : list Control.t,
    length rest <= length cs ->
    curve_commands toFixed (pre ++ cs) precision (S (length pre)) rest
    = Some (zip_with (bezier_to toFixed precision) cs rest).
Proof.
  intros Hprec.
  induction rest as [|p rest IH]; intros pre cs Hlen; simpl.
  - destruct cs; reflexivity.
  - destruct cs as [|c cs]; [simpl in Hlen; lia|].
    rewrite Nat.sub_0_r, list_lookup_middle by reflexivity.
    replace (pre ++ c :: cs) with ((pre ++ [c]) ++ cs)
      by (rewrite <- app_assoc; reflexivity).
    replace (S (S (length pre))) with (S (length (pre ++ [c])))
      by (rewrite length_app; simpl; lia).
    rewrite IH by (simpl in Hlen; lia).
    simpl. rewrite !getSVGCoords_accepts by exact Hprec.
    reflexivity.
Qed.

(** Without a control for some segment the read of [controls[i - 1].points]
    throws. *)
Lemma curve_commands_throws (precision : nat) (p : Point.t) (rest : list Point.t) :
  curve_commands toFixed [] precision 1 (p :: rest) = None.
Proof. reflexivity. Qed.

Lemma path_element_spec (precision : nat) (g : CurveGroup.t)
    (first second : Point.t) (later : list Point.t) :
  precision <= 100 ->
  CurveGroup.points g = first :: second :: later ->
  has_controls g ->
  path_element toFixed precision g
  = Some (tab +:+ "<path d=" +:+ quote
          +:+ path_data toFixed precision first (second :: later)
                (CurveGroup.controls g)
          +:+ quote +:+ " />").
Proof.
  intros Hprec Hp Hc. unfold path_element, has_controls in *. rewrite Hp in *.
  pose proof (curve_commands_zip precision (second :: later) Hprec []
                (CurveGroup.controls g)) as H.
  change ([] ++ CurveGroup.controls g) with (CurveGroup.controls g) in H.
  change (S (length (@nil Control.t))) with 1 in H.
  rewrite H by (simpl in *; lia).
  rewrite getSVGCoords_accepts by exact Hprec.
  reflexivity.
Qed.


Lemma paths_of_groups (precision : nat) (gs : list CurveGroup.t) :
  precision <= 100 ->
  Forall has_controls gs ->
  mapM (path_element toFixed precision)
       (List.filter (fun group => (1 <? length (CurveGroup.points group))%nat) gs)
  = Some (path_elements toFixed precision gs).
Proof.
  intros Hprec.
  induction 1 as [|g gs Hg _ IH]; [reflexivity|].
  cbn [List.filter path_elements].
  destruct (CurveGroup.points g) as [|first [|second later]] eqn:Hp;
    [exact IH | exact IH |].
  transitivity
    (mapM (path_element toFixed precision)
       (g :: List.filter
               (fun group => (1 <? length (CurveGroup.points group))%nat) gs));
    [reflexivity|].
  cbn [mapM].
  rewrite (path_element_spec precision g first second later Hprec Hp Hg).
  rewrite IH. reflexivity.
Qed.

(** C8, as amended: for every precision from 0 to 100 and every collection
    of groups in which each segment has its control handle, [getSVGString]
    returns the document with one path element per group with more than
    one point, in order, groups with one or zero points being skipped; the
    [d] attribute of an element is an absolute move to the first point
    followed by one cubic-Bezier-to command per later point, with the two
    endpoints of that segment's control handle and the point, every pair
    written as y then x at the configured precision. *)
Theorem getSVGString_paths (w : World) :
  outputPrecision (display (this w)) <= 100 ->
  Forall has_controls (groups w) ->
  getSVGString toFixed w
  = Some (String.concat newline
            [svg_open (mainColor (display (this w)));
             String.concat newline
               (path_elements toFixed (outputPrecision (display (this w)))
                              (groups w));
             "</svg>"]).
Proof.
  intros Hprec H. unfold getSVGString. cbv zeta.
  rewrite (paths_of_groups _ _ Hprec H). reflexivity.
Qed.

End ExporterProperties.

(** A group of two points, with every x printed as [lo] and every y as
    [hi], and a group without points: one path element, its pairs written
    y first. *)
Lemma getSVGString_paths_example :
  let w := world_with [tall_segment; CurveGroup.new "b"] ADD_POINTS (Point.new 0 0) in
  getSVGString lo_hi w
  = Some (String.concat newline
            [svg_open "#ff0099";
             tab +:+ "<path d=" +:+ quote
               +:+ "Mhi lo Chi lo, hi lo, hi lo" +:+ quote +:+ " />";
             "</svg>"]).
Proof.
  cbv zeta.
  rewrite (getSVGString_paths lo_hi
             (world_with [tall_segment; CurveGroup.new "b"] ADD_POINTS (Point.new 0 0))).
  - simpl. unfold path_data, bezier_to, pair_yx, lo_hi. simpl.
    js_compare. reflexivity.
  - simpl. lia.
  - repeat constructor.
Defined.

(** C8 as stated fails for a precision above 100 and for a collection with
    a segment that has no control handle.  With 101 digits, which the
    precision field accepts, the export of a two-point group throws at the
    first [toFixed]; and for a group of two points without a control, which
    [loadState] accepts, the export throws at the read of
    [controls[0].points]. *)
Lemma getSVGString_throws :
  getSVGString lo_hi
    (setProperty (P_outputPrecision 101)
       (world_with [tall_segment] ADD_POINTS (Point.new 0 0))) = None
  /\ getSVGString lo_hi
       (loadState
          (groups_only [mkGroupData "d" [Point.new 0 10; Point.new 1 20] []])
          initialWorld) = None.
Proof. split; reflexivity. Qed.

(** *** What a reload restores *)

Lemma setActiveGroupId_fields (id : string) (w : World) :
  heap (setActiveGroupId id w) = heap w
  /\ curveGroups (this (setActiveGroupId id w)) = curveGroups (this w)
  /\ originPos (this (setActiveGroupId id w)) = originPos (this w)
  /\ display (this (setActiveGroupId id w)) = display (this w)
  /\ reference (this (setActiveGroupId id w)) = reference (this w)
  /\ activeTool (setActiveGroupId id w) = activeTool w.
Proof.
  unfold setActiveGroupId. destruct (List.find _ _); simpl; auto 10.
Qed.

Lemma omap_lookup_seq {A : Type} (h : list A) : forall pre : list A,
  omap (fun l => (pre ++ h) !! l) (seq (length pre) (length h)) = h.
Proof.
  induction h as [|a h IH]; intros pre; [reflexivity|].
  change (omap (fun l => (pre ++ a :: h) !! l) (seq (length pre) (length (a :: h))))
    with (match (pre ++ a :: h) !! length pre with
          | Some y => y :: omap (fun l => (pre ++ a :: h) !! l)
                                (seq (S (length pre)) (length h))
          | None => omap (fun l => (pre ++ a :: h) !! l)
                         (seq (S (length pre)) (length h))
          end).
  rewrite list_lookup_middle by reflexivity.
  f_equal.
  specialize (IH (pre ++ [a])).
  rewrite <- app_assoc, length_app, Nat.add_1_r in IH. exact IH.
Qed.

Lemma groupInstance_groupData (g : CurveGroup.t) :
  groupInstance (groupData g) = g.
Proof.
  destruct g as [ps cs i]. unfold groupInstance, groupData. simpl.
  f_equal.
  - induction ps as [|[px py] ps IH]; [reflexivity|]. simpl. f_equal. exact IH.
  - induction cs as [|[[ax ay] [bx by']] cs IH]; [reflexivity|].
    simpl. f_equal. exact IH.
Qed.

(** [loadState] on a state that has every field but, possibly, the active
    group id: the fields of the helper after the load. *)
Lemma loadState_full (ts : option Z) (o : Point.t) (gs : list GroupData)
    (aid : option string) (rd : ReferenceData) (tool : ToolTypes)
    (lw pr ps ao io : R) (mc cc oc : string) (prec : nat) (w0 : World) :
  let w' :=
    loadState
      (mkState ts (Some o) (Some gs) aid (Some rd) (Some tool) (Some lw)
               (Some pr) (Some ps) (Some ao) (Some io) (Some mc) (Some cc)
               (Some oc) (Some prec)) w0 in
  heap w' = heap w0 ++ map groupInstance gs
  /\ curveGroups (this w') = seq (length (heap w0)) (length gs)
  /\ originPos (this w') = o
  /\ activeTool w' = tool
  /\ display (this w')
     = mkDisplay lw ps (pointSizeHalf (display (this w0))) ao io mc cc oc
                 pr (pointRangeHalf (display (this w0))) prec
  /\ reference (this w')
     = (let ref :=
          ReferenceImage.setColor (r_color rd)
            (ReferenceImage.setOpacity (r_opacity rd)
               (ReferenceImage.setOffset (Point.x (r_offset rd)) (Point.y (r_offset rd))
                  (ReferenceImage.setScale (r_scale rd) (reference (this w0))))) in
        if String.eqb (r_data rd) EmptyString then ref
        else ReferenceImage.setData (r_data rd) ref).
Proof.
  unfold loadState.
  cbn [s_originPos s_curveGroups s_activeGroupId s_reference s_activeTool
       s_lineWidth s_pointRange s_pointSize s_activeOpacity s_inactiveOpacity
       s_mainColor s_controlColor s_originColor s_outputPrecision when_defined].
  rewrite alloc_all_spec.
  match goal with
  | |- context [when_defined aid setActiveGroupId ?w2] =>
      set (w3 := when_defined aid setActiveGroupId w2);
      assert (heap w3 = heap w0 ++ map groupInstance gs
              /\ curveGroups (this w3) = seq (length (heap w0)) (length gs)
              /\ originPos (this w3) = o
              /\ display (this w3) = display (this w0)
              /\ reference (this w3) = reference (this w0))
        as (Hh & Hc & Ho & Hd & Hr)
  end.
  { unfold w3. destruct aid as [i|]; cbn [when_defined].
    - match goal with |- context [setActiveGroupId i ?w2] =>
        destruct (setActiveGroupId_fields i w2) as (-> & -> & -> & -> & -> & _)
      end.
      simpl. rewrite length_map. auto 10.
    - simpl. rewrite length_map. auto 10. }
  clearbody w3. cbv zeta. simpl.
  rewrite Hh, Hc, Ho, Hd, Hr. auto 10.
Qed.

(** After a save that succeeds and a reload, the curve groups, the origin
    point, the active tool, the display fields and the transform, opacity
    and color of the reference image are those of the saved helper, and the
    image payload is what [getSaveData] returned; the two cached halves are
    those of a fresh helper. *)
Lemma reload_restores (now : Z) (w : World) :
  storageFull w = false ->
  let w' := reload (snd (saveState now w)) in
  let s := display (this w) in
  let s' := display (this w') in
  let r := reference (this w) in
  let r' := reference (this w') in
  groups w' = groups w
  /\ originPos (this w') = originPos (this w)
  /\ activeTool w' = activeTool w
  /\ (lineWidth s' = lineWidth s /\ pointRange s' = pointRange s
      /\ pointSize s' = pointSize s /\ activeOpacity s' = activeOpacity s
      /\ inactiveOpacity s' = inactiveOpacity s /\ mainColor s' = mainColor s
      /\ controlColor s' = controlColor s /\ originColor s' = originColor s
      /\ outputPrecision s' = outputPrecision s)
  /\ (ReferenceImage.scale r' = ReferenceImage.scale r
      /\ ReferenceImage.offset r' = ReferenceImage.offset r
      /\ ReferenceImage.opacity r' = ReferenceImage.opacity r
      /\ ReferenceImage.color r' = ReferenceImage.color r
      /\ ReferenceImage.data r' = ReferenceImage.getSaveData r)
  /\ pointRangeHalf s' = (16 * 0.5)%R
  /\ pointSizeHalf s' = (16 * 0.5)%R.
Proof.
  intros Hfull. unfold reload, saveState. rewrite Hfull.
  cbn [snd localStorage set_localStorage setMessage set_messages].
  unfold stateObject.
  match goal with |- context [loadState ?st ?w0] =>
    set (w' := loadState st w0)
  end.
  destruct (loadState_full
              (Some now) (originPos (this w)) (map groupData (groups w))
              (match active_group w with
               | Some (_, g) => Some (CurveGroup.id g)
               | None => None
               end)
              (mkReferenceData
                 (ReferenceImage.scale (reference (this w)))
                 (ReferenceImage.offset (reference (this w)))
                 (ReferenceImage.opacity (reference (this w)))
                 (ReferenceImage.color (reference (this w)))
                 (ReferenceImage.getSaveData (reference (this w))))
              (activeTool w)
              (lineWidth (display (this w))) (pointRange (display (this w)))
              (pointSize (display (this w))) (activeOpacity (display (this w)))
              (inactiveOpacity (display (this w))) (mainColor (display (this w)))
              (controlColor (display (this w))) (originColor (display (this w)))
              (outputPrecision (display (this w)))
              (set_localStorage
                 (Some (stateObject now w)) initialWorld))
    as (Hh & Hc & Ho & Ht & Hd & Hr).
  unfold stateObject in Hh, Hc, Ho, Ht, Hd, Hr.
  fold w' in Hh, Hc, Ho, Ht, Hd, Hr. clearbody w'.
  cbv zeta. split; [|split; [|split; [|split; [|split]]]].
  - unfold groups at 1. rewrite Hh, Hc. simpl heap. simpl app.
    rewrite <- (length_map groupInstance).
    transitivity (map groupInstance (map groupData (groups w)));
      [exact (omap_lookup_seq _ [])|].
    rewrite map_map. erewrite map_ext; [apply map_id|].
    intros g. apply groupInstance_groupData.
  - exact Ho.
  - exact Ht.
  - rewrite Hd. simpl. auto 10.
  - rewrite Hr. cbn [r_scale r_offset r_opacity r_color r_data].
    destruct (String.eqb_spec (ReferenceImage.getSaveData (reference (this w)))
                EmptyString) as [E|E]; cbv zeta.
    + rewrite E. destruct (ReferenceImage.offset (reference (this w))).
      simpl. auto.
    + destruct (ReferenceImage.offset (reference (this w))). simpl. auto.
  - rewrite Hd. simpl. auto.
Qed.

(** *** The counts of points and controls in reachable worlds *)

Lemma counts_ok_initial : counts_ok initialWorld.
Proof. constructor. Qed.









Lemma loadState_heap (state : State) (w : World) :
  heap (loadState state w)
  = heap w ++ match s_curveGroups state with
              | Some gs => map groupInstance gs
              | None => []
              end.
Proof.
  unfold loadState.
  repeat (rewrite (when_defined_keeps heap) by reflexivity).
  rewrite (when_defined_keeps heap)
    by (intros id w'; apply (setActiveGroupId_fields id w')).
  destruct (s_curveGroups state) as [gs|]; cbn [when_defined].
  - rewrite alloc_all_spec. simpl.
    rewrite (when_defined_keeps heap) by reflexivity. reflexivity.
  - rewrite (when_defined_keeps heap) by reflexivity.
    rewrite app_nil_r. reflexivity.
Qed.





(** ** Further properties *)

(** *** Writes that change nothing *)

Lemma set_heap_id (w : World) : set_heap (heap w) w = w.
Proof. destruct w; reflexivity. Qed.

Lemma store_same (l : loc) (g : CurveGroup.t) (w : World) :
  heap w !! l = Some g -> store l g w = w.
Proof. intros H. unfold store. rewrite list_insert_id by exact H. apply set_heap_id. Qed.

Lemma store_store (l : loc) (g g' : CurveGroup.t) (w : World) :
  store l g (store l g' w) = store l g w.
Proof. unfold store. simpl. rewrite list_insert_insert_eq. reflexivity. Qed.

Lemma active_group_store (l : loc) (g g' : CurveGroup.t) (w : World) :
  active_group w = Some (l, g) -> active_group (store l g' w) = Some (l, g').
Proof.
  intros H. apply active_group_inv in H. destruct H as [Ha Hg].
  apply active_group_Some; [exact Ha | apply (store_lookup l g' g w Hg)].
Qed.

Lemma upd_reference_same (f : ReferenceImage.t -> ReferenceImage.t) (w : World) :
  f (reference (this w)) = reference (this w) -> upd_reference f w = w.
Proof.
  destruct w as [h [cg a o d dr r] t m c ml ms co ls sf]. simpl.
  intros H. unfold upd_reference, upd_this. simpl. rewrite H. reflexivity.
Qed.

Lemma reference_onMouseDown_other_tool (tool : ToolTypes) (mouse : Point.t)
    (r : ReferenceImage.t) :
  tool <> TRANSFORM_REFERENCE -> reference_onMouseDown tool mouse r = r.
Proof.
  intros H. unfold reference_onMouseDown.
  destruct tool; try congruence; simpl; rewrite orb_true_r; reflexivity.
Qed.

Lemma call_reference_onMouseDown_other_tool (w : World) :
  activeTool w <> TRANSFORM_REFERENCE -> call_reference_onMouseDown w = w.
Proof.
  intros H. unfold call_reference_onMouseDown.
  apply upd_reference_same. apply reference_onMouseDown_other_tool. exact H.
Qed.

Lemma point_eta (p : Point.t) : Point.new (Point.x p) (Point.y p) = p.
Proof. destruct p; reflexivity. Qed.

Lemma list_snoc_cases {A : Type} (l : list A) :
  l = [] \/ exists pre a, l = pre ++ [a].
Proof. induction l using rev_ind; [left | right]; eauto. Qed.

(** *** Closing the path *)

(** X1: with at least two points in the active group, [syncLastPoint]
    writes the coordinates of the first point into the last one and nothing
    else: the path ends where it starts, the other points, the controls
    and the id stay; doing it again changes nothing more. *)
Theorem syncLastPoint_closes_path (w : World) (l : loc) (g : CurveGroup.t)
    (p0 : Point.t) :
  active_group w = Some (l, g) ->
  2 <= length (CurveGroup.points g) ->
  CurveGroup.points g !! 0 = Some p0 ->
  exists g',
    syncLastPoint w = store l g' w
    /\ CurveGroup.points g'
       = <[length (CurveGroup.points g) - 1 := p0]> (CurveGroup.points g)
    /\ CurveGroup.points g' !! 0 = Some p0
    /\ last (CurveGroup.points g') = Some p0
    /\ CurveGroup.controls g' = CurveGroup.controls g
    /\ CurveGroup.id g' = CurveGroup.id g
    /\ syncLastPoint (syncLastPoint w) = syncLastPoint w.
Proof.
  intros Ha Hlen H0.
  set (n := length (CurveGroup.points g)) in *.
  set (g' := CurveGroup.set_points (<[n - 1 := p0]> (CurveGroup.points g)) g).
  assert (is_Some (CurveGroup.points g !! (n - 1))) as [pl Hl].
  { apply lookup_lt_is_Some. unfold n. lia. }
  assert (syncLastPoint w = store l g' w) as Hsync.
  { unfold syncLastPoint. rewrite Ha. fold n.
    destruct (Nat.ltb_spec 1 n); [|lia].
    rewrite H0, Hl. rewrite point_eta. reflexivity. }
  assert (CurveGroup.points g' !! 0 = Some p0) as H0'.
  { simpl. rewrite list_lookup_insert_ne by lia. exact H0. }
  assert (CurveGroup.points g' !! (n - 1) = Some p0) as Hl'.
  { simpl. apply list_lookup_insert_eq. unfold n. lia. }
  exists g'. repeat split; try reflexivity.
  - exact Hsync.
  - exact H0'.
  - rewrite last_lookup. simpl. rewrite length_insert. fold n.
    replace (Nat.pred n) with (n - 1) by lia. exact Hl'.
  - rewrite Hsync. unfold syncLastPoint.
    rewrite (active_group_store l g g' w Ha).
    replace (length (CurveGroup.points g')) with n
      by (simpl; rewrite length_insert; reflexivity).
    destruct (Nat.ltb_spec 1 n); [|lia].
    rewrite H0', Hl', point_eta.
    rewrite store_store. f_equal. unfold g'. simpl.
    rewrite list_insert_insert_eq. reflexivity.
Qed.

Lemma syncLastPoint_closes_path_example :
  let w := world_with [close_points] ADD_POINTS (Point.new 0 0) in
  exists g',
    heap (syncLastPoint w) = [g']
    /\ CurveGroup.points g' = [Point.new 0 0; Point.new 2 2; Point.new 0 0]
    /\ CurveGroup.controls g' = CurveGroup.controls close_points.
Proof.
  cbv zeta.
  destruct (syncLastPoint_closes_path
              (world_with [close_points] ADD_POINTS (Point.new 0 0))
              0 close_points (Point.new 0 0))
    as (g' & Hs & Hp & _ & _ & Hc & _).
  - reflexivity.
  - simpl. lia.
  - reflexivity.
  - exists g'. rewrite Hs. repeat split; assumption.
Defined.

(** *** Adding a point and deleting it again *)

(** X2: with the ADD_POINTS tool, a pointer-down on the canvas followed by
    [deleteLastPoint] gives back the world as it was, when the active group
    has one control fewer than points (or neither): the point and the
    control the pointer-down created are exactly what the deletion pops. *)
Theorem deleteLastPoint_undoes_pointer_down (w : World) (l : loc)
    (g : CurveGroup.t) :
  activeTool w = ADD_POINTS ->
  active_group w = Some (l, g) ->
  on_canvas (mousePos w) ->
  counts_match g ->
  deleteLastPoint (handleMouseDown w) = w.
Proof.
  intros Ht Ha Hin Hc.
  rewrite (handleMouseDown_ADD_POINTS w l g Ht Ha).
  apply canvas_guard_false in Hin. rewrite Hin. cbv zeta.
  rewrite call_reference_onMouseDown_other_tool by (simpl; congruence).
  unfold deleteLastPoint.
  rewrite (active_group_store l g _ w Ha). simpl.
  rewrite length_app. simpl.
  destruct (Nat.ltb_spec 0 (length (CurveGroup.points g) + 1)); [|lia].
  rewrite store_store, removelast_last.
  apply store_same.
  apply active_group_inv in Ha. destruct Ha as [_ Hg]. rewrite Hg. f_equal.
  destruct g as [ps cs i]. unfold counts_match in Hc. simpl in *.
  destruct (list_snoc_cases ps) as [-> | (qs & q & ->)].
  - simpl. destruct cs; [reflexivity | simpl in Hc; lia].
  - rewrite <- app_assoc. simpl app. rewrite new_control_last_two.
    unfold CurveGroup.set_controls, CurveGroup.set_points. simpl.
    rewrite removelast_last. reflexivity.
Qed.

Lemma deleteLastPoint_undoes_pointer_down_example :
  let w := world_with [close_points] ADD_POINTS (Point.new 400 300) in
  deleteLastPoint (handleMouseDown w) = w.
Proof.
  apply (deleteLastPoint_undoes_pointer_down
           (world_with [close_points] ADD_POINTS (Point.new 400 300))
           0 close_points).
  - reflexivity.
  - reflexivity.
  - unfold on_canvas, canvasWidth, canvasHeight. simpl. lra.
  - reflexivity.
Defined.

(** *** Activating and deleting groups *)

Lemma find_first_match {A : Type} (f : A -> bool) (pre post : list A) (a : A) :
  f a = true -> (forall k, In k pre -> f k = false) ->
  List.find f (pre ++ a :: post) = Some a.
Proof.
  intros Ha Hpre. induction pre as [|k pre IH]; simpl.
  - rewrite Ha. reflexivity.
  - rewrite (Hpre k) by (left; reflexivity).
    apply IH. intros k' Hk'. apply Hpre. right. exact Hk'.
Qed.

(** X3: [setActiveGroupId] makes the first group of the collection that
    has the id the active one, also when a later group has the same id,
    and writes nothing else. *)
Theorem setActiveGroupId_activates_first_match (id : string) (w : World)
    (pre post : list loc) (l : loc) :
  curveGroups (this w) = pre ++ l :: post ->
  has_id w id l = true ->
  (forall k, In k pre -> has_id w id k = false) ->
  setActiveGroupId id w = upd_this (set_activeCurveGroup (Some l)) w
  /\ active_has_id (setActiveGroupId id w) id = true
  /\ active_in_collection (setActiveGroupId id w).
Proof.
  intros Hc Hl Hpre.
  assert (setActiveGroupId id w = upd_this (set_activeCurveGroup (Some l)) w) as E.
  { unfold setActiveGroupId. rewrite Hc.
    rewrite (find_first_match _ pre post l Hl Hpre). reflexivity. }
  rewrite E. split; [reflexivity|]. split.
  - unfold active_has_id. simpl. exact Hl.
  - unfold active_in_collection. simpl. rewrite Hc.
    apply in_or_app. right. left. reflexivity.
Qed.

Lemma setActiveGroupId_activates_first_match_example :
  let w := createGroup "a" (createGroup "b" (createGroup "a" initialWorld)) in
  activeCurveGroup (this w) = Some 2
  /\ setActiveGroupId "a" w = upd_this (set_activeCurveGroup (Some 0)) w
  /\ active_has_id (setActiveGroupId "a" w) "a" = true
  /\ active_in_collection (setActiveGroupId "a" w).
Proof.
  cbv zeta. split; [reflexivity|].
  apply (setActiveGroupId_activates_first_match "a"
           (createGroup "a" (createGroup "b" (createGroup "a" initialWorld)))
           [] [1; 2] 0).
  - reflexivity.
  - reflexivity.
  - intros k [].
Defined.

(** X4: [setActiveGroupId] with an id that no group of the collection has
    logs one warning and leaves the store, the helper (the active group
    with it) and everything else as they are. *)
Theorem setActiveGroupId_unknown_id (id : string) (w : World) :
  (forall k, In k (curveGroups (this w)) -> has_id w id k = false) ->
  setActiveGroupId id w
  = console_log ("Unable to find curve group; Id: " +:+ id) w.
Proof.
  intros H. unfold setActiveGroupId.
  destruct (List.find (has_id w id) (curveGroups (this w))) as [l|] eqn:E;
    [|reflexivity].
  apply find_some in E. destruct E as [Hin Hl].
  rewrite (H l Hin) in Hl. discriminate.
Qed.

Lemma setActiveGroupId_unknown_id_example :
  let w := createGroup "a" initialWorld in
  this (setActiveGroupId "b" w) = this w
  /\ console (setActiveGroupId "b" w) = ["Unable to find curve group; Id: b"].
Proof.
  cbv zeta.
  rewrite (setActiveGroupId_unknown_id "b" (createGroup "a" initialWorld)).
  - split; reflexivity.
  - intros k [<- | []]. reflexivity.
Defined.

Lemma has_id_old_location (id : string) (w : World) (g : CurveGroup.t) (l : loc) :
  l < length (heap w) ->
  has_id (set_heap (heap w ++ [g]) w) id l = has_id w id l.
Proof.
  intros H. unfold has_id. simpl. rewrite lookup_app_l by exact H. reflexivity.
Qed.

Lemma omap_lookup_app {A : Type} (h h' : list A) (ls : list loc) :
  Forall (fun l => l < length h) ls ->
  omap (fun l => (h ++ h') !! l) ls = omap (fun l => h !! l) ls.
Proof.
  induction 1 as [|l ls Hl _ IH]; [reflexivity|].
  change (match (h ++ h') !! l with
          | Some y => y :: omap (fun l => (h ++ h') !! l) ls
          | None => omap (fun l => (h ++ h') !! l) ls
          end
          = match h !! l with
            | Some y => y :: omap (fun l => h !! l) ls
            | None => omap (fun l => h !! l) ls
            end).
  rewrite lookup_app_l by exact Hl.
  destruct (h !! l); [f_equal|]; exact IH.
Qed.

(** X5: creating a group with an id that no group of the collection has
    and then deleting the group with that id gives back the collection and
    its groups as they were, but not the active group: no group is active
    afterwards, whichever group was active before. *)
Theorem deleteGroup_after_createGroup (id : string) (w : World) :
  collection_in_store w ->
  (forall l, In l (curveGroups (this w)) -> has_id w id l = false) ->
  let w' := deleteGroup id (createGroup id w) in
  curveGroups (this w') = curveGroups (this w)
  /\ groups w' = groups w
  /\ activeCurveGroup (this w') = None.
Proof.
  intros Hwf Hfresh w'.
  assert (curveGroups (this w') = curveGroups (this w)) as Hc.
  { unfold w'. rewrite deleteGroup_curveGroups. simpl.
    rewrite List.filter_app. simpl.
    unfold has_id at 2. simpl. rewrite list_lookup_middle by reflexivity.
    simpl. rewrite String.eqb_refl. simpl. rewrite app_nil_r.
    apply forallb_filter_id. apply forallb_forall. intros l Hl.
    unfold collection_in_store in Hwf.
    rewrite Forall_forall in Hwf.
    assert (l < length (heap w)) as Hlt
      by (apply Hwf; apply list_elem_of_In; exact Hl).
    unfold has_id. simpl. rewrite lookup_app_l by exact Hlt.
    change (negb (has_id w id l) = true).
    rewrite (Hfresh l Hl). reflexivity. }
  split; [exact Hc|]. split.
  - unfold groups. rewrite Hc.
    assert (heap w' = heap w ++ [CurveGroup.new id]) as Hh.
    { unfold w', deleteGroup. destruct (active_has_id _ id); reflexivity. }
    rewrite Hh. apply omap_lookup_app. exact Hwf.
  - unfold w'. rewrite deleteGroup_active.
    unfold active_has_id, has_id. simpl.
    rewrite list_lookup_middle by reflexivity. simpl.
    rewrite String.eqb_refl. reflexivity.
Qed.

Lemma deleteGroup_after_createGroup_example :
  let w := createGroup "a" initialWorld in
  let w' := deleteGroup "b" (createGroup "b" w) in
  activeCurveGroup (this w) = Some 0
  /\ curveGroups (this w') = curveGroups (this w)
  /\ groups w' = groups w
  /\ activeCurveGroup (this w') = None.
Proof.
  cbv zeta. split; [reflexivity|].
  apply (deleteGroup_after_createGroup "b" (createGroup "a" initialWorld)).
  - repeat constructor.
  - intros l [<- | []]. reflexivity.
Defined.

(** *** Picking with the edit tools *)

Lemma in_pick_range_iff (mouse p : Point.t) (half : R) :
  in_pick_range (Point.x mouse) (Point.y mouse) p half = true
  <-> in_box mouse p half.
Proof.
  unfold in_pick_range, in_box, js_gt.
  rewrite !andb_true_iff, !js_lt_iff. tauto.
Qed.

Lemma in_pick_range_false (mouse p : Point.t) (half : R) :
  ~ in_box mouse p half ->
  in_pick_range (Point.x mouse) (Point.y mouse) p half = false.
Proof.
  intros H. destruct (in_pick_range _ _ p half) eqn:E; [|reflexivity].
  apply in_pick_range_iff in E. contradiction.
Qed.

Lemma search_points_miss (mouse : Point.t) (points : list Point.t) :
  forall (i : nat) (w : World),
    (forall p, In p points ->
               ~ in_box mouse p (pointRangeHalf (display (this w)))) ->
    search_points i points (Point.x mouse) (Point.y mouse) w = w.
Proof.
  induction points as [|p rest IH]; intros i w H; simpl; [reflexivity|].
  rewrite in_pick_range_false by (apply H; left; reflexivity).
  apply IH. intros q Hq. apply H. right. exact Hq.
Qed.

Lemma search_points_hit (mouse : Point.t) (pre post : list Point.t) (p : Point.t) :
  forall (i : nat) (w : World),
    (forall q, In q pre ->
               ~ in_box mouse q (pointRangeHalf (display (this w)))) ->
    in_box mouse p (pointRangeHalf (display (this w))) ->
    search_points i (pre ++ p :: post) (Point.x mouse) (Point.y mouse) w
    = upd_drag (start_dragPoint (i + length pre) (Point.x mouse) (Point.y mouse)) w.
Proof.
  induction pre as [|q pre IH]; intros i w Hpre Hp; simpl.
  - rewrite (proj2 (in_pick_range_iff mouse p _) Hp), Nat.add_0_r. reflexivity.
  - rewrite in_pick_range_false by (apply Hpre; left; reflexivity).
    rewrite IH; [|intros q' Hq'; apply Hpre; right; exact Hq' | exact Hp].
    replace (S i + length pre) with (i + S (length pre)) by lia. reflexivity.
Qed.

(** The points before index [i] are those at the smaller indices. *)
Lemma in_take_lookup {A : Type} (l : list A) (i : nat) (a : A) :
  In a (take i l) -> exists k, k < i /\ l !! k = Some a.
Proof.
  intros H. apply list_elem_of_In, list_elem_of_lookup in H. destruct H as [k Hk].
  apply lookup_take_Some in Hk. destruct Hk as [Hk Hlt]. eauto.
Qed.

Lemma in_drop_lookup {A : Type} (l : list A) (i : nat) (a : A) :
  In a (drop (S i) l) -> exists k, i < k /\ l !! k = Some a.
Proof.
  intros H. apply list_elem_of_In, list_elem_of_lookup in H. destruct H as [k Hk].
  rewrite lookup_drop in Hk. exists (S i + k). split; [lia | exact Hk].
Qed.

Lemma in_lookup {A : Type} (l : list A) (a : A) :
  In a l -> exists k, l !! k = Some a.
Proof.
  intros H. apply list_elem_of_In, list_elem_of_lookup in H. exact H.
Qed.

(** A pointer-down with EDIT_POINTS on the point at index [i], no earlier
    point being in range. *)
Lemma handleMouseDown_EDIT_POINTS_hit (w : World) (l : loc) (g : CurveGroup.t)
    (i : nat) (p : Point.t) :
  activeTool w = EDIT_POINTS ->
  active_group w = Some (l, g) ->
  CurveGroup.points g !! i = Some p ->
  in_box (mousePos w) p (pointRangeHalf (display (this w))) ->
  (forall k q, k < i -> CurveGroup.points g !! k = Some q ->
               ~ in_box (mousePos w) q (pointRangeHalf (display (this w)))) ->
  handleMouseDown w
  = upd_drag (start_dragPoint i (Point.x (mousePos w)) (Point.y (mousePos w))) w.
Proof.
  intros Ht Ha Hp Hin Hpre. unfold handleMouseDown. rewrite Ht, Ha.
  rewrite <- (take_drop_middle _ _ _ Hp).
  rewrite search_points_hit.
  - rewrite call_reference_onMouseDown_other_tool by (simpl; congruence).
    rewrite length_take_le by (apply lookup_lt_Some in Hp; lia).
    reflexivity.
  - intros q Hq. apply in_take_lookup in Hq. destruct Hq as (k & Hk & Hq).
    exact (Hpre k q Hk Hq).
  - exact Hin.
Qed.

Lemma handleMouseDown_EDIT_POINTS_miss (w : World) (l : loc) (g : CurveGroup.t) :
  activeTool w = EDIT_POINTS ->
  active_group w = Some (l, g) ->
  (forall i p, CurveGroup.points g !! i = Some p ->
               ~ in_box (mousePos w) p (pointRangeHalf (display (this w)))) ->
  handleMouseDown w = w.
Proof.
  intros Ht Ha Hmiss. unfold handleMouseDown. rewrite Ht, Ha.
  rewrite search_points_miss.
  - apply call_reference_onMouseDown_other_tool. congruence.
  - intros p Hp. apply in_lookup in Hp. destruct Hp as [k Hk].
    exact (Hmiss k p Hk).
Qed.

(** X6: a pointer-down with the EDIT_POINTS tool records the first point
    of the active group, in index order, whose open box of half-size
    [pointRangeHalf] contains the pointer, with the pointer position as the
    anchor, and writes nothing else; when no point is in range it changes
    nothing. *)
Theorem EDIT_POINTS_picks_first_point_in_range (w : World) (l : loc)
    (g : CurveGroup.t) :
  activeTool w = EDIT_POINTS ->
  active_group w = Some (l, g) ->
  let half := pointRangeHalf (display (this w)) in
  (forall i p,
      CurveGroup.points g !! i = Some p ->
      in_box (mousePos w) p half ->
      (forall k q, k < i -> CurveGroup.points g !! k = Some q ->
                   ~ in_box (mousePos w) q half) ->
      handleMouseDown w
      = upd_drag (start_dragPoint i (Point.x (mousePos w)) (Point.y (mousePos w))) w)
  /\ ((forall i p, CurveGroup.points g !! i = Some p ->
                   ~ in_box (mousePos w) p half) ->
      handleMouseDown w = w).
Proof.
  intros Ht Ha half. split.
  - intros i p. apply (handleMouseDown_EDIT_POINTS_hit w l g i p); assumption.
  - apply (handleMouseDown_EDIT_POINTS_miss w l g); assumption.
Qed.

Lemma EDIT_POINTS_picks_first_point_in_range_example :
  let w := world_with [close_points] EDIT_POINTS (Point.new 3 3) in
  handleMouseDown w = upd_drag (start_dragPoint 0 3 3) w
  /\ handleMouseDown (set_mousePos (Point.new 100 100) w)
     = set_mousePos (Point.new 100 100) w.
Proof.
  cbv zeta. split.
  - destruct (EDIT_POINTS_picks_first_point_in_range
                (world_with [close_points] EDIT_POINTS (Point.new 3 3))
                0 close_points eq_refl eq_refl) as [Hhit _].
    apply (Hhit 0 (Point.new 0 0)).
    + reflexivity.
    + unfold in_box. simpl. lra.
    + intros k q Hk. lia.
  - destruct (EDIT_POINTS_picks_first_point_in_range
                (set_mousePos (Point.new 100 100)
                   (world_with [close_points] EDIT_POINTS (Point.new 3 3)))
                0 close_points eq_refl eq_refl) as [_ Hmiss].
    apply Hmiss. intros i p Hp. unfold in_box. simpl.
    destruct i as [|[|[|i]]]; simpl in Hp; try discriminate;
      injection Hp as <-; simpl; lra.
Defined.

Lemma search_control_points_of_control (i : nat) (c : Control.t)
    (mouseX mouseY : R) (w : World) :
  search_control_points i 0 (Control.points c) mouseX mouseY w
  = if in_pick_range mouseX mouseY (Control.point1 c)
         (pointRangeHalf (display (this w)))
    then upd_drag (start_dragControl i 0 mouseX mouseY) w
    else if in_pick_range mouseX mouseY (Control.point2 c)
              (pointRangeHalf (display (this w)))
    then upd_drag (start_dragControl i 1 mouseX mouseY) w
    else w.
Proof. reflexivity. Qed.

Lemma search_controls_miss (mouse : Point.t) (controls : list Control.t) :
  forall (i : nat) (w : World),
    (forall c, In c controls ->
       ~ in_box mouse (Control.point1 c) (pointRangeHalf (display (this w)))
       /\ ~ in_box mouse (Control.point2 c) (pointRangeHalf (display (this w)))) ->
    search_controls i controls (Point.x mouse) (Point.y mouse) w = w.
Proof.
  induction controls as [|c rest IH]; intros i w H; [reflexivity|].
  cbn [search_controls]. rewrite search_control_points_of_control.
  destruct (H c) as [H1 H2]; [left; reflexivity|].
  rewrite (in_pick_range_false mouse _ _ H1), (in_pick_range_false mouse _ _ H2).
  apply IH. intros c' Hc'. apply H. right. exact Hc'.
Qed.

Lemma start_dragControl_overwrites (i j i' j' : nat) (mouseX mouseY : R)
    (w : World) :
  upd_drag (start_dragControl i j mouseX mouseY)
           (upd_drag (start_dragControl i' j' mouseX mouseY) w)
  = upd_drag (start_dragControl i j mouseX mouseY) w.
Proof. reflexivity. Qed.

Lemma search_controls_last_hit (mouse : Point.t) (post : list Control.t)
    (c : Control.t) (pre : list Control.t) :
  forall (i : nat) (w : World),
    in_box mouse (Control.point1 c) (pointRangeHalf (display (this w)))
    \/ in_box mouse (Control.point2 c) (pointRangeHalf (display (this w))) ->
    (forall c', In c' post ->
       ~ in_box mouse (Control.point1 c') (pointRangeHalf (display (this w)))
       /\ ~ in_box mouse (Control.point2 c') (pointRangeHalf (display (this w)))) ->
    search_controls i (pre ++ c :: post) (Point.x mouse) (Point.y mouse) w
    = upd_drag
        (start_dragControl (i + length pre)
           (if in_pick_range (Point.x mouse) (Point.y mouse) (Control.point1 c)
                 (pointRangeHalf (display (this w)))
            then 0 else 1)
           (Point.x mouse) (Point.y mouse)) w.
Proof.
  induction pre as [|k pre IH]; intros i w Hc Hpost; cbn [app search_controls].
  - rewrite search_control_points_of_control, Nat.add_0_r.
    destruct (in_pick_range _ _ (Control.point1 c) _) eqn:E1.
    + apply search_controls_miss. exact Hpost.
    + destruct Hc as [Hc|Hc].
      * apply in_pick_range_iff in Hc. congruence.
      * rewrite (proj2 (in_pick_range_iff mouse _ _) Hc).
        apply search_controls_miss. exact Hpost.
  - destruct (search_control_points_result (Point.x mouse) (Point.y mouse) i
                (Control.points k) 0 w) as [-> | [j ->]].
    + rewrite IH by assumption.
      replace (S i + length pre) with (i + S (length pre)) by lia. reflexivity.
    + rewrite IH by assumption.
      rewrite start_dragControl_overwrites.
      replace (S i + length pre) with (i + S (length pre)) by lia. reflexivity.
Qed.

Lemma handleMouseDown_EDIT_CONTROLS_hit (w : World) (l : loc) (g : CurveGroup.t)
    (i : nat) (c : Control.t) :
  activeTool w = EDIT_CONTROLS ->
  active_group w = Some (l, g) ->
  CurveGroup.controls g !! i = Some c ->
  in_box (mousePos w) (Control.point1 c) (pointRangeHalf (display (this w)))
  \/ in_box (mousePos w) (Control.point2 c) (pointRangeHalf (display (this w))) ->
  (forall k c', i < k -> CurveGroup.controls g !! k = Some c' ->
     ~ in_box (mousePos w) (Control.point1 c') (pointRangeHalf (display (this w)))
     /\ ~ in_box (mousePos w) (Control.point2 c') (pointRangeHalf (display (this w)))) ->
  handleMouseDown w
  = upd_drag
      (start_dragControl i
         (if in_pick_range (Point.x (mousePos w)) (Point.y (mousePos w))
               (Control.point1 c) (pointRangeHalf (display (this w)))
          then 0 else 1)
         (Point.x (mousePos w)) (Point.y (mousePos w))) w.
Proof.
  intros Ht Ha Hc Hin Hpost. unfold handleMouseDown. rewrite Ht, Ha.
  rewrite <- (take_drop_middle _ _ _ Hc).
  rewrite search_controls_last_hit.
  - rewrite call_reference_onMouseDown_other_tool by (simpl; congruence).
    rewrite length_take_le by (apply lookup_lt_Some in Hc; lia).
    reflexivity.
  - exact Hin.
  - intros c' Hc'. apply in_drop_lookup in Hc'. destruct Hc' as (k & Hk & Hc').
    exact (Hpost k c' Hk Hc').
Qed.

Lemma handleMouseDown_EDIT_CONTROLS_miss (w : World) (l : loc) (g : CurveGroup.t) :
  activeTool w = EDIT_CONTROLS ->
  active_group w = Some (l, g) ->
  (forall i c, CurveGroup.controls g !! i = Some c ->
     ~ in_box (mousePos w) (Control.point1 c) (pointRangeHalf (display (this w)))
     /\ ~ in_box (mousePos w) (Control.point2 c) (pointRangeHalf (display (this w)))) ->
  handleMouseDown w = w.
Proof.
  intros Ht Ha Hmiss. unfold handleMouseDown. rewrite Ht, Ha.
  rewrite search_controls_miss.
  - apply call_reference_onMouseDown_other_tool. congruence.
  - intros c Hc. apply in_lookup in Hc. destruct Hc as [k Hk].
    exact (Hmiss k c Hk).
Qed.

(** X7: a pointer-down with the EDIT_CONTROLS tool records, with the
    pointer position as the anchor, an endpoint of the last control of the
    active group, in index order, that has an endpoint in range of the
    pointer: its first endpoint when that one is in range, its second
    otherwise.  Controls before it do not matter, and nothing else is
    written; when no endpoint of any control is in range the pointer-down
    changes nothing. *)
Theorem EDIT_CONTROLS_picks_in_last_control_in_range (w : World) (l : loc)
    (g : CurveGroup.t) :
  activeTool w = EDIT_CONTROLS ->
  active_group w = Some (l, g) ->
  let half := pointRangeHalf (display (this w)) in
  let mouseX := Point.x (mousePos w) in
  let mouseY := Point.y (mousePos w) in
  (forall i c,
      CurveGroup.controls g !! i = Some c ->
      (forall k c', i < k -> CurveGroup.controls g !! k = Some c' ->
         ~ in_box (mousePos w) (Control.point1 c') half
         /\ ~ in_box (mousePos w) (Control.point2 c') half) ->
      (in_box (mousePos w) (Control.point1 c) half ->
       handleMouseDown w = upd_drag (start_dragControl i 0 mouseX mouseY) w)
      /\ (~ in_box (mousePos w) (Control.point1 c) half ->
          in_box (mousePos w) (Control.point2 c) half ->
          handleMouseDown w = upd_drag (start_dragControl i 1 mouseX mouseY) w))
  /\ ((forall i c, CurveGroup.controls g !! i = Some c ->
         ~ in_box (mousePos w) (Control.point1 c) half
         /\ ~ in_box (mousePos w) (Control.point2 c) half) ->
      handleMouseDown w = w).
Proof.
  intros Ht Ha half mouseX mouseY. subst half mouseX mouseY. split.
  - intros i c Hc Hpost. split.
    + intros H1.
      rewrite (handleMouseDown_EDIT_CONTROLS_hit w l g i c Ht Ha Hc (or_introl H1) Hpost).
      rewrite (proj2 (in_pick_range_iff (mousePos w) _ _) H1). reflexivity.
    + intros H1 H2.
      rewrite (handleMouseDown_EDIT_CONTROLS_hit w l g i c Ht Ha Hc (or_intror H2) Hpost).
      rewrite (in_pick_range_false (mousePos w) _ _ H1). reflexivity.
  - apply (handleMouseDown_EDIT_CONTROLS_miss w l g); assumption.
Qed.

Lemma EDIT_CONTROLS_picks_in_last_control_in_range_example :
  let w := world_with [close_handles] EDIT_CONTROLS (Point.new 101 101) in
  handleMouseDown w = upd_drag (start_dragControl 0 1 101 101) w.
Proof.
  cbv zeta.
  destruct (EDIT_CONTROLS_picks_in_last_control_in_range
              (world_with [close_handles] EDIT_CONTROLS (Point.new 101 101))
              0 close_handles eq_refl eq_refl) as [Hhit _].
  destruct (Hhit 0 (Control.new 0 0 100 100)) as [_ H2].
  - reflexivity.
  - intros k c' Hk Hc'. unfold in_box. simpl.
    destruct k as [|[|k]]; simpl in Hc'; try discriminate; [lia|].
    injection Hc' as <-. simpl. lra.
  - apply H2; unfold in_box; simpl; lra.
Defined.

(** *** Whole drags: press, move, release *)

Lemma active_group_ext (w w' : World) :
  heap w' = heap w -> this w' = this w -> active_group w' = active_group w.
Proof. intros Hh Ht. unfold active_group. rewrite Hh, Ht. reflexivity. Qed.

(** The pointer-up that ends a drag of point [i] anchored at [a]. *)
Lemma handleMouseUp_EDIT_POINTS (w : World) (l : loc) (g : CurveGroup.t)
    (i : nat) (a p : Point.t) :
  activeTool w = EDIT_POINTS ->
  active_group w = Some (l, g) ->
  dragPoint (drag (this w)) = Some i ->
  dragStart (drag (this w)) = Some a ->
  CurveGroup.points g !! i = Some p ->
  handleMouseUp w
  = Some (call_reference_onMouseUp
            (upd_drag (fun d => mkDrag None None (dragControl d) (dragOrigin d))
               (store l
                  (CurveGroup.set_points
                     (<[i := Point.new
                               (Point.x p + (Point.x (mousePos w) - Point.x a))
                               (Point.y p + (Point.y (mousePos w) - Point.y a))]>
                        (CurveGroup.points g)) g) w))).
Proof.
  intros Ht Ha Hi Hs Hp. unfold handleMouseUp. rewrite Ht, Ha, Hi, Hs, Hp.
  reflexivity.
Qed.



(** The pointer-up that ends a drag of endpoint [j] of control [i]. *)
Lemma handleMouseUp_EDIT_CONTROLS (w : World) (l : loc) (g : CurveGroup.t)
    (i j : nat) (a p : Point.t) (c : Control.t) :
  activeTool w = EDIT_CONTROLS ->
  active_group w = Some (l, g) ->
  dragControl (drag (this w)) = Some (i, j) ->
  dragStart (drag (this w)) = Some a ->
  CurveGroup.controls g !! i = Some c ->
  Control.points c !! j = Some p ->
  handleMouseUp w
  = Some (call_reference_onMouseUp
            (upd_drag (fun d => mkDrag None (dragPoint d) None (dragOrigin d))
               (store l
                  (CurveGroup.set_controls
                     (<[i := Control.set_point j
                               (Point.new
                                  (Point.x p + (Point.x (mousePos w) - Point.x a))
                                  (Point.y p + (Point.y (mousePos w) - Point.y a)))
                               c]>
                        (CurveGroup.controls g)) g) w))).
Proof.
  intros Ht Ha Hi Hs Hc Hp. unfold handleMouseUp. rewrite Ht, Ha, Hi, Hs, Hc, Hp.
  reflexivity.
Qed.

(** X9: pressing with the EDIT_CONTROLS tool within range of an endpoint of
    a control of the active group (no later control being in range), any
    update passes and pointer moves, then releasing: the release does not
    throw and moves the endpoint the press recorded (the first endpoint of
    that control when in range, the second otherwise) by the displacement of
    the pointer; the other endpoint, the other controls, all points and the
    origin stay, and the drag is cleared. *)
Theorem EDIT_CONTROLS_drag_moves_the_endpoint (w : World) (es : list FrameEvent)
    (l : loc) (g : CurveGroup.t) (i : nat) (c : Control.t) :
  activeTool w = EDIT_CONTROLS ->
  active_group w = Some (l, g) ->
  CurveGroup.controls g !! i = Some c ->
  in_box (mousePos w) (Control.point1 c) (pointRangeHalf (display (this w)))
  \/ in_box (mousePos w) (Control.point2 c) (pointRangeHalf (display (this w))) ->
  (forall k c', i < k -> CurveGroup.controls g !! k = Some c' ->
     ~ in_box (mousePos w) (Control.point1 c') (pointRangeHalf (display (this w)))
     /\ ~ in_box (mousePos w) (Control.point2 c') (pointRangeHalf (display (this w)))) ->
  let w2 := run_frame_events es (handleMouseDown w) in
  let moved (p : Point.t) :=
    Point.new (Point.x p + (Point.x (mousePos w2) - Point.x (mousePos w)))
              (Point.y p + (Point.y (mousePos w2) - Point.y (mousePos w))) in
  let c' :=
    if in_pick_range (Point.x (mousePos w)) (Point.y (mousePos w))
         (Control.point1 c) (pointRangeHalf (display (this w)))
    then Control.make (moved (Control.point1 c)) (Control.point2 c)
    else Control.make (Control.point1 c) (moved (Control.point2 c)) in
  exists w3,
    handleMouseUp w2 = Some w3
    /\ heap w3
       = <[l := CurveGroup.set_controls (<[i := c']> (CurveGroup.controls g)) g]>
           (heap w)
    /\ originPos (this w3) = originPos (this w)
    /\ dragControl (drag (this w3)) = None
    /\ dragStart (drag (this w3)) = None.
Proof.
  intros Ht Ha Hc Hin Hpost w2 moved c'.
  pose proof (handleMouseDown_EDIT_CONTROLS_hit w l g i c Ht Ha Hc Hin Hpost) as Hdown.
  destruct (run_frame_events_state es (handleMouseDown w)) as (Hh & Hthis & Htool).
  fold w2 in Hh, Hthis, Htool. rewrite Hdown in Hh, Hthis, Htool.
  simpl in Hh, Htool.
  assert (active_group w2 = Some (l, g)) as Ha2.
  { rewrite <- Ha. unfold active_group. rewrite Hh, Hthis. reflexivity. }
  assert (dragStart (drag (this w2)) = Some (mousePos w)) as Hs
    by (rewrite Hthis; simpl; rewrite point_eta; reflexivity).
  unfold c'.
  destruct (in_pick_range _ _ (Control.point1 c) _) eqn:E.
  - eexists. split.
    + apply (handleMouseUp_EDIT_CONTROLS w2 l g i 0 (mousePos w)
               (Control.point1 c) c); try assumption; try reflexivity.
      * congruence.
      * rewrite Hthis. reflexivity.
    + simpl. rewrite Hh, Hthis. simpl. repeat split.
  - eexists. split.
    + apply (handleMouseUp_EDIT_CONTROLS w2 l g i 1 (mousePos w)
               (Control.point2 c) c); try assumption; try reflexivity.
      * congruence.
      * rewrite Hthis. reflexivity.
    + simpl. rewrite Hh, Hthis. simpl. repeat split.
Qed.

Lemma EDIT_CONTROLS_drag_moves_the_endpoint_example :
  let w := world_with [close_handles] EDIT_CONTROLS (Point.new 101 101) in
  let w2 :=
    run_frame_events [PointerMove (Point.new 0 0) (mkMouseEvent 111 121); Tick]
                     (handleMouseDown w) in
  exists w3 g',
    handleMouseUp w2 = Some w3
    /\ heap w3 = [g']
    /\ CurveGroup.points g' = CurveGroup.points close_handles
    /\ CurveGroup.controls g'
       = [Control.make (Point.new 0 0)
            (Point.new (100 + (Point.x (mousePos w2) - 101))
                       (100 + (Point.y (mousePos w2) - 101)));
          Control.new 2 2 200 200].
Proof.
  cbv zeta.
  destruct (EDIT_CONTROLS_drag_moves_the_endpoint
              (world_with [close_handles] EDIT_CONTROLS (Point.new 101 101))
              [PointerMove (Point.new 0 0) (mkMouseEvent 111 121); Tick]
              0 close_handles 0 (Control.new 0 0 100 100))
    as (w3 & Hup & Hheap & _).
  - reflexivity.
  - reflexivity.
  - reflexivity.
  - right. unfold in_box. simpl. lra.
  - intros k c' Hk Hc'. unfold in_box. simpl.
    destruct k as [|[|k]]; simpl in Hc'; try discriminate; [lia|].
    injection Hc' as <-. simpl. lra.
  - exists w3. eexists. split; [exact Hup|]. split; [exact Hheap|].
    split; [reflexivity|]. simpl. unfold in_pick_range. simpl. js_compare.
    reflexivity.
Defined.

(** X10: with the EDIT_ORIGIN_POINT tool, a press inside the open box of
    half-size 32 around the origin point, any update passes and pointer
    moves, then the release move the origin point by the displacement of
    the pointer and nothing else, and end the drag; a press outside that
    box changes nothing. *)
Theorem EDIT_ORIGIN_POINT_drag_moves_the_origin (w : World)
    (es : list FrameEvent) :
  activeTool w = EDIT_ORIGIN_POINT ->
  (in_box (mousePos w) (originPos (this w)) 32 ->
   let w2 := run_frame_events es (handleMouseDown w) in
   exists w3,
     handleMouseUp w2 = Some w3
     /\ originPos (this w3)
        = Point.new
            (Point.x (originPos (this w))
             + (Point.x (mousePos w2) - Point.x (mousePos w)))
            (Point.y (originPos (this w))
             + (Point.y (mousePos w2) - Point.y (mousePos w)))
     /\ heap w3 = heap w
     /\ dragOrigin (drag (this w3)) = false
     /\ dragStart (drag (this w3)) = None)
  /\ (~ in_box (mousePos w) (originPos (this w)) 32 -> handleMouseDown w = w).
Proof.
  intros Ht.
  assert (originSizeHalf = 32%R) as Hhalf by (unfold originSizeHalf, originSize; lra).
  split.
  - intros Hin w2.
    assert (handleMouseDown w
            = upd_drag (start_dragOrigin (Point.x (mousePos w)) (Point.y (mousePos w))) w)
      as Hdown.
    { unfold handleMouseDown. rewrite Ht.
      fold (in_pick_range (Point.x (mousePos w)) (Point.y (mousePos w))
              (originPos (this w)) originSizeHalf).
      rewrite Hhalf.
      rewrite (proj2 (in_pick_range_iff (mousePos w) _ _) Hin).
      apply call_reference_onMouseDown_other_tool. simpl. congruence. }
    destruct (run_frame_events_state es (handleMouseDown w)) as (Hh & Hthis & Htool).
    fold w2 in Hh, Hthis, Htool. rewrite Hdown in Hh, Hthis, Htool.
    simpl in Hh, Htool.
    eexists. split.
    + unfold handleMouseUp. rewrite Htool, Ht, Hthis. simpl. reflexivity.
    + simpl. rewrite ?Hthis, ?Hh. simpl. repeat split.
  - intros Hout. unfold handleMouseDown. rewrite Ht.
    fold (in_pick_range (Point.x (mousePos w)) (Point.y (mousePos w))
            (originPos (this w)) originSizeHalf).
    rewrite Hhalf.
    rewrite (in_pick_range_false (mousePos w) _ _ Hout).
    apply call_reference_onMouseDown_other_tool. congruence.
Qed.

Lemma EDIT_ORIGIN_POINT_drag_moves_the_origin_example :
  let w := world_with [] EDIT_ORIGIN_POINT (Point.new 10 (-20)) in
  let w2 :=
    run_frame_events [PointerMove (Point.new 0 0) (mkMouseEvent 50 60); Tick]
                     (handleMouseDown w) in
  exists w3,
    handleMouseUp w2 = Some w3
    /\ originPos (this w3)
       = Point.new (0 + (Point.x (mousePos w2) - 10))
                   (0 + (Point.y (mousePos w2) - (-20))).
Proof.
  cbv zeta.
  destruct (EDIT_ORIGIN_POINT_drag_moves_the_origin
              (world_with [] EDIT_ORIGIN_POINT (Point.new 10 (-20)))
              [PointerMove (Point.new 0 0) (mkMouseEvent 50 60); Tick] eq_refl)
    as [Hdrag _].
  destruct Hdrag as (w3 & Hup & Ho & _).
  - unfold in_box. simpl. lra.
  - exists w3. split; [exact Hup | exact Ho].
Defined.

(** X11: a pointer-up while the drag variables name no drag does not
    throw and leaves every point, every control, the origin point and the
    drag variables as they are, whatever the tool. *)
Theorem handleMouseUp_without_drag (w : World) :
  no_drag (drag (this w)) ->
  exists w',
    handleMouseUp w = Some w'
    /\ committed w' = committed w
    /\ drag (this w') = drag (this w)
    /\ curveGroups (this w') = curveGroups (this w)
    /\ activeCurveGroup (this w') = activeCurveGroup (this w).
Proof.
  intros (Hp & Hc & Ho). unfold handleMouseUp.
  destruct (activeTool w).
  - eexists. split; [reflexivity|]. repeat split.
  - eexists. split; [reflexivity|]. repeat split.
  - eexists. split; [reflexivity|]. repeat split.
  - rewrite Hp. exists w.
    destruct (active_group w) as [[l g]|]; repeat split.
  - rewrite Hc. exists w.
    destruct (active_group w) as [[l g]|]; repeat split.
  - rewrite Ho. eexists. split; [reflexivity|]. repeat split.
Qed.

Lemma handleMouseUp_without_drag_example :
  let w := world_with [close_points] EDIT_POINTS (Point.new 500 500) in
  exists w',
    handleMouseUp w = Some w'
    /\ committed w' = committed w
    /\ drag (this w') = drag (this w)
    /\ curveGroups (this w') = curveGroups (this w)
    /\ activeCurveGroup (this w') = activeCurveGroup (this w).
Proof.
  apply (handleMouseUp_without_drag
           (world_with [close_points] EDIT_POINTS (Point.new 500 500))).
  repeat split.
Defined.

(** *** When the update pass completes and when it stops the main loop *)

Lemma point_position_is_Some (w : World) (j : nat) (p : Point.t) :
  drag_anchored (drag (this w)) -> is_Some (point_position w j p).
Proof.
  intros H. unfold point_position.
  destruct (ToolTypes_eqb _ _); [|eexists; reflexivity].
  destruct H as [(Hp & _ & _) | [a Ha]].
  - rewrite Hp. eexists. reflexivity.
  - rewrite Ha. destruct (dragPoint _) as [k|]; [|eexists; reflexivity].
    destruct (k =? j)%nat; eexists; reflexivity.
Qed.

Lemma getEditControlPoints_is_Some (w : World) (c : Control.t) (j : nat) :
  drag_anchored (drag (this w)) -> is_Some (getEditControlPoints w c j).
Proof.
  intros H. unfold getEditControlPoints.
  destruct H as [(_ & Hc & _) | [a Ha]].
  - rewrite Hc. eexists. reflexivity.
  - rewrite Ha. destruct (dragControl _) as [[ci pi]|]; [|eexists; reflexivity].
    destruct (ci =? j)%nat; [|eexists; reflexivity].
    destruct (pi =? 0)%nat; eexists; reflexivity.
Qed.

Lemma origin_position_is_Some (w : World) :
  drag_anchored (drag (this w)) -> is_Some (origin_position w).
Proof.
  intros H. unfold origin_position.
  destruct H as [(_ & _ & Ho) | [a Ha]].
  - rewrite Ho. eexists. reflexivity.
  - rewrite Ha. destruct (dragOrigin _); eexists; reflexivity.
Qed.

(** A loop whose body completes on every element completes. *)
Lemma for_each_normal {A : Type} (body : nat -> A -> World -> Completion)
    (w0 : World) (P : nat -> A -> Prop) :
  (forall i a w, same_state (world_of (body i a w)) w) ->
  (forall i a w, P i a -> same_state w w0 -> exists w', body i a w = Normal w') ->
  forall (l : list A) (i : nat) (w : World),
    (forall k a, l !! k = Some a -> P (i + k) a) ->
    same_state w w0 ->
    exists w', for_each body i l w = Normal w'.
Proof.
  intros Hsame Hbody. induction l as [|a l IH]; intros i w HP Hw; simpl.
  - eauto.
  - destruct (Hbody i a w) as [w1 E]; [|exact Hw|].
    + rewrite <- (Nat.add_0_r i). apply HP. reflexivity.
    + rewrite E. simpl. apply IH.
      * intros k b Hk. replace (S i + k) with (i + S k) by lia. apply HP. exact Hk.
      * pose proof (Hsame i a w) as H1. rewrite E in H1. simpl in H1.
        eapply same_state_trans; [exact H1 | exact Hw].
Qed.

Lemma drag_anchored_same_state (w w0 : World) :
  same_state w w0 -> drag_anchored (drag (this w0)) -> drag_anchored (drag (this w)).
Proof. intros (_ & -> & _) H. exact H. Qed.

Lemma draw_point_normal (active : bool) (controls : list Control.t) (j : nat)
    (p : Point.t) (w : World) :
  drag_anchored (drag (this w)) ->
  j = 0 \/ is_Some (controls !! (j - 1)) ->
  exists w', draw_point active controls j p w = Normal w'.
Proof.
  intros Hd Hj. unfold draw_point. cbv zeta.
  assert (forall x y w1, exists w', curve_normally controls j x y w1 = Normal w'
                                    \/ j = 0) as Hcurve.
  { intros x y w1. unfold curve_normally.
    destruct Hj as [-> | [c Hc]]; [exists w1; right; reflexivity|].
    rewrite Hc. eexists. left. reflexivity. }
  destruct active.
  - destruct (point_position_is_Some (emit (set_globalAlpha
                (activeOpacity (display (this w)))) w) j p Hd) as [[x y] E].
    rewrite E.
    destruct (Nat.eqb_spec j 0) as [Hj0|Hj0]; [eexists; reflexivity|].
    destruct Hj as [Hj | [c Hc]]; [contradiction|].
    destruct (ToolTypes_eqb _ EDIT_CONTROLS).
    + rewrite Hc.
      match goal with |- context [getEditControlPoints ?w1 c (j - 1)] =>
        destruct (getEditControlPoints_is_Some w1 c (j - 1)) as [cp Ecp];
          [destruct (_ || _); exact Hd | rewrite Ecp]
      end.
      eexists. reflexivity.
    + unfold curve_normally. rewrite Hc. eexists. reflexivity.
  - destruct (Nat.eqb_spec j 0) as [Hj0|Hj0]; [eexists; reflexivity|].
    destruct Hj as [Hj | [c Hc]]; [contradiction|].
    unfold curve_normally. rewrite Hc. eexists. reflexivity.
Qed.

Lemma draw_control_normal (j : nat) (c : Control.t) (w : World) :
  drag_anchored (drag (this w)) -> exists w', draw_control j c w = Normal w'.
Proof.
  intros Hd. unfold draw_control. cbv zeta.
  destruct (getEditControlPoints_is_Some w c j Hd) as [cp E]. rewrite E.
  eexists. reflexivity.
Qed.

Lemma draw_group_normal (i : nat) (g : CurveGroup.t) (w : World) :
  drag_anchored (drag (this w)) -> counts_match g ->
  exists w', draw_group i g w = Normal w'.
Proof.
  intros Hd Hc. unfold draw_group. cbv zeta.
  destruct (length (CurveGroup.points g) =? 0)%nat; [eexists; reflexivity|].
  match goal with |- context [for_each ?body 0 ?pts ?w1] =>
    assert (exists w2, for_each body 0 pts w1 = Normal w2 /\ same_state w2 w)
      as (w2 & E & Hw2)
  end.
  { match goal with |- context [for_each ?body 0 ?pts ?w1] =>
      destruct (for_each_normal body w
                  (fun j _ => j = 0 \/ is_Some (CurveGroup.controls g !! (j - 1)))
                  (fun j p w => draw_point_same_state _ _ j p w)
                  (fun j p wx Hj Hwx =>
                     draw_point_normal _ _ j p wx
                       (drag_anchored_same_state wx w Hwx Hd) Hj)
                  pts 0 w1) as [w2 E];
        [| same_state_now
         | exists w2; split; [exact E|];
           pose proof (for_each_same_state body
                         (fun j p w => draw_point_same_state _ _ j p w) pts 0 w1) as H;
           rewrite E in H; simpl in H;
           eapply same_state_trans; [exact H | same_state_now] ]
    end.
    intros k p Hk. simpl. destruct k as [|k]; [left; reflexivity|]. right.
    apply lookup_lt_is_Some. apply lookup_lt_Some in Hk.
    unfold counts_match in Hc. simpl. lia. }
  rewrite E. simpl.
  destruct (_ && _); [|eexists; reflexivity].
  match goal with |- context [for_each draw_control 0 ?cs ?w1] =>
    destruct (for_each_normal draw_control w (fun _ _ => True)
                draw_control_same_state
                (fun j c wx _ Hwx =>
                   draw_control_normal j c wx
                     (drag_anchored_same_state wx w Hwx Hd))
                cs 0 w1) as [w3 E3]
  end.
  - trivial.
  - eapply same_state_trans; [same_state_now | exact Hw2].
  - eauto.
Qed.

Lemma reference_update_normal (w : World) :
  reference_drawable (reference (this w)) ->
  exists w', reference_update w = Normal w'.
Proof.
  intros H. unfold reference_update, reference_drawable in *.
  destruct (ReferenceImage.ready _); simpl; [|eauto].
  rewrite (H eq_refl). cbv zeta.
  destruct (ToolTypes_eqb _ _); eauto.
Qed.

Lemma update_body_normal (w : World) :
  counts_ok w -> drag_anchored (drag (this w)) ->
  reference_drawable (reference (this w)) ->
  exists w', update_body w = Normal w'.
Proof.
  intros Hc Hd Hr. unfold update_body. cbv zeta.
  destruct (reference_update_normal
              (emit (clearRect 0 0 canvasWidth canvasHeight) w) Hr) as [w1 E1].
  pose proof (reference_update_same_state
                (emit (clearRect 0 0 canvasWidth canvasHeight) w)) as Hw1.
  rewrite E1 in *. cbn [and_then world_of] in *.
  assert (same_state w1 w) as Hw1'
    by (eapply same_state_trans; [exact Hw1 | same_state_now]).
  clear Hw1 E1. rename Hw1' into Hw1.
  assert (groups w1 = groups w) as Hg.
  { destruct Hw1 as (Hh & Ht & _). unfold groups. rewrite Hh, Ht. reflexivity. }
  destruct (for_each_normal draw_group w (fun _ g => counts_match g)
              draw_group_same_state
              (fun i g w' Hgc Hw' =>
                 draw_group_normal i g w'
                   (drag_anchored_same_state w' w Hw' Hd) Hgc)
              (groups w1) 0 w1) as [w2 E].
  - intros k g Hk. rewrite Hg in Hk.
    assert (g ∈ groups w) as Hin by (eapply list_elem_of_lookup_2; exact Hk).
    unfold groups in Hin. apply list_elem_of_omap in Hin.
    destruct Hin as (l & _ & Hl).
    exact (proj1 (Forall_lookup _ _) Hc l g Hl).
  - exact Hw1.
  - rewrite E. simpl.
    assert (same_state w2 w) as Hw2.
    { pose proof (for_each_same_state draw_group draw_group_same_state
                    (groups w1) 0 w1) as H.
      rewrite E in H. simpl in H.
      eapply same_state_trans; [exact H | exact Hw1]. }
    unfold draw_origin.
    destruct (ToolTypes_eqb _ _); [|eexists; reflexivity].
    cbv zeta.
    match goal with |- context [origin_position ?w3] =>
      destruct (origin_position_is_Some w3) as [[x y] Eo]
    end.
    + apply (drag_anchored_same_state _ w); [|exact Hd].
      eapply same_state_trans; [same_state_now | exact Hw2].
    + rewrite Eo. eexists. reflexivity.
Qed.

(** Whatever the drawing context does not hold is kept by every step of the
    [try] block of [update]. *)
Section KeptByDrawing.

Context {B : Type} (proj : World -> B).
Hypothesis proj_set_ctx : forall v w, proj (set_ctx v w) = proj w.

Lemma for_each_keeps {A : Type} (body : nat -> A -> World -> Completion) :
  (forall i a w, proj (world_of (body i a w)) = proj w) ->
  forall l i w, proj (world_of (for_each body i l w)) = proj w.
Proof.
  intros Hbody. induction l as [|a l IH]; intros i w; simpl; [reflexivity|].
  specialize (Hbody i a w). destruct (body i a w) as [w1|w1]; simpl in *.
  - rewrite IH. exact Hbody.
  - exact Hbody.
Qed.

Lemma draw_point_keeps (active : bool) (controls : list Control.t) (j : nat)
    (p : Point.t) (w : World) :
  proj (world_of (draw_point active controls j p w)) = proj w.
Proof.
  unfold draw_point, curve_normally, emit. cbv zeta.
  repeat match goal with
    | |- context [match ?x with _ => _ end] => destruct x
    end; simpl; rewrite ?proj_set_ctx; reflexivity.
Qed.

Lemma draw_control_keeps (j : nat) (c : Control.t) (w : World) :
  proj (world_of (draw_control j c w)) = proj w.
Proof.
  unfold draw_control, emit_all. cbv zeta.
  destruct (getEditControlPoints w c j); simpl; rewrite ?proj_set_ctx; reflexivity.
Qed.

Lemma draw_group_keeps (i : nat) (g : CurveGroup.t) (w : World) :
  proj (world_of (draw_group i g w)) = proj w.
Proof.
  unfold draw_group. cbv zeta.
  destruct (_ =? 0)%nat; [reflexivity|].
  match goal with |- context [for_each ?body 0 ?l ?w1] =>
    pose proof (for_each_keeps body (draw_point_keeps _ _) l 0 w1) as H;
      destruct (for_each body 0 l w1) as [w2|w2]
  end; simpl in *.
  - destruct (_ && _).
    + rewrite for_each_keeps by apply draw_control_keeps.
      unfold emit_all, emit in *. rewrite !proj_set_ctx in *. exact H.
    + simpl. unfold emit_all, emit in *. rewrite !proj_set_ctx in *. exact H.
  - unfold emit_all in H. rewrite proj_set_ctx in H. exact H.
Qed.

Lemma update_body_keeps (w : World) :
  proj (world_of (update_body w)) = proj w.
Proof.
  unfold update_body. cbv zeta.
  assert (proj (world_of (reference_update
                            (emit (clearRect 0 0 canvasWidth canvasHeight) w)))
          = proj w) as H1.
  { unfold reference_update, emit_all, emit.
    destruct (negb _); [apply proj_set_ctx|]. cbv zeta.
    destruct (broken _); [simpl; rewrite !proj_set_ctx; reflexivity|].
    destruct (ToolTypes_eqb _ _); simpl; rewrite ?proj_set_ctx; reflexivity. }
  destruct (reference_update _) as [w1|e1 w1]; cbn [and_then world_of] in *;
    [|exact H1].
  pose proof (for_each_keeps draw_group draw_group_keeps (groups w1) 0 w1) as H.
  destruct (for_each draw_group 0 (groups w1) w1) as [w2|e2 w2].
  - simpl in *. unfold draw_origin, emit_all, emit.
    destruct (ToolTypes_eqb _ _); simpl; [|rewrite proj_set_ctx; congruence].
    cbv zeta. destruct (origin_position _) as [[x y]|]; simpl;
      rewrite ?proj_set_ctx; congruence.
  - simpl in *. congruence.
Qed.

End KeptByDrawing.

(** X12: when every group has one control fewer than points (or neither),
    the drag variables are either all clear or come with an anchor, and
    the reference image, if ready, is not broken, an update pass completes:
    it throws nothing, so the main loop keeps running and nothing is
    logged, and only the drawing context is written. *)
Theorem update_completes (w : World) :
  counts_ok w ->
  drag_anchored (drag (this w)) ->
  reference_drawable (reference (this w)) ->
  (exists w', update_body w = Normal w')
  /\ mainLoopRunning (update w) = mainLoopRunning w
  /\ console (update w) = console w
  /\ set_ctx (ctx w) (update w) = w.
Proof.
  intros Hc Hd Hr. destruct (update_body_normal w Hc Hd Hr) as [w' E].
  split; [eauto|].
  pose proof (update_body_keeps (fun w => set_ctx [] w) (fun v w => eq_refl) w) as H.
  unfold update. rewrite E in *. simpl in H.
  destruct w' as [h t tl m c ml ms co ls sf]. destruct w. simpl in *.
  unfold set_ctx in H. simpl in H. injection H as -> -> -> -> -> -> -> -> ->.
  repeat split.
Qed.

Lemma update_completes_example :
  let w := handleMouseDown (world_with [close_points] EDIT_POINTS (Point.new 3 3)) in
  dragPoint (drag (this w)) = Some 0
  /\ mainLoopRunning (update w) = true
  /\ console (update w) = [].
Proof.
  cbv zeta.
  assert (handleMouseDown (world_with [close_points] EDIT_POINTS (Point.new 3 3))
          = upd_drag (start_dragPoint 0 3 3)
              (world_with [close_points] EDIT_POINTS (Point.new 3 3))) as E.
  { apply (handleMouseDown_EDIT_POINTS_hit
             (world_with [close_points] EDIT_POINTS (Point.new 3 3))
             0 close_points 0 (Point.new 0 0)).
    - reflexivity.
    - reflexivity.
    - reflexivity.
    - unfold in_box. simpl. lra.
    - intros k q Hk. lia. }
  rewrite E. split; [reflexivity|].
  destruct (update_completes
              (upd_drag (start_dragPoint 0 3 3)
                 (world_with [close_points] EDIT_POINTS (Point.new 3 3))))
    as (_ & Hm & Hc & _).
  - repeat constructor.
  - right. eexists. reflexivity.
  - intros Hready. discriminate Hready.
  - split; assumption.
Defined.

(** X13: with the EDIT_ORIGIN_POINT tool, an update pass while
    [dragOrigin] is set and [dragStart] is [null] throws inside the [try]
    block: the pass stops the main loop and logs one entry, and still
    leaves the store, the helper, the tool and the pointer position as they
    are. *)
Theorem update_stops_main_loop_without_anchor (w : World) :
  activeTool w = EDIT_ORIGIN_POINT ->
  dragOrigin (drag (this w)) = true ->
  dragStart (drag (this w)) = None ->
  mainLoopRunning (update w) = false
  /\ (exists entry, console (update w) = console w ++ [entry])
  /\ same_state (update w) w.
Proof.
  intros Ht Ho Hs.
  assert (exists e w', update_body w = Thrown e w') as (e & w' & E).
  { unfold update_body. cbv zeta.
    pose proof (reference_update_same_state
                  (emit (clearRect 0 0 canvasWidth canvasHeight) w)) as H0.
    destruct (reference_update _) as [w1|e1 w1]; cbn [and_then world_of] in *;
      [|eauto].
    assert (same_state w1 w) as H1
      by (eapply same_state_trans; [exact H0 | same_state_now]).
    pose proof (for_each_same_state draw_group draw_group_same_state
                  (groups w1) 0 w1) as H.
    destruct (for_each draw_group 0 (groups w1) w1) as [w2|e2 w2];
      simpl in *; [|eauto].
    assert (same_state w2 w) as (_ & Hthis & Htool & _)
      by (eapply same_state_trans; eassumption).
    unfold draw_origin. simpl. rewrite Htool, Ht. simpl.
    unfold origin_position. simpl. rewrite Hthis, Ho, Hs. eauto. }
  pose proof (update_body_keeps (fun w => console w) (fun v w => eq_refl) w) as Hc.
  pose proof (update_same_state w) as Hsame.
  unfold update in *. rewrite E in *. simpl in *.
  rewrite Hc. split; [reflexivity|]. split; [eexists; reflexivity | exact Hsame].
Qed.

(** The state of X13 is reached by a drag of the origin that is not
    released before the tool changes, followed by a whole drag of a point:
    the release of the point clears the anchor the origin drag still needs. *)
Lemma update_stops_main_loop_without_anchor_example :
  let w :=
    perform_all
      [Op_mouseDown; Op_setActiveTool EDIT_POINTS; Op_mouseDown; Op_mouseUp;
       Op_setActiveTool EDIT_ORIGIN_POINT]
      (world_with [close_points] EDIT_ORIGIN_POINT (Point.new 1 1)) in
  mainLoopRunning w = true
  /\ mainLoopRunning (update w) = false
  /\ length (console (update w)) = 1.
Proof.
  cbv zeta.
  set (w := perform_all _ _).
  assert (activeTool w = EDIT_ORIGIN_POINT
          /\ drag (this w) = mkDrag None None None true
          /\ mainLoopRunning w = true /\ console w = []) as (Ht & Hd & Hm & Hc).
  { unfold w, perform_all. cbn [fold_left perform].
    set (w0 := world_with [close_points] EDIT_ORIGIN_POINT (Point.new 1 1)).
    assert (handleMouseDown w0 = upd_drag (start_dragOrigin 1 1) w0) as E1.
    { unfold handleMouseDown. simpl. unfold originSizeHalf, originSize.
      js_compare. reflexivity. }
    rewrite E1.
    set (w2 := setActiveTool EDIT_POINTS (upd_drag (start_dragOrigin 1 1) w0)).
    assert (handleMouseDown w2 = upd_drag (start_dragPoint 0 1 1) w2) as E3.
    { apply (handleMouseDown_EDIT_POINTS_hit w2 0 close_points 0 (Point.new 0 0)).
      - reflexivity.
      - reflexivity.
      - reflexivity.
      - unfold in_box. simpl. lra.
      - intros k q Hk. lia. }
    rewrite E3.
    rewrite (handleMouseUp_EDIT_POINTS (upd_drag (start_dragPoint 0 1 1) w2)
               0 close_points 0 (Point.new 1 1) (Point.new 0 0))
      by reflexivity.
    simpl. auto. }
  destruct (update_stops_main_loop_without_anchor w Ht) as (H1 & [entry H2] & _).
  - rewrite Hd. reflexivity.
  - rewrite Hd. reflexivity.
  - rewrite H2, Hc. auto.
Defined.

(** *** The reference image *)

(** X14: once the image is ready, and not broken, an update pass draws
    it exactly where a release at the current pointer position would put
    it: at the offset and with the scale [onMouseUp] would store, whether
    the image is being moved, scaled or neither.  Outside the
    TRANSFORM_REFERENCE tool nothing but the image is drawn for it. *)
Theorem reference_drawn_where_release_puts_it (w : World) :
  ReferenceImage.ready (reference (this w)) = true ->
  broken (ReferenceImage.image (reference (this w))) = false ->
  let r := reference (this w) in
  let r' := reference_onMouseUp (mousePos w) r in
  exists w' decorations,
    reference_update w = Normal w'
    /\ ctx w'
       = ctx w
         ++ [set_globalAlpha (ReferenceImage.opacity r);
             drawImage (ReferenceImage.image r)
               (Point.x (ReferenceImage.offset r')) (Point.y (ReferenceImage.offset r'))
               (width (ReferenceImage.image r) * ReferenceImage.scale r')
               (height (ReferenceImage.image r) * ReferenceImage.scale r');
             set_globalAlpha 1]
         ++ decorations
    /\ (activeTool w <> TRANSFORM_REFERENCE -> decorations = []).
Proof.
  intros Hready Hbroken. cbv zeta. unfold reference_update, reference_onMouseUp.
  rewrite Hready, Hbroken. simpl negb. cbv iota zeta.
  destruct (ReferenceImage.moving (reference (this w))) eqn:Hm;
    destruct (ReferenceImage.scaling (reference (this w))) eqn:Hs; simpl;
    (destruct (activeTool w) eqn:Ht; simpl;
     eexists; eexists; (split; [reflexivity|]);
     (split; [simpl; rewrite <- ?app_assoc; simpl; reflexivity | ]);
     intros H; try reflexivity; congruence).
Qed.

Lemma reference_drawn_where_release_puts_it_example :
  let r :=
    ReferenceImage.set_drag (Point.new 10 10) true false
      (ReferenceImage.onload 300 200 ReferenceImage.new) in
  let w :=
    upd_reference (fun _ => r)
      (world_with [] ADD_POINTS (Point.new 25 40)) in
  ctx (world_of (reference_update w))
  = [set_globalAlpha 1;
     drawImage (ReferenceImage.image r) (0 + (25 - 10)) (0 + (40 - 10))
               (300 * 1) (200 * 1);
     set_globalAlpha 1].
Proof.
  cbv zeta.
  destruct (reference_drawn_where_release_puts_it
              (upd_reference
                 (fun _ => ReferenceImage.set_drag (Point.new 10 10) true false
                             (ReferenceImage.onload 300 200 ReferenceImage.new))
                 (world_with [] ADD_POINTS (Point.new 25 40))))
    as (w' & decorations & Hrun & Hctx & Hnone).
  - reflexivity.
  - reflexivity.
  - rewrite Hrun. cbn [world_of].
    rewrite Hctx, Hnone by (simpl; congruence). reflexivity.
Defined.

(** X15: the release of a scaling drag stores a scale that is never below
    0.1: the scale minus a hundredth of the vertical displacement of the
    pointer when that is at least 0.1, and 0.1 otherwise.  It leaves the
    offset alone and ends the drag. *)
Theorem scaling_release_clamps_scale (mouse : Point.t) (r : ReferenceImage.t) :
  ReferenceImage.ready r = true ->
  ReferenceImage.moving r = false ->
  ReferenceImage.scaling r = true ->
  let r' := reference_onMouseUp mouse r in
  let target :=
    (ReferenceImage.scale r
     - (Point.y mouse - Point.y (ReferenceImage.dragPosition r)) * 0.01)%R in
  (0.1 <= ReferenceImage.scale r')%R
  /\ (0.1 <= target -> ReferenceImage.scale r' = target)%R
  /\ (target < 0.1 -> ReferenceImage.scale r' = 0.1)%R
  /\ ReferenceImage.offset r' = ReferenceImage.offset r
  /\ ReferenceImage.moving r' = false
  /\ ReferenceImage.scaling r' = false.
Proof.
  intros Hready Hm Hs r' target. unfold r', reference_onMouseUp.
  rewrite Hready, Hm, Hs. simpl. fold target. unfold Math_max.
  destruct (js_lt_cases target 0.1) as [[-> H] | [-> H]];
    repeat split; intros; lra.
Qed.

Lemma scaling_release_clamps_scale_example :
  let r :=
    ReferenceImage.set_drag (Point.new 0 0) false true
      (ReferenceImage.onload 300 200 ReferenceImage.new) in
  ReferenceImage.scale (reference_onMouseUp (Point.new 0 50) r) = 0.5%R
  /\ ReferenceImage.scale (reference_onMouseUp (Point.new 0 1000) r) = 0.1%R.
Proof.
  cbv zeta. split.
  - destruct (scaling_release_clamps_scale (Point.new 0 50)
                (ReferenceImage.set_drag (Point.new 0 0) false true
                   (ReferenceImage.onload 300 200 ReferenceImage.new))
                eq_refl eq_refl eq_refl) as (_ & H & _).
    rewrite H; simpl; lra.
  - destruct (scaling_release_clamps_scale (Point.new 0 1000)
                (ReferenceImage.set_drag (Point.new 0 0) false true
                   (ReferenceImage.onload 300 200 ReferenceImage.new))
                eq_refl eq_refl eq_refl) as (_ & _ & H & _).
    rewrite H; simpl; lra.
Defined.

(** X16: an image whose scaled width and height are both at most the
    marker size (32) cannot be moved: every press that lands on it lands on
    the top-left marker, so a pointer-down never starts a move, whatever
    the tool and the pointer position. *)
Theorem small_reference_image_cannot_be_moved (tool : ToolTypes)
    (mouse : Point.t) (r : ReferenceImage.t) :
  (width (ReferenceImage.image r) * ReferenceImage.scale r <= markerSize)%R ->
  (height (ReferenceImage.image r) * ReferenceImage.scale r <= markerSize)%R ->
  ReferenceImage.moving r = false ->
  ReferenceImage.moving (reference_onMouseDown tool mouse r) = false.
Proof.
  intros Hw Hh Hm. unfold reference_onMouseDown.
  destruct (negb _ || negb _); [exact Hm|]. cbv zeta.
  destruct (_ && _ && _ && _) eqn:Hin; [|exact Hm].
  unfold js_gt in Hin. rewrite !andb_true_iff, !js_lt_iff in Hin.
  destruct Hin as [[[H1 H2] H3] H4].
  rewrite (js_lt_true (Point.x mouse)) by lra.
  rewrite (js_lt_true (Point.y mouse)) by lra.
  simpl. exact Hm.
Qed.

Lemma small_reference_image_cannot_be_moved_example :
  let r :=
    ReferenceImage.set_scale 0.1 (ReferenceImage.onload 300 200 ReferenceImage.new) in
  ReferenceImage.moving
    (reference_onMouseDown TRANSFORM_REFERENCE (Point.new 20 15) r) = false
  /\ ReferenceImage.scaling
       (reference_onMouseDown TRANSFORM_REFERENCE (Point.new 20 15) r) = true.
Proof.
  cbv zeta. split.
  - apply (small_reference_image_cannot_be_moved TRANSFORM_REFERENCE
             (Point.new 20 15)
             (ReferenceImage.set_scale 0.1
                (ReferenceImage.onload 300 200 ReferenceImage.new))).
    + unfold markerSize. simpl. lra.
    + unfold markerSize. simpl. lra.
    + reflexivity.
  - unfold reference_onMouseDown. simpl. unfold markerSize. js_compare.
    reflexivity.
Defined.

(** *** Every world the operations reach *)















(** *** What a save followed by a reload gives back *)

(** Loading a state whose active group id is carried by one of its groups
    activates one of the new instances with that id. *)
Lemma loadState_activates (state : State) (gs : list GroupData) (aid : string)
    (w0 : World) :
  s_curveGroups state = Some gs ->
  s_activeGroupId state = Some aid ->
  In aid (map g_id gs) ->
  exists k gd,
    gs !! k = Some gd /\ g_id gd = aid
    /\ activeCurveGroup (this (loadState state w0)) = Some (length (heap w0) + k).
Proof.
  intros Hgs Haid Hin. unfold loadState.
  repeat match goal with
    | |- context [activeCurveGroup (this (when_defined ?fld ?f ?x))] =>
        replace (activeCurveGroup (this (when_defined fld f x)))
          with (activeCurveGroup (this x)) by (destruct fld; reflexivity)
    end.
  rewrite Hgs, Haid. cbn [when_defined]. rewrite alloc_all_spec.
  match goal with |- context [when_defined (s_originPos state) ?f w0] =>
    set (w1 := when_defined (s_originPos state) f w0);
      assert (heap w1 = heap w0) as Hh1
        by (unfold w1; destruct (s_originPos state); reflexivity)
  end.
  clearbody w1.
  destruct (has_id_loaded w1 gs aid Hin) as (l0 & Hl0 & Hhas0).
  match goal with |- context [setActiveGroupId aid ?w2] =>
    destruct (setActiveGroupId_active aid w2)
      as (_ & _ & [(l & Ha & Hl & Hhas) | [_ Hnone]])
  end.
  - simpl in Hl. apply in_seq in Hl. rewrite length_map in Hl.
    exists (l - length (heap w1)).
    unfold has_id in Hhas. simpl in Hhas.
    rewrite lookup_app_r in Hhas by lia.
    rewrite list_lookup_fmap in Hhas.
    destruct (gs !! (l - length (heap w1))) as [gd|] eqn:Hk; [|discriminate].
    exists gd. simpl in Hhas. apply String.eqb_eq in Hhas.
    split; [reflexivity|]. split; [exact Hhas|].
    rewrite Ha, <- Hh1. f_equal. lia.
  - simpl in Hnone. specialize (Hnone l0 Hl0).
    unfold has_id in Hnone, Hhas0. simpl in Hnone, Hhas0.
    rewrite Hhas0 in Hnone. discriminate.
Qed.

Lemma same_id_same_group (gs : list CurveGroup.t) (a b : CurveGroup.t) :
  NoDup (map CurveGroup.id gs) -> In a gs -> In b gs ->
  CurveGroup.id a = CurveGroup.id b -> a = b.
Proof.
  induction gs as [|g gs IH]; intros Hnd Ha Hb Hid; [destruct Ha|].
  simpl in Hnd. apply NoDup_cons in Hnd. destruct Hnd as [Hnot Hnd].
  destruct Ha as [<- | Ha], Hb as [<- | Hb].
  - reflexivity.
  - exfalso. apply Hnot. rewrite Hid. apply list_elem_of_In, in_map, Hb.
  - exfalso. apply Hnot. rewrite <- Hid. apply list_elem_of_In, in_map, Ha.
  - apply IH; assumption.
Qed.

Lemma groups_lookup (w : World) (l : loc) (g : CurveGroup.t) :
  In l (curveGroups (this w)) -> heap w !! l = Some g -> In g (groups w).
Proof.
  intros Hl Hg. apply list_elem_of_In. unfold groups.
  apply list_elem_of_omap. exists l. split; [apply list_elem_of_In; exact Hl | exact Hg].
Qed.

(** X18: after a save that succeeds and a reload, the SVG export and the
    JSON export in either format are what they were before the save. *)
Theorem exports_survive_save_and_reload (toFixed : R -> nat -> string)
    (JSON_stringify : JSON -> string) (now : Z) (jsonFormat : string)
    (w : World) :
  storageFull w = false ->
  let w' := reload (snd (saveState now w)) in
  getSVGString toFixed w' = getSVGString toFixed w
  /\ getJSONString toFixed JSON_stringify jsonFormat w'
     = getJSONString toFixed JSON_stringify jsonFormat w.
Proof.
  intros Hfull w'.
  destruct (reload_restores now w Hfull)
    as (Hg & Ho & _ & (_ & _ & _ & _ & _ & Hmc & _ & _ & Hprec) & _).
  fold w' in Hg, Ho, Hmc, Hprec. clearbody w'.
  unfold getSVGString, getJSONString, coords_value, angledist_value.
  cbv zeta. rewrite Hg, Ho, Hmc, Hprec. auto.
Qed.

Lemma exports_survive_save_and_reload_example :
  let w := world_with [tall_segment; CurveGroup.new "b"] EDIT_POINTS (Point.new 3 4) in
  getSVGString lo_hi (reload (snd (saveState 0 w))) = getSVGString lo_hi w
  /\ getJSONString lo_hi (fun _ => "[]") "coords" (reload (snd (saveState 0 w)))
     = getJSONString lo_hi (fun _ => "[]") "coords" w.
Proof.
  cbv zeta.
  apply (exports_survive_save_and_reload lo_hi (fun _ => "[]") 0 "coords"
           (world_with [tall_segment; CurveGroup.new "b"] EDIT_POINTS (Point.new 3 4))).
  reflexivity.
Defined.

(** X19: after a save that succeeds and a reload, when the active group
    was one of the collection, the active group is again a group of the
    collection and has the id the active group had; when the ids of the
    collection are distinct it is the group that was active, with the same
    points and controls. *)
Theorem reload_reselects_active_group (now : Z) (w : World) (l : loc)
    (g : CurveGroup.t) :
  storageFull w = false ->
  active_group w = Some (l, g) ->
  In l (curveGroups (this w)) ->
  let w' := reload (snd (saveState now w)) in
  exists l' g',
    active_group w' = Some (l', g')
    /\ In l' (curveGroups (this w'))
    /\ In g' (groups w)
    /\ CurveGroup.id g' = CurveGroup.id g
    /\ (NoDup (map CurveGroup.id (groups w)) -> g' = g).
Proof.
  intros Hfull Ha Hl w'.
  destruct (active_group_inv w l g Ha) as [_ Hg].
  pose proof (groups_lookup w l g Hl Hg) as Hing.
  unfold w', reload, saveState. rewrite Hfull.
  cbn [snd localStorage set_localStorage setMessage set_messages].
  set (st := stateObject now w).
  set (w0 := set_localStorage (Some st) initialWorld).
  destruct (loadState_activates st (map groupData (groups w)) (CurveGroup.id g) w0)
    as (k & gd & Hk & Hid & Hact).
  { reflexivity. }
  { unfold st, stateObject. simpl. rewrite Ha. reflexivity. }
  { rewrite map_map. simpl. apply in_map_iff. exists g. auto. }
  rewrite list_lookup_fmap in Hk.
  destruct (groups w !! k) as [g'|] eqn:Hgk; [|discriminate].
  injection Hk as <-. simpl in Hid.
  assert (heap (loadState st w0) = groups w) as Hheap.
  { rewrite loadState_heap. simpl.
    rewrite map_map. erewrite map_ext; [apply map_id|].
    intros g0. apply groupInstance_groupData. }
  assert (curveGroups (this (loadState st w0)) = seq 0 (length (groups w))) as Hcoll.
  { unfold st, stateObject.
    match goal with |- context [loadState (mkState ?ts (Some ?o) (Some ?gs) ?aid
                                  (Some ?rd) (Some ?tool) (Some ?lw) (Some ?pr)
                                  (Some ?ps) (Some ?ao) (Some ?io) (Some ?mc)
                                  (Some ?cc) (Some ?oc) (Some ?prec)) w0] =>
      destruct (loadState_full ts o gs aid rd tool lw pr ps ao io mc cc oc prec w0)
        as (_ & Hc & _)
    end.
    rewrite Hc. simpl. rewrite length_map. reflexivity. }
  exists k, g'. change (length (heap w0) + k) with k in Hact.
  assert (In g' (groups w)) as Hing'.
  { apply list_elem_of_In, list_elem_of_lookup. exists k. exact Hgk. }
  split; [|split; [|split; [|split]]].
  - unfold active_group. rewrite Hact, Hheap.
    exact (f_equal (fun o : option CurveGroup.t =>
                      match o with Some g0 => Some (k, g0) | None => None end)
                   Hgk).
  - rewrite Hcoll. apply in_seq. apply lookup_lt_Some in Hgk. lia.
  - exact Hing'.
  - exact Hid.
  - intros Hnd. exact (same_id_same_group (groups w) g' g Hnd Hing' Hing Hid).
Qed.

Lemma reload_reselects_active_group_example :
  let w :=
    setActiveGroupId "b"
      (world_with [tall_segment; CurveGroup.new "b"] EDIT_POINTS (Point.new 3 4)) in
  exists l' g',
    active_group (reload (snd (saveState 0 w))) = Some (l', g')
    /\ In l' (curveGroups (this (reload (snd (saveState 0 w)))))
    /\ In g' (groups w)
    /\ CurveGroup.id g' = "b"
    /\ (NoDup (map CurveGroup.id (groups w)) -> g' = CurveGroup.new "b").
Proof.
  cbv zeta.
  apply (reload_reselects_active_group 0
           (setActiveGroupId "b"
              (world_with [tall_segment; CurveGroup.new "b"] EDIT_POINTS
                 (Point.new 3 4)))
           1 (CurveGroup.new "b")).
  - reflexivity.
  - reflexivity.
  - simpl. auto.
Defined.

(** *** Dragging the reference image *)

(** A press on the image with the TRANSFORM_REFERENCE tool: on one of the
    two markers it starts a scaling drag, elsewhere a move. *)
Lemma reference_onMouseDown_on_image (mouse : Point.t) (r : ReferenceImage.t) :
  ReferenceImage.ready r = true ->
  let x := Point.x (ReferenceImage.offset r) in
  let y := Point.y (ReferenceImage.offset r) in
  let sw := (width (ReferenceImage.image r) * ReferenceImage.scale r)%R in
  let sh := (height (ReferenceImage.image r) * ReferenceImage.scale r)%R in
  (x < Point.x mouse < x + sw)%R ->
  (y < Point.y mouse < y + sh)%R ->
  let on_marker :=
    ((Point.x mouse < x + 32 /\ Point.y mouse < y + 32)
     \/ (x + sw - 32 < Point.x mouse /\ y + sh - 32 < Point.y mouse))%R in
  (on_marker ->
   reference_onMouseDown TRANSFORM_REFERENCE mouse r
   = ReferenceImage.set_drag (Point.new (Point.x mouse) (Point.y mouse))
       (ReferenceImage.moving r) true r)
  /\ (~ on_marker ->
      reference_onMouseDown TRANSFORM_REFERENCE mouse r
      = ReferenceImage.set_drag (Point.new (Point.x mouse) (Point.y mouse))
          true (ReferenceImage.scaling r) r).
Proof.
  intros Hready x y sw sh Hx Hy on_marker.
  unfold reference_onMouseDown. rewrite Hready. simpl negb. simpl orb.
  cbv iota zeta. fold x y sw sh. unfold js_gt, markerSize.
  rewrite (js_lt_true x), (js_lt_true (Point.x mouse)),
          (js_lt_true y), (js_lt_true (Point.y mouse)) by lra.
  simpl andb. cbv iota.
  destruct (_ || _) eqn:E.
  - split; [reflexivity|]. intros Hnot. exfalso. apply Hnot.
    apply orb_true_iff in E. rewrite !andb_true_iff, !js_lt_iff in E.
    exact E.
  - split; [|reflexivity]. intros Hon. exfalso.
    apply orb_false_iff in E. rewrite !andb_false_iff, !js_lt_iff_false in E.
    unfold on_marker in Hon. lra.
Qed.

(** X20: with the TRANSFORM_REFERENCE tool, a press on the ready image, any
    update passes and pointer moves, then the release: a press on one of
    the two 32-pixel corner markers rescales the image by a hundredth of
    the vertical displacement of the pointer, never below 0.1, and leaves
    its offset; a press elsewhere on the image moves its offset by the
    displacement of the pointer and leaves its scale.  Either way the drag
    ends, and no point, control or the origin changes. *)
Theorem TRANSFORM_REFERENCE_drag_moves_or_scales (w : World)
    (es : list FrameEvent) :
  activeTool w = TRANSFORM_REFERENCE ->
  let r := reference (this w) in
  let x := Point.x (ReferenceImage.offset r) in
  let y := Point.y (ReferenceImage.offset r) in
  let sw := (width (ReferenceImage.image r) * ReferenceImage.scale r)%R in
  let sh := (height (ReferenceImage.image r) * ReferenceImage.scale r)%R in
  let mx := Point.x (mousePos w) in
  let my := Point.y (mousePos w) in
  ReferenceImage.ready r = true ->
  ReferenceImage.moving r = false ->
  ReferenceImage.scaling r = false ->
  (x < mx < x + sw)%R ->
  (y < my < y + sh)%R ->
  let w2 := run_frame_events es (handleMouseDown w) in
  let dx := (Point.x (mousePos w2) - mx)%R in
  let dy := (Point.y (mousePos w2) - my)%R in
  let on_marker :=
    ((mx < x + 32 /\ my < y + 32) \/ (x + sw - 32 < mx /\ y + sh - 32 < my))%R in
  exists w3,
    handleMouseUp w2 = Some w3
    /\ committed w3 = committed w
    /\ ReferenceImage.moving (reference (this w3)) = false
    /\ ReferenceImage.scaling (reference (this w3)) = false
    /\ (on_marker ->
        ReferenceImage.offset (reference (this w3)) = ReferenceImage.offset r
        /\ ReferenceImage.scale (reference (this w3))
           = Math_max (ReferenceImage.scale r - dy * 0.01) 0.1)
    /\ (~ on_marker ->
        ReferenceImage.offset (reference (this w3)) = Point.new (x + dx) (y + dy)
        /\ ReferenceImage.scale (reference (this w3)) = ReferenceImage.scale r).
Proof.
  intros Ht r x y sw sh mx my Hready Hm Hs Hx Hy w2 dx dy on_marker.
  destruct (reference_onMouseDown_on_image (mousePos w) r Hready Hx Hy)
    as [Hon Hoff].
  fold x y sw sh mx my in Hon, Hoff. fold on_marker in Hon, Hoff.
  assert (handleMouseDown w
          = upd_reference (reference_onMouseDown TRANSFORM_REFERENCE (mousePos w)) w)
    as Hdown.
  { unfold handleMouseDown, call_reference_onMouseDown. rewrite Ht. reflexivity. }
  destruct (run_frame_events_state es (handleMouseDown w)) as (Hh & Hthis & Htool).
  fold w2 in Hh, Hthis, Htool. rewrite Hdown in Hh, Hthis, Htool.
  simpl in Hh, Htool. rewrite Ht in Htool.
  exists (call_reference_onMouseUp w2). split.
  { unfold handleMouseUp. rewrite Htool. reflexivity. }
  unfold committed, call_reference_onMouseUp, upd_reference, upd_this.
  cbn [heap this set_this originPos reference set_reference].
  rewrite Hthis, Hh.
  cbn [heap this set_this originPos reference set_reference upd_reference upd_this].
  fold r. fold mx my.
  split; [reflexivity|].
  destruct (Rlt_dec mx (x + 32)) as [Hx32|Hx32];
    destruct (Rlt_dec my (y + 32)) as [Hy32|Hy32];
    destruct (Rlt_dec (x + sw - 32) mx) as [Hxs|Hxs];
    destruct (Rlt_dec (y + sh - 32) my) as [Hys|Hys];
    first
      [ assert on_marker as Hyes by (unfold on_marker; lra);
        rewrite (Hon Hyes); unfold reference_onMouseUp; simpl;
        rewrite Hready, Hm; simpl;
        repeat split; try reflexivity; intros; try reflexivity; tauto
      | assert (~ on_marker) as Hno by (unfold on_marker; lra);
        rewrite (Hoff Hno); unfold reference_onMouseUp; simpl;
        rewrite Hready; simpl;
        repeat split; try reflexivity; intros; try reflexivity; tauto ].
Qed.

Lemma TRANSFORM_REFERENCE_drag_moves_or_scales_example :
  let r := ReferenceImage.onload 300 200 ReferenceImage.new in
  let w :=
    upd_reference (fun _ => r)
      (world_with [] TRANSFORM_REFERENCE (Point.new 100 100)) in
  let w2 :=
    run_frame_events [PointerMove (Point.new 0 0) (mkMouseEvent 150 90); Tick]
                     (handleMouseDown w) in
  exists w3,
    handleMouseUp w2 = Some w3
    /\ ReferenceImage.offset (reference (this w3))
       = Point.new (0 + (Point.x (mousePos w2) - 100))
                   (0 + (Point.y (mousePos w2) - 100))
    /\ ReferenceImage.scale (reference (this w3)) = 1%R.
Proof.
  cbv zeta.
  destruct (TRANSFORM_REFERENCE_drag_moves_or_scales
              (upd_reference (fun _ => ReferenceImage.onload 300 200 ReferenceImage.new)
                 (world_with [] TRANSFORM_REFERENCE (Point.new 100 100)))
              [PointerMove (Point.new 0 0) (mkMouseEvent 150 90); Tick])
    as (w3 & Hup & _ & _ & _ & _ & Hmove).
  - reflexivity.
  - reflexivity.
  - reflexivity.
  - reflexivity.
  - simpl. lra.
  - simpl. lra.
  - exists w3. split; [exact Hup|].
    apply Hmove. simpl. lra.
Defined.

(** *** A broken reference image *)

(** X21: an update pass while the reference image is ready and broken
    throws at [drawImage], inside the [try] block: after the canvas is
    cleared and the opacity set nothing more is drawn, no curve and no
    origin point, the main loop is stopped and one entry is logged; the
    store, the helper, the tool and the pointer position stay. *)
Theorem update_stops_main_loop_on_broken_image (w : World) :
  ReferenceImage.ready (reference (this w)) = true ->
  broken (ReferenceImage.image (reference (this w))) = true ->
  update_body w
  = Thrown InvalidStateError
      (emit_all [clearRect 0 0 canvasWidth canvasHeight;
                 set_globalAlpha (ReferenceImage.opacity (reference (this w)))] w)
  /\ mainLoopRunning (update w) = false
  /\ (exists entry, console (update w) = console w ++ [entry])
  /\ same_state (update w) w.
Proof.
  intros Hready Hbroken.
  assert (update_body w
          = Thrown InvalidStateError
              (emit_all [clearRect 0 0 canvasWidth canvasHeight;
                         set_globalAlpha
                           (ReferenceImage.opacity (reference (this w)))] w))
    as E.
  { unfold update_body, reference_update. cbv zeta.
    cbn [emit this set_ctx reference]. rewrite Hready, Hbroken.
    cbn [negb and_then]. unfold emit_all, emit, set_ctx. simpl.
    rewrite <- app_assoc. reflexivity. }
  split; [exact E|].
  unfold update. rewrite E. simpl.
  split; [reflexivity|]. split; [eexists; reflexivity|].
  same_state_now.
Qed.

(** The state of X21 is reached by loading an image and then handing the
    helper a payload the host cannot decode: [ready] stays set. *)
Lemma update_stops_main_loop_on_broken_image_example :
  let w :=
    perform_all
      [Op_setReferenceData "photo"; Op_imageLoaded 300 200;
       Op_setReferenceData "notes"; Op_imageFailed]
      initialWorld in
  mainLoopRunning w = true
  /\ mainLoopRunning (update w) = false
  /\ length (console (update w)) = 1.
Proof.
  cbv zeta.
  destruct (update_stops_main_loop_on_broken_image
              (perform_all
                 [Op_setReferenceData "photo"; Op_imageLoaded 300 200;
                  Op_setReferenceData "notes"; Op_imageFailed]
                 initialWorld))
    as (_ & Hm & [entry Hc] & _).
  - reflexivity.
  - reflexivity.
  - split; [reflexivity|]. split; [exact Hm|]. rewrite Hc. reflexivity.
Defined.

(** *** What an update pass draws during a drag of the origin *)

(** When nothing throws before it, the [try] block of [update] ends with
    the drawing of the origin point, in a world that differs from the
    initial one in the drawing context only. *)
Lemma update_body_reaches_origin (w : World) :
  counts_ok w -> drag_anchored (drag (this w)) ->
  reference_drawable (reference (this w)) ->
  exists w2,
    same_state w2 w
    /\ update_body w = draw_origin (emit (set_globalAlpha 1) w2).
Proof.
  intros Hc Hd Hr. unfold update_body. cbv zeta.
  destruct (reference_update_normal
              (emit (clearRect 0 0 canvasWidth canvasHeight) w) Hr) as [w1 E1].
  pose proof (reference_update_same_state
                (emit (clearRect 0 0 canvasWidth canvasHeight) w)) as Hw1.
  rewrite E1 in *. cbn [and_then world_of] in *.
  assert (same_state w1 w) as Hw1'
    by (eapply same_state_trans; [exact Hw1 | same_state_now]).
  clear Hw1 E1. rename Hw1' into Hw1.
  assert (groups w1 = groups w) as Hg.
  { destruct Hw1 as (Hh & Ht & _). unfold groups. rewrite Hh, Ht. reflexivity. }
  destruct (for_each_normal draw_group w (fun _ g => counts_match g)
              draw_group_same_state
              (fun i g w' Hgc Hw' =>
                 draw_group_normal i g w'
                   (drag_anchored_same_state w' w Hw' Hd) Hgc)
              (groups w1) 0 w1) as [w2 E].
  - intros k g Hk. rewrite Hg in Hk.
    assert (g ∈ groups w) as Hin by (eapply list_elem_of_lookup_2; exact Hk).
    unfold groups in Hin. apply list_elem_of_omap in Hin.
    destruct Hin as (l & _ & Hl).
    exact (proj1 (Forall_lookup _ _) Hc l g Hl).
  - exact Hw1.
  - exists w2. split.
    + pose proof (for_each_same_state draw_group draw_group_same_state
                    (groups w1) 0 w1) as H.
      rewrite E in H. simpl in H.
      eapply same_state_trans; [exact H | exact Hw1].
    + rewrite E. reflexivity.
Qed.

(** X22: with the EDIT_ORIGIN_POINT tool, during a drag of the origin (the
    origin is recorded as dragged, with an anchor), an update pass that
    nothing stops before (matching counts, a reference image that is not
    broken) ends by stroking the cross of the origin point centred at the
    stored origin plus the displacement of the pointer from the anchor,
    not at the stored origin; the stored origin itself stays. *)
Theorem update_draws_origin_at_preview (w : World) (start : Point.t) :
  activeTool w = EDIT_ORIGIN_POINT ->
  dragOrigin (drag (this w)) = true ->
  dragStart (drag (this w)) = Some start ->
  counts_ok w ->
  reference_drawable (reference (this w)) ->
  let x := (Point.x (originPos (this w))
            + (Point.x (mousePos w) - Point.x start))%R in
  let y := (Point.y (originPos (this w))
            + (Point.y (mousePos w) - Point.y start))%R in
  (exists before,
     ctx (update w)
     = before
       ++ [set_globalAlpha 1;
           set_lineWidth 2;
           set_strokeStyle (originColor (display (this w)));
           set_fillStyle "none";
           beginPath;
           moveTo x (y - originSizeHalf);
           lineTo x (y + originSizeHalf);
           moveTo (x - originSizeHalf) y;
           lineTo (x + originSizeHalf) y;
           stroke])
  /\ originPos (this (update w)) = originPos (this w)
  /\ mainLoopRunning (update w) = mainLoopRunning w.
Proof.
  intros Ht Ho Hs Hc Hr x y.
  assert (drag_anchored (drag (this w))) as Hd
    by (right; rewrite Hs; eexists; reflexivity).
  destruct (update_body_reaches_origin w Hc Hd Hr)
    as (w2 & (Hh & Hthis & Htool & Hmouse) & E).
  destruct w2 as [h2 t2 tl2 m2 c2 ml2 ms2 co2 ls2 sf2].
  cbn [heap this activeTool mousePos] in Hh, Hthis, Htool, Hmouse.
  subst h2 t2 tl2 m2.
  pose proof (update_body_keeps mainLoopRunning (fun _ _ => eq_refl) w) as Hm.
  pose proof (update_body_same_state w) as (_ & Hsame & _).
  assert (update_body w
          = Normal
              (mkWorld (heap w) (this w) (activeTool w) (mousePos w)
                 (c2 ++ [set_globalAlpha 1;
                         set_lineWidth 2;
                         set_strokeStyle (originColor (display (this w)));
                         set_fillStyle "none";
                         beginPath;
                         moveTo x (y - originSizeHalf);
                         lineTo x (y + originSizeHalf);
                         moveTo (x - originSizeHalf) y;
                         lineTo (x + originSizeHalf) y;
                         stroke])
                 ml2 ms2 co2 ls2 sf2)) as E'.
  { rewrite E. unfold draw_origin, origin_position, emit_all, emit, set_ctx.
    cbn [heap this activeTool mousePos ctx mainLoopRunning messages console
         localStorage storageFull].
    rewrite Ht, Ho, Hs. cbn [ToolTypes_eqb]. cbv iota zeta.
    fold x y. rewrite <- !app_assoc. reflexivity. }
  unfold update. rewrite E' in *. cbn [world_of] in *.
  split; [eexists; reflexivity|]. split.
  - cbn [this] in *. reflexivity.
  - exact Hm.
Qed.

Lemma update_draws_origin_at_preview_example :
  let w :=
    upd_drag (start_dragOrigin 10 (-20))
      (world_with [] EDIT_ORIGIN_POINT (Point.new 50 60)) in
  originPos (this (update w)) = Point.new 0 0
  /\ exists before,
       ctx (update w)
       = before
         ++ [set_globalAlpha 1;
             set_lineWidth 2;
             set_strokeStyle "#ffffff";
             set_fillStyle "none";
             beginPath;
             moveTo (0 + (50 - 10)) (0 + (60 - -20) - originSizeHalf);
             lineTo (0 + (50 - 10)) (0 + (60 - -20) + originSizeHalf);
             moveTo (0 + (50 - 10) - originSizeHalf) (0 + (60 - -20));
             lineTo (0 + (50 - 10) + originSizeHalf) (0 + (60 - -20));
             stroke].
Proof.
  cbv zeta.
  destruct (update_draws_origin_at_preview
              (upd_drag (start_dragOrigin 10 (-20))
                 (world_with [] EDIT_ORIGIN_POINT (Point.new 50 60)))
              (Point.new 10 (-20)))
    as (Hctx & Hpos & _).
  - reflexivity.
  - reflexivity.
  - reflexivity.
  - constructor.
  - intros Hready. discriminate Hready.
  - split; [exact Hpos | exact Hctx].
Defined.
